(** * Verification of the streaming-gateway core of [ccctrl.sockets]

    A shallow embedding of the gateway client
    ([rate_limiter.py], [keep_alive.py], [base_gateway.py],
    [binance/gateway.py], [bitmex/gateway.py], and the parts of
    [base_state.py] and [client.py] they call), followed by the properties
    of the specification that were checked against it.

    Conventions.
    - [self] is passed and returned explicitly; a Python method that
      mutates [self] becomes a function returning the new record.
    - An exception is a value of [exn]; a call that may raise returns a
      [completion], and a method that both mutates state and may raise
      returns its completion together with the state reached when it
      returned or when the exception left it.
    - Clock readings ([time.time()], [time.perf_counter()]) are arguments.
      Time stamps and durations are integers: a number of clock ticks. *)

From Stdlib Require Import Ascii.
From stdpp Require Import base numbers option list strings gmap.

Open Scope Z_scope.
Set Warnings "-register-all".

(** ** Python values, exceptions and effects *)

Module Py.

(** The exceptions that the modelled code raises, catches or lets pass.
    [UserError] stands for any other exception that a user callback
    raises and that is an instance of [Exception]; [KeyboardInterrupt]
    stands for those that are not ([SystemExit], [KeyboardInterrupt],
    [asyncio.CancelledError]); [OSError] for [OSError] and its
    subclasses ([ConnectionResetError] among them). *)
Inductive exn : Type :=
| TimeoutError
| WebSocketClosure
| ReconnectWebSocket
| ConnectionClosed (code : option Z)
| JSONDecodeError
| KeyError (key : string)
| KeyErrorIndex (key : nat)
| IndexError
| ValueError
| TypeError
| AttributeError
| RuntimeError
| InvalidStateError
| OSError
| StopIteration
| KeyboardInterrupt
| UserError (tag : nat).

(** [isinstance(e, Exception)]: what a clause [except Exception] catches. *)
Definition is_exception (e : exn) : bool :=
  match e with
  | KeyboardInterrupt => false
  | _ => true
  end.

(** How a call ends: it returns a value or raises. *)
Inductive completion (A : Type) : Type :=
| Ok (a : A)
| Raise (e : exn).
Arguments Ok {A} a.
Arguments Raise {A} e.

Definition cbind {A B} (r : completion A) (k : A -> completion B)
  : completion B :=
  match r with
  | Ok a => k a
  | Raise e => Raise e
  end.

(** Decoded JSON, as [orjson.loads] returns it. *)
Inductive json : Type :=
| JNull
| JBool (b : bool)
| JNum (n : Z)
| JStr (s : string)
| JList (items : list json)
| JDict (fields : list (string * json)).

(** Python truth value of a decoded JSON object. *)
Definition truthy (j : json) : bool :=
  match j with
  | JNull => false
  | JBool b => b
  | JNum n => negb (n =? 0)
  | JStr s => negb (String.eqb s "")
  | JList l => match l with [] => false | _ => true end
  | JDict l => match l with [] => false | _ => true end
  end.

Fixpoint assoc (k : string) (l : list (string * json)) : option json :=
  match l with
  | [] => None
  | (k', v) :: l' => if String.eqb k k' then Some v else assoc k l'
  end.

(** [obj[key]] with a string key. *)
Definition getitem (obj : json) (key : string) : completion json :=
  match obj with
  | JDict l => match assoc key l with
               | Some v => Ok v
               | None => Raise (KeyError key)
               end
  | _ => Raise TypeError
  end.

(** [obj.get(key, default)]; only dicts have the method. *)
Definition get (obj : json) (key : string) (default : json) : completion json :=
  match obj with
  | JDict l => Ok (match assoc key l with Some v => v | None => default end)
  | _ => Raise AttributeError
  end.

(** What the gateway does to the outside world, in program order. *)
Inductive effect : Type :=
| LockAcquire
| LockRelease
| Sleep (delay : Z)
| SocketSendStr (data : string)
| SocketSendJson (payload : json)
| SocketClose (code : Z)
| Dispatched (name : string)
| Called (event : string) (data : json)
| Logged (msg : string).

End Py.
Import Py.

#[global] Instance completion_bind : MBind completion := λ A B k r, cbind r k.
#[global] Instance completion_ret : MRet completion := λ A a, Ok a.

(** ** [rate_limiter.py] *)

Module RateLimiter.

Record GatewayRatelimiter : Type := {
  max : Z;
  remaining : Z;
  window : Z;
  per : Z
}.

Definition set_remaining (r : Z) (self : GatewayRatelimiter) :=
  {| max := max self; remaining := r; window := window self; per := per self |}.

Definition set_window (w : Z) (self : GatewayRatelimiter) :=
  {| max := max self; remaining := remaining self; window := w; per := per self |}.

(** [__init__(count, per)]. *)
Definition init (count per : Z) : GatewayRatelimiter :=
  {| max := count; remaining := count; window := 0; per := per |}.

Definition is_ratelimited (self : GatewayRatelimiter) (current : Z) : bool :=
  if window self + per self <? current then false
  else remaining self =? 0.

(** The first two statements of [get_delay]: a call made after the
    window has run out refills the bucket, and a full bucket starts its
    window at the call. *)
Definition refill (self : GatewayRatelimiter) (current : Z)
  : GatewayRatelimiter :=
  let self :=
    if window self + per self <? current
    then set_remaining (max self) self else self in
  if remaining self =? max self
  then set_window current self else self.

(** [get_delay]: returns the delay and the updated limiter. *)
Definition get_delay (self : GatewayRatelimiter) (current : Z)
  : Z * GatewayRatelimiter :=
  let self := refill self current in
  if remaining self =? 0
  then (per self - (current - window self), self)
  else
    let self := set_remaining (remaining self - 1) self in
    let self :=
      if remaining self =? 0 then set_window current self else self in
    (0, self).

(** [block]: the body runs under [self.lock]; [if delta:] sleeps for any
    non-zero delay.  Returns the effects performed and the new limiter. *)
Definition block (self : GatewayRatelimiter) (current : Z)
  : list effect * GatewayRatelimiter :=
  let '(delta, self) := get_delay self current in
  ([LockAcquire]
     ++ (if delta =? 0 then [] else [Logged "WebSocket is ratelimited"; Sleep delta])
     ++ [LockRelease],
   self).

(** The operations a client can perform on a limiter, with the clock
    reading each one observes. *)
Inductive op : Type :=
| OpIsRatelimited (current : Z)
| OpGetDelay (current : Z)
| OpBlock (current : Z).

Definition step (self : GatewayRatelimiter) (o : op) : GatewayRatelimiter :=
  match o with
  | OpIsRatelimited _ => self
  | OpGetDelay t => snd (get_delay self t)
  | OpBlock t => snd (block self t)
  end.

Definition run (self : GatewayRatelimiter) (ops : list op) : GatewayRatelimiter :=
  fold_left step ops self.

(** A call at [current] starts a new window when the first test of
    [get_delay] succeeds. *)
Definition resets (self : GatewayRatelimiter) (current : Z) : bool :=
  window self + per self <? current.

(** The call takes a token: it reaches [self.remaining -= 1]. *)
Definition takes_token (self : GatewayRatelimiter) (current : Z) : bool :=
  negb (remaining (refill self current) =? 0).

(** Delays returned by consecutive [get_delay] calls at the given times. *)
Fixpoint delays (self : GatewayRatelimiter) (times : list Z) : list Z :=
  match times with
  | [] => []
  | t :: ts => fst (get_delay self t) :: delays (snd (get_delay self t)) ts
  end.

(** No call of the sequence starts a new window. *)
Fixpoint same_window (self : GatewayRatelimiter) (times : list Z) : bool :=
  match times with
  | [] => true
  | t :: ts => negb (resets self t) && same_window (snd (get_delay self t)) ts
  end.

(** Every call of the sequence is made strictly before the end of the
    window current at that call. *)
Fixpoint strictly_inside (self : GatewayRatelimiter) (times : list Z) : bool :=
  match times with
  | [] => true
  | t :: ts =>
      (t <? window self + per self)
      && strictly_inside (snd (get_delay self t)) ts
  end.

(** Number of calls of the sequence that take a token. *)
Fixpoint tokens_taken (self : GatewayRatelimiter) (times : list Z) : nat :=
  match times with
  | [] => O
  | t :: ts =>
      ((if takes_token self t then 1 else 0)
       + tokens_taken (snd (get_delay self t)) ts)%nat
  end.

(** Number of calls of the sequence that return a zero delay. *)
Fixpoint zero_delays (self : GatewayRatelimiter) (times : list Z) : nat :=
  match times with
  | [] => O
  | t :: ts =>
      ((if (fst (get_delay self t) =? 0)%Z then 1 else 0)
       + zero_delays (snd (get_delay self t)) ts)%nat
  end.

(** The invariant of the token count. *)
Definition bucket_ok (self : GatewayRatelimiter) : Prop :=
  0 <= remaining self <= max self.

End RateLimiter.

(** ** [keep_alive.py]: the state of a [KeepAliveHandler] thread object

    The fields are those [__init__] sets.  The constructor itself is not
    modelled: it hands its [ws] keyword on to [threading.Thread.__init__]
    and reads [ws._max_heartbeat_timeout], so the properties below are
    about a handler object however it was obtained. *)

Module KeepAlive.

Record KeepAliveHandler : Type := {
  interval : option Z;
  _stop_ev : bool;
  _last_ack : Z;
  _last_send : Z;
  _last_recv : Z;
  latency : option Z;          (* [None] is [float('inf')] *)
  heartbeat_timeout : Z
}.

Definition stop (self : KeepAliveHandler) : KeepAliveHandler :=
  {| interval := interval self; _stop_ev := true;
     _last_ack := _last_ack self; _last_send := _last_send self;
     _last_recv := _last_recv self; latency := latency self;
     heartbeat_timeout := heartbeat_timeout self |}.

Definition tick (now : Z) (self : KeepAliveHandler) : KeepAliveHandler :=
  {| interval := interval self; _stop_ev := _stop_ev self;
     _last_ack := _last_ack self; _last_send := _last_send self;
     _last_recv := now; latency := latency self;
     heartbeat_timeout := heartbeat_timeout self |}.

Definition ack (now : Z) (self : KeepAliveHandler) : KeepAliveHandler :=
  {| interval := interval self; _stop_ev := _stop_ev self;
     _last_ack := now; _last_send := _last_send self;
     _last_recv := _last_recv self; latency := Some (now - _last_send self);
     heartbeat_timeout := heartbeat_timeout self |}.

(** The test at the head of each iteration of [run]. *)
Definition stale (now : Z) (self : KeepAliveHandler) : bool :=
  _last_recv self + heartbeat_timeout self <? now.

End KeepAlive.

(** ** [base_gateway.py] *)

Module Gateway.

(** *** The objects a gateway refers to *)

(** An [asyncio.Future]: pending, cancelled, or done with a result or
    with an exception. *)
Inductive future_state : Type :=
| Pending
| Cancelled
| Finished (value : json)
| Failed (error : exn).

(** [EventListener = namedtuple('EventListener', 'predicate event result future')];
    the future is held by reference (its address in the loop's futures). *)
Record EventListener : Type := {
  predicate : json -> completion bool;
  event : string;
  result : option (json -> completion json);
  future : nat
}.

(** The [aiohttp] socket: what the gateway reads of it
    ([closed], [close_code]) and what the transport will do when it is
    closed: raise [close_error], or else report [close_reply] as its
    close code. *)
Record Socket : Type := {
  closed : bool;
  close_code : option Z;
  close_error : option exn;
  close_reply : option Z
}.

(** [_BaseWebSocket], with the objects it shares with its callers: the
    [KeepAliveHandler] threads and the futures of the event loop, both
    by address, and the effects performed so far. *)
Record WebSocket : Type := {
  socket : Socket;
  _keep_alive : option nat;
  parsers : gmap string (json -> completion unit);
  _dispatch_listeners : list EventListener;
  max_heartbeat_timeout : option Z;
  _close_code : option Z;
  rate_limiter : option RateLimiter.GatewayRatelimiter;
  threads : gmap nat KeepAlive.KeepAliveHandler;
  futures : gmap nat future_state;
  next_future : nat;
  trace : list effect
}.

Definition with_socket (x : Socket) (s : WebSocket) : WebSocket :=
  {| socket := x; _keep_alive := _keep_alive s; parsers := parsers s;
     _dispatch_listeners := _dispatch_listeners s;
     max_heartbeat_timeout := max_heartbeat_timeout s;
     _close_code := _close_code s; rate_limiter := rate_limiter s;
     threads := threads s; futures := futures s;
     next_future := next_future s; trace := trace s |}.

Definition with_keep_alive (x : option nat) (s : WebSocket) : WebSocket :=
  {| socket := socket s; _keep_alive := x; parsers := parsers s;
     _dispatch_listeners := _dispatch_listeners s;
     max_heartbeat_timeout := max_heartbeat_timeout s;
     _close_code := _close_code s; rate_limiter := rate_limiter s;
     threads := threads s; futures := futures s;
     next_future := next_future s; trace := trace s |}.

Definition with_listeners (x : list EventListener) (s : WebSocket) : WebSocket :=
  {| socket := socket s; _keep_alive := _keep_alive s; parsers := parsers s;
     _dispatch_listeners := x;
     max_heartbeat_timeout := max_heartbeat_timeout s;
     _close_code := _close_code s; rate_limiter := rate_limiter s;
     threads := threads s; futures := futures s;
     next_future := next_future s; trace := trace s |}.

Definition with_close_code (x : option Z) (s : WebSocket) : WebSocket :=
  {| socket := socket s; _keep_alive := _keep_alive s; parsers := parsers s;
     _dispatch_listeners := _dispatch_listeners s;
     max_heartbeat_timeout := max_heartbeat_timeout s;
     _close_code := x; rate_limiter := rate_limiter s;
     threads := threads s; futures := futures s;
     next_future := next_future s; trace := trace s |}.

Definition with_rate_limiter (x : option RateLimiter.GatewayRatelimiter)
    (s : WebSocket) : WebSocket :=
  {| socket := socket s; _keep_alive := _keep_alive s; parsers := parsers s;
     _dispatch_listeners := _dispatch_listeners s;
     max_heartbeat_timeout := max_heartbeat_timeout s;
     _close_code := _close_code s; rate_limiter := x;
     threads := threads s; futures := futures s;
     next_future := next_future s; trace := trace s |}.

Definition with_threads (x : gmap nat KeepAlive.KeepAliveHandler)
    (s : WebSocket) : WebSocket :=
  {| socket := socket s; _keep_alive := _keep_alive s; parsers := parsers s;
     _dispatch_listeners := _dispatch_listeners s;
     max_heartbeat_timeout := max_heartbeat_timeout s;
     _close_code := _close_code s; rate_limiter := rate_limiter s;
     threads := x; futures := futures s;
     next_future := next_future s; trace := trace s |}.

Definition with_futures (x : gmap nat future_state) (s : WebSocket) : WebSocket :=
  {| socket := socket s; _keep_alive := _keep_alive s; parsers := parsers s;
     _dispatch_listeners := _dispatch_listeners s;
     max_heartbeat_timeout := max_heartbeat_timeout s;
     _close_code := _close_code s; rate_limiter := rate_limiter s;
     threads := threads s; futures := x;
     next_future := next_future s; trace := trace s |}.

Definition with_next_future (x : nat) (s : WebSocket) : WebSocket :=
  {| socket := socket s; _keep_alive := _keep_alive s; parsers := parsers s;
     _dispatch_listeners := _dispatch_listeners s;
     max_heartbeat_timeout := max_heartbeat_timeout s;
     _close_code := _close_code s; rate_limiter := rate_limiter s;
     threads := threads s; futures := futures s;
     next_future := x; trace := trace s |}.

Definition with_trace (x : list effect) (s : WebSocket) : WebSocket :=
  {| socket := socket s; _keep_alive := _keep_alive s; parsers := parsers s;
     _dispatch_listeners := _dispatch_listeners s;
     max_heartbeat_timeout := max_heartbeat_timeout s;
     _close_code := _close_code s; rate_limiter := rate_limiter s;
     threads := threads s; futures := futures s;
     next_future := next_future s; trace := x |}.

(** [_BaseWebSocket.__init__(socket, loop=loop)], on a loop that has so
    far created the given futures. *)
Definition init (sock : Socket) (loop_futures : gmap nat future_state)
    (loop_next : nat) : WebSocket :=
  {| socket := sock; _keep_alive := None; parsers := ∅;
     _dispatch_listeners := [];
     max_heartbeat_timeout := None;
     _close_code := None; rate_limiter := None;
     threads := ∅; futures := loop_futures;
     next_future := loop_next; trace := [] |}.

(** *** Methods as state transformers that may raise *)

Definition M (A : Type) : Type := WebSocket -> completion A * WebSocket.

Definition ret {A} (a : A) : M A := fun s => (Ok a, s).

Definition raise {A} (e : exn) : M A := fun s => (Raise e, s).

Definition bind {A B} (m : M A) (k : A -> M B) : M B :=
  fun s =>
    match m s with
    | (Ok a, s') => k a s'
    | (Raise e, s') => (Raise e, s')
    end.

Definition lift {A} (c : completion A) : M A := fun s => (c, s).

Definition modify (f : WebSocket -> WebSocket) : M unit :=
  fun s => (Ok tt, f s).

Definition emit (e : effect) : M unit :=
  modify (fun s => with_trace (trace s ++ [e]) s).

Notation "'let*' x := m 'in' k" := (bind m (fun x => k))
  (at level 10, x pattern, m at level 100, k at level 200).

(** *** [asyncio.Future] on the store of futures *)

Definition cancelled (futs : gmap nat future_state) (f : nat) : bool :=
  match futs !! f with
  | Some Cancelled => true
  | _ => false
  end.

(** [set_result] and [set_exception] raise [InvalidStateError] unless the
    future is pending; [set_exception] then refuses a [StopIteration]
    with [TypeError]. *)
Definition set_result (f : nat) (v : json) (futs : gmap nat future_state)
  : completion unit * gmap nat future_state :=
  match futs !! f with
  | Some Pending => (Ok tt, <[f := Finished v]> futs)
  | _ => (Raise InvalidStateError, futs)
  end.

Definition set_exception (f : nat) (e : exn) (futs : gmap nat future_state)
  : completion unit * gmap nat future_state :=
  match futs !! f with
  | Some Pending =>
      match e with
      | StopIteration => (Raise TypeError, futs)
      | _ => (Ok tt, <[f := Failed e]> futs)
      end
  | _ => (Raise InvalidStateError, futs)
  end.

(** [future.cancel()], called by whoever holds the future: a pending
    future becomes cancelled, a done one is left alone. *)
Definition cancel (f : nat) (s : WebSocket) : WebSocket :=
  match futures s !! f with
  | Some Pending => with_futures (<[f := Cancelled]> (futures s)) s
  | _ => s
  end.

(** [self.loop.create_future()]. *)
Definition create_future : M nat :=
  fun s =>
    (Ok (next_future s),
     with_next_future (S (next_future s))
       (with_futures (<[next_future s := Pending]> (futures s)) s)).

(** *** [wait_for] *)

Definition wait_for (ev : string) (pred : json -> completion bool)
    (res : option (json -> completion json)) : M nat :=
  let* fut := create_future in
  let entry := {| predicate := pred; event := ev; result := res; future := fut |} in
  let* _ := modify (fun s => with_listeners (_dispatch_listeners s ++ [entry]) s) in
  ret fut.

(** *** [_can_handle_close] *)

(** [a or b] on optional integers: [None] and [0] are false. *)
Definition py_or (a b : option Z) : option Z :=
  match a with
  | Some c => if c =? 0 then b else Some c
  | None => b
  end.

Definition terminal_codes : list Z := [1000; 4004; 4010; 4011; 4012; 4013; 4014].

Definition _can_handle_close (s : WebSocket) : bool :=
  let code := py_or (_close_code s) (close_code (socket s)) in
  match code with
  | Some c => negb (bool_decide (c ∈ terminal_codes))
  | None => true
  end.

(** *** [_remove_dispatched_listeners] *)

(** The value sent to the future: [data] itself when [entry.result] is
    [None], else [entry.result(data)]. *)
Definition result_of (entry : EventListener) (data : json) : completion json :=
  match result entry with
  | None => Ok data
  | Some f => f data
  end.

(** The body of the first loop, for one entry.  Returns [true] when the
    index of the entry is appended to [removed].  The [except] clause
    catches an [Exception]; anything else leaves the method. *)
Definition visit (ev : string) (data : json) (entry : EventListener)
    (futs : gmap nat future_state)
  : completion bool * gmap nat future_state :=
  if negb (String.eqb (event entry) ev) then (Ok false, futs)
  else if cancelled futs (future entry) then (Ok true, futs)
  else
    match predicate entry data with
    | Raise exc =>
        if is_exception exc then
          match set_exception (future entry) exc futs with
          | (Ok _, futs') => (Ok true, futs')
          | (Raise e, futs') => (Raise e, futs')
          end
        else (Raise exc, futs)
    | Ok valid =>
        if valid then
          match result_of entry data with
          | Raise e => (Raise e, futs)
          | Ok v =>
              match set_result (future entry) v futs with
              | (Ok _, futs') => (Ok true, futs')
              | (Raise e, futs') => (Raise e, futs')
              end
          end
        else (Ok false, futs)
    end.

(** [for index, entry in enumerate(self._dispatch_listeners): ...],
    from position [index] on. *)
Fixpoint scan (ev : string) (data : json) (index : nat)
    (entries : list EventListener) (futs : gmap nat future_state)
    (removed : list nat)
  : completion (list nat) * gmap nat future_state :=
  match entries with
  | [] => (Ok removed, futs)
  | entry :: rest =>
      match visit ev data entry futs with
      | (Ok b, futs') =>
          scan ev data (S index) rest futs'
            (if b then removed ++ [index] else removed)
      | (Raise e, futs') => (Raise e, futs')
      end
  end.

(** [del l[index]]: raises [IndexError] out of range. *)
Definition del_index (index : nat) (l : list EventListener)
  : completion (list EventListener) :=
  if bool_decide (index < length l)%nat then Ok (delete index l)
  else Raise IndexError.

(** [for index in indices: del l[index]]; returns the list as it is when
    the loop ends or raises. *)
Fixpoint del_each (indices : list nat) (l : list EventListener)
  : completion unit * list EventListener :=
  match indices with
  | [] => (Ok tt, l)
  | index :: rest =>
      match del_index index l with
      | Ok l' => del_each rest l'
      | Raise e => (Raise e, l)
      end
  end.

Definition _remove_dispatched_listeners (ev : string) (data : json) : M unit :=
  fun s =>
    match scan ev data 0 (_dispatch_listeners s) (futures s) [] with
    | (Raise e, futs) => (Raise e, with_futures futs s)
    | (Ok removed, futs) =>
        let s := with_futures futs s in
        let '(c, l) := del_each (rev removed) (_dispatch_listeners s) in
        (c, with_listeners l s)
    end.

(** *** [close], [send], [send_as_json] *)

(** [if self._keep_alive: self._keep_alive.stop(); self._keep_alive = None]. *)
Definition stop_keep_alive : M unit :=
  modify (fun s =>
    match _keep_alive s with
    | Some a =>
        with_keep_alive None
          (with_threads (alter KeepAlive.stop a (threads s)) s)
    | None => s
    end).

(** [await self.socket.close(code=code)]: a socket already closed is
    left as it is. *)
Definition socket_close (code : Z) : M unit :=
  let* _ := emit (SocketClose code) in
  fun s =>
    match close_error (socket s) with
    | Some e => (Raise e, s)
    | None =>
        (Ok tt,
         if closed (socket s) then s
         else with_socket {| closed := true;
                             close_code := close_reply (socket s);
                             close_error := close_error (socket s);
                             close_reply := close_reply (socket s) |} s)
    end.

Definition close (code : Z) : M unit :=
  let* _ := stop_keep_alive in
  let* _ := modify (with_close_code (Some code)) in
  socket_close code.

(** [await self.rate_limiter.block()]; without a limiter object the
    attribute access on [None] raises. *)
Definition rate_limiter_block (now : Z) : M unit :=
  fun s =>
    match rate_limiter s with
    | None => (Raise AttributeError, s)
    | Some rl =>
        let '(effects, rl') := RateLimiter.block rl now in
        (Ok tt, with_trace (trace s ++ effects) (with_rate_limiter (Some rl') s))
    end.

(** [await self.socket.send_str(data)] and [send_json]: on a closed
    socket the writer of [aiohttp] raises [ConnectionResetError]. *)
Definition socket_write (e : effect) : M unit :=
  fun s =>
    if closed (socket s) then (Raise OSError, s)
    else emit e s.

Definition send (data : string) (now : Z) : M unit :=
  let* _ := rate_limiter_block now in
  let* _ := emit (Dispatched "socket_raw_send") in
  socket_write (SocketSendStr data).

(** [to_json] is [json.dumps], taken as given. *)
Definition send_as_json (to_json : json -> string) (data : json) (now : Z)
  : M unit :=
  fun s =>
    match send (to_json data) now s with
    | (Raise RuntimeError, s') =>
        if negb (_can_handle_close s')
        then (Raise (ConnectionClosed (close_code (socket s'))), s')
        else (Ok tt, s')
    | r => r
    end.

(** *** [poll_event] *)

(** Frames are kept by what [orjson.loads] makes of them: the text is
    either not JSON or the encoding of a JSON value. *)
Inductive frame : Type :=
| Malformed (text : string)
| Encodes (value : json).

Definition loads (f : frame) : completion json :=
  match f with
  | Malformed _ => Raise JSONDecodeError
  | Encodes j => Ok j
  end.

Inductive WSMsgType : Type :=
| CONTINUATION | TEXT | BINARY | PING | PONG | CLOSE | CLOSING | CLOSED.

(** What [await self.socket.receive(timeout=...)] delivers: it times out,
    or returns a message of one of the data or control types, or a
    message of type [ERROR] carrying an exception. *)
Inductive received : Type :=
| ReceiveTimeout
| Message (type : WSMsgType) (data : frame)
| ErrorMessage (data : exn).

(** [received_message] is overridden by each exchange; it is passed in,
    together with the clock reading it will make. *)
Definition poll_event (received_message : frame -> M unit) (ev : received)
  : M unit :=
  fun s =>
    let body : M unit :=
      match ev with
      | ReceiveTimeout => raise TimeoutError
      | Message TEXT data => received_message data
      | Message BINARY data => received_message data
      | Message PONG data => received_message data
      | ErrorMessage e => let* _ := emit (Logged "Received") in raise e
      | Message CLOSED _ | Message CLOSING _ | Message CLOSE _ =>
          let* _ := emit (Logged "Received") in raise WebSocketClosure
      | Message _ _ => ret tt
      end in
    let handler (timeout : bool) : M unit :=
      let* _ := stop_keep_alive in
      if timeout then
        let* _ := emit (Logged "Timed out receiving packet. Attempting a reconnect.") in
        raise ReconnectWebSocket
      else
        fun s =>
          let code := py_or (_close_code s) (close_code (socket s)) in
          if _can_handle_close s then
            (let* _ := emit (Logged "Websocket closed, attempting a reconnect.") in
             raise ReconnectWebSocket) s
          else
            (let* _ := emit (Logged "Websocket closed, cannot reconnect.") in
             raise (ConnectionClosed (py_or code (close_code (socket s))))) s in
    match body s with
    | (Raise TimeoutError, s') => handler true s'
    | (Raise WebSocketClosure, s') => handler false s'
    | r => r
    end.

(** *** [KeepAliveHandler.run], for the thread object at address [a]
    whose [ws] is this gateway *)

(** One iteration of [while not self._stop_ev.wait(self.interval)],
    entered at clock reading [now].  Returns [true] when the loop goes
    on to the next iteration, [false] when [run] returns.  (The thread
    object is looked up at its address; [run] is only ever called on an
    object that exists.) *)
Definition run_iteration (a : nat) (now : Z) : M bool :=
  fun s =>
    match threads s !! a with
    | None => (Raise AttributeError, s)
    | Some self =>
        if KeepAlive._stop_ev self then (Ok false, s)
        else if KeepAlive.stale now self then
          let s := with_trace
                     (trace s ++ [Logged "Shard has stopped responding to the gateway. Closing and restarting."]) s in
          (* coro = self.ws.close(4000); f.result() *)
          let s := match close 4000 s with
                   | (Ok _, s') => s'
                   | (Raise _, s') =>
                       with_trace
                         (trace s' ++ [Logged "An error occurred while stopping the gateway. Ignoring."]) s'
                   end in
          (* finally: self.stop(); return *)
          (Ok false, with_threads (alter KeepAlive.stop a (threads s)) s)
        else
          (* data = self.get_payload(): no gateway class defines
             HEARTBEAT or sequence *)
          (Raise AttributeError, s)
    end.

(** [run], over the clock readings of its successive iterations. *)
Fixpoint run (a : nat) (ticks : list Z) : M unit :=
  match ticks with
  | [] => ret tt
  | now :: rest =>
      let* continue := run_iteration a now in
      if continue then run a rest else ret tt
  end.

(** [if self._keep_alive: self._keep_alive.tick()]. *)
Definition keep_alive_tick (now : Z) : M unit :=
  modify (fun s =>
    match _keep_alive s with
    | Some a => with_threads (alter (KeepAlive.tick now) a (threads s)) s
    | None => s
    end).

(** [func(data)] for a parser looked up under [ev]. *)
Definition call_parser (ev : string) (func : json -> completion unit)
    (data : json) : M unit :=
  let* _ := emit (Called ev data) in
  lift (func data).

(** *** Reading a trace *)

Definition is_write (e : effect) : bool :=
  match e with
  | SocketSendStr _ | SocketSendJson _ => true
  | _ => false
  end.

(** Every write to the socket comes after a critical section of the
    rate limiter entered since the previous write; [passed] tells
    whether such a section has been left since then. *)
Fixpoint writes_gated (passed : bool) (t : list effect) : bool :=
  match t with
  | [] => true
  | LockRelease :: rest => writes_gated true rest
  | e :: rest =>
      if is_write e then passed && writes_gated false rest
      else writes_gated passed rest
  end.

(** *** The dispatch in one pass, and the life of a registry *)

(** What the two loops of [_remove_dispatched_listeners] compute together:
    the entries are visited in order and those whose index was recorded
    are left out.  ([dispatch_is_sweep] below proves the equality.) *)
Fixpoint sweep (ev : string) (data : json) (entries : list EventListener)
    (futs : gmap nat future_state)
  : completion (list EventListener) * gmap nat future_state :=
  match entries with
  | [] => (Ok [], futs)
  | entry :: rest =>
      match visit ev data entry futs with
      | (Raise e, futs') => (Raise e, futs')
      | (Ok b, futs') =>
          match sweep ev data rest futs' with
          | (Ok kept, futs'') => (Ok (if b then kept else entry :: kept), futs'')
          | (Raise e, futs'') => (Raise e, futs'')
          end
      end
  end.

(** What can happen to the registry of waiters: a caller registers a
    waiter, an event is dispatched, a caller cancels a future it holds. *)
Inductive op : Type :=
| OpWaitFor (ev : string) (pred : json -> completion bool)
    (res : option (json -> completion json))
| OpDispatch (ev : string) (data : json)
| OpCancel (f : nat).

Definition apply_op (s : WebSocket) (o : op) : WebSocket :=
  match o with
  | OpWaitFor ev pred res => snd (wait_for ev pred res s)
  | OpDispatch ev data => snd (_remove_dispatched_listeners ev data s)
  | OpCancel f => cancel f s
  end.

Definition apply_ops (s : WebSocket) (ops : list op) : WebSocket :=
  fold_left apply_op ops s.

(** The operation is neither a dispatch of [ev] nor a cancellation of [f]. *)
Definition leaves_alone (ev : string) (f : nat) (o : op) : bool :=
  match o with
  | OpWaitFor _ _ _ => true
  | OpDispatch ev' _ => negb (String.eqb ev' ev)
  | OpCancel f' => negb (f' =? f)%nat
  end.

(** Invariant of the registry: the waiters hold distinct futures, and
    every future was created by the loop (the loop numbers them in order
    of creation). *)
Definition registry_ok (s : WebSocket) : Prop :=
  NoDup (future <$> _dispatch_listeners s)
  /\ (forall f, f ∈ (future <$> _dispatch_listeners s) -> (f < next_future s)%nat)
  /\ (forall f, (next_future s <= f)%nat -> futures s !! f = None).

(** A waiter that is registered and whose future is still pending. *)
Definition live (w : EventListener) (s : WebSocket) : Prop :=
  w ∈ _dispatch_listeners s /\ futures s !! future w = Some Pending.

(** A future that was completed with [v] and that no waiter holds any more. *)
Definition completed (f : nat) (v : json) (s : WebSocket) : Prop :=
  futures s !! f = Some (Finished v)
  /\ (f ∉ (future <$> _dispatch_listeners s))
  /\ (f < next_future s)%nat.

(** A future that is done or cancelled. *)
Definition settled (st : future_state) : Prop := st <> Pending.

End Gateway.

(** ** [base_state.py]: the stream parsers of [ConnectionState] *)

Module State.

(** [parse_kline_update]: prints, then reads [data['E']]. *)
Definition parse_kline_update (data : json) : completion unit :=
  _ ← getitem data "E"; Ok tt.

(** [parse_depth_update] and [parse_ticker_update] only print. *)
Definition parse_depth_update (data : json) : completion unit := Ok tt.

Definition parse_ticker_update (data : json) : completion unit := Ok tt.

(** [self.parsers], restricted to the stream parsers.  ([parse_ready] and
    [parse_resumed] are registered as [READY] and [RESUMED], names that
    neither gateway produces.) *)
Definition parsers : gmap string (json -> completion unit) :=
  <["KLINE_UPDATE" := parse_kline_update]>
    (<["DEPTH_UPDATE" := parse_depth_update]>
       (<["TICKER_UPDATE" := parse_ticker_update]> ∅)).

End State.

(** ** Python string operations used by the gateways *)

Module Str.

(** [s.split(sep)] for a one-character separator. *)
Fixpoint split (sep : Ascii.ascii) (s : string) : list string :=
  match s with
  | EmptyString => [EmptyString]
  | String c rest =>
      if Ascii.eqb c sep then EmptyString :: split sep rest
      else match split sep rest with
           | [] => [String c EmptyString]
           | hd :: tl => String c hd :: tl
           end
  end.

(** [needle in hay]. *)
Fixpoint contains (needle hay : string) : bool :=
  String.prefix needle hay
  || match hay with
     | EmptyString => false
     | String _ rest => contains needle rest
     end.

(** [s[:-n]]. *)
Definition drop_last (n : nat) (s : string) : string :=
  String.substring 0 (String.length s - n) s.

Definition upper_char (c : Ascii.ascii) : Ascii.ascii :=
  let n := Ascii.nat_of_ascii c in
  if ((97 <=? n) && (n <=? 122))%nat then Ascii.ascii_of_nat (n - 32) else c.

(** [s.upper()], on ASCII letters. *)
Fixpoint upper (s : string) : string :=
  match s with
  | EmptyString => EmptyString
  | String c rest => String (upper_char c) (upper rest)
  end.

Definition lower_char (c : Ascii.ascii) : Ascii.ascii :=
  let n := Ascii.nat_of_ascii c in
  if ((65 <=? n) && (n <=? 90))%nat then Ascii.ascii_of_nat (n + 32) else c.

(** [s.lower()], on ASCII letters. *)
Fixpoint lower (s : string) : string :=
  match s with
  | EmptyString => EmptyString
  | String c rest => String (lower_char c) (lower rest)
  end.

End Str.

(** ** [binance/gateway.py] *)

Module Binance.
Import Gateway.

(** [EventType(topic).name]. *)
Definition event_type_name (topic : string) : completion string :=
  if String.eqb topic "depth" then Ok "DEPTH_UPDATE"%string
  else if String.eqb topic "kline" then Ok "KLINE_UPDATE"%string
  else if String.eqb topic "ticker" then Ok "TICKER_UPDATE"%string
  else if String.eqb topic "trade" then Ok "TRADE_UPDATE"%string
  else Raise ValueError.

(** [symbol, topic = stream.split('@')]. *)
Definition split_stream (stream : json) : completion (string * string) :=
  match stream with
  | JStr s =>
      match Str.split "@"%char s with
      | [symbol; topic] => Ok (symbol, topic)
      | _ => Raise ValueError
      end
  | _ => Raise AttributeError
  end.

Definition received_message (now : Z) (msg : frame) : M unit :=
  let* msg := lift (loads msg) in
  let* results := lift (get msg "results" (JBool false)) in
  if truthy results then emit (Logged "results")
  else
    let* _ := keep_alive_tick now in
    let* stream := lift (getitem msg "stream") in
    let* symbol_topic := lift (split_stream stream) in
    let topic := snd symbol_topic in
    let* data := lift (getitem msg "data") in
    let topic :=
      if negb (Str.contains "kline" topic) then topic
      else Str.drop_last 3 topic in
    let* ev := lift (event_type_name topic) in
    let* _ :=
      (fun s =>
         match parsers s !! ev with
         | None => emit (Logged "Unknown event") s
         | Some func => call_parser ev func data s
         end) in
    _remove_dispatched_listeners ev data.

(** [subscribe] and [unsubscribe] hand their payload to
    [self.socket.send_json]; [_counter] is the value of [self._counter]. *)
Definition subscribe (_counter : Z) (market : string) : M unit :=
  let market := Str.lower market in
  let payload :=
    JDict [("method", JStr "SUBSCRIBE");
           ("params", JList [JStr (market ++ "@trade");
                             JStr (market ++ "@depth");
                             JStr (market ++ "@kline_1h");
                             JStr (market ++ "@ticker")]);
           ("id", JNum _counter)]%string in
  socket_write (SocketSendJson payload).

Definition unsubscribe (_counter : Z) (subscription_topic market : string)
  : M unit :=
  let payload :=
    JDict [("method", JStr "SUBSCRIBE");
           ("params", JList [JStr (market ++ "@" ++ subscription_topic)]);
           ("id", JNum _counter)]%string in
  socket_write (SocketSendJson payload).

End Binance.

(** ** [bitmex/gateway.py] *)

Module Bitmex.
Import Gateway.

Definition MESSAGE : Z := 0.
Definition SUBSCRIBE : Z := 1.
Definition UNSUBSCRIBE : Z := 2.

(** [obj[i]] with an integer index. *)
Definition index (obj : json) (i : nat) : completion json :=
  match obj with
  | JList items =>
      match items !! i with
      | Some v => Ok v
      | None => Raise IndexError
      end
  | JStr s =>
      match String.get i s with
      | Some c => Ok (JStr (String c EmptyString))
      | None => Raise IndexError
      end
  | JDict _ => Raise (KeyErrorIndex i)
  | _ => Raise TypeError
  end.

(** [op == k] for an integer constant [k]. *)
Definition eq_int (op : json) (k : Z) : bool :=
  match op with
  | JNum n => n =? k
  | JBool b => (if b then 1 else 0) =? k
  | _ => false
  end.

Definition is_str (key : string) (j : json) : bool :=
  match j with
  | JStr s => String.eqb s key
  | _ => false
  end.

(** [key in obj] for a string [key]. *)
Definition contains (key : string) (obj : json) : completion bool :=
  match obj with
  | JDict fields => Ok (match assoc key fields with Some _ => true | None => false end)
  | JList items => Ok (existsb (is_str key) items)
  | JStr s => Ok (Str.contains key s)
  | _ => Raise TypeError
  end.

Definition upper (j : json) : completion string :=
  match j with
  | JStr s => Ok (Str.upper s)
  | _ => Raise AttributeError
  end.

(** [while data: func(data.pop())] on a list object.  The object is held
    as a stack, last entry first, so that [pop] takes its head; the
    result carries the entries still in the object when the loop ends or
    the handler raises. *)
Fixpoint drain (ev : string) (func : json -> completion unit)
    (stack : list json) (s : WebSocket)
  : completion unit * list json * WebSocket :=
  match stack with
  | [] => (Ok tt, [], s)
  | entry :: rest =>
      match call_parser ev func entry s with
      | (Ok _, s') => drain ev func rest s'
      | (Raise e, s') => (Raise e, rest, s')
      end
  end.

(** The same loop on whatever [data] is bound to; returns the object as
    the loop leaves it. *)
Definition handle_entries (ev : string) (func : json -> completion unit)
    (data : json) (s : WebSocket) : completion json * WebSocket :=
  match data with
  | JList items =>
      let '(c, stack, s') := drain ev func (rev items) s in
      match c with
      | Ok _ => (Ok (JList (rev stack)), s')
      | Raise e => (Raise e, s')
      end
  | JDict (_ :: _) => (Raise TypeError, s)
  | _ => if truthy data then (Raise AttributeError, s) else (Ok data, s)
  end.

Definition received_message (now : Z) (msg : frame) : M unit :=
  let* msg := lift (loads msg) in
  let* op := lift (index msg 0) in
  let* payload := lift (index msg 3) in
  let* _ := keep_alive_tick now in
  if eq_int op UNSUBSCRIBE then emit (Logged "topic unsubscribed")
  else
    let* subscribed :=
      (if eq_int op MESSAGE then lift (contains "success" payload)
       else ret false) in
    if (subscribed : bool) then emit (Logged "topic subscribed")
    else
      let* table := lift (getitem payload "table") in
      let* action := lift (getitem payload "action") in
      let* data := lift (getitem payload "data") in
      let* table := lift (upper table) in
      let* action := lift (upper action) in
      let ev := (table ++ "_" ++ action)%string in
      let* data :=
        (fun s =>
           match parsers s !! ev with
           | None => (let* _ := emit (Logged "Unknown event") in ret data) s
           | Some func => handle_entries ev func data s
           end) in
      _remove_dispatched_listeners ev data.

Definition subscribe (market : string) : M unit :=
  let payload :=
    JList [JNum MESSAGE; JNull; JStr market;
           JDict [("op", JStr "subscribe");
                  ("args", JList [JStr (":" ++ Str.upper market)])]]%string in
  socket_write (SocketSendJson payload).

(** [unsubscribe]: with both a topic and a market the method fails on
    [market.UPPER] before it writes. *)
Definition unsubscribe (shard_id session_id : json)
    (subscription_topic market : option string) : M unit :=
  let given (o : option string) :=
    match o with
    | Some t => negb (String.eqb t "")
    | None => false
    end in
  let payload :=
    [JNum MESSAGE; shard_id; session_id]
      ++ match subscription_topic with
         | Some t =>
             if given subscription_topic
             then [JDict [("op", JStr "subscribe"); ("args", JStr t)]]%string
             else []
         | None => []
         end in
  if given subscription_topic && given market then raise AttributeError
  else socket_write (SocketSendJson (JList payload)).

End Bitmex.

(** ** [client.py]: the receive loop of [connect] *)

Module Client.
Import Gateway.


(** The [except] clauses around the loop in [connect]: a reconnect
    request, or one of [OSError], [HTTPException], [GatewayNotFound],
    [discord.ConnectionClosed], [aiohttp.ClientError] and
    [asyncio.TimeoutError]. *)
Definition connect_catches (e : exn) : bool :=
  match e with
  | ReconnectWebSocket | OSError | TimeoutError => true
  | _ => false
  end.

End Client.

(** ** More of [base_gateway.py] and [bitmex/gateway.py]: [open],
    [is_ratelimited], [connect], the Bitmex constructor *)

Module Setup.
Import Gateway.

(** The property [open]. *)
Definition open (s : WebSocket) : bool := negb (closed (socket s)).

(** [_BaseWebSocket.is_ratelimited], at clock reading [now]. *)
Definition is_ratelimited (now : Z) (s : WebSocket) : completion bool :=
  match rate_limiter s with
  | None => Raise AttributeError
  | Some rl => Ok (RateLimiter.is_ratelimited rl now)
  end.

(** The last four statements of both [connect] methods: receive one
    message, dispatch it raw, decode it and log it.  The frame of a
    message stands for what [orjson.loads] makes of [msg.data]; the
    exception carried by an [ERROR] message is no JSON text. *)
Definition receive_first (ev : received) : M unit :=
  match ev with
  | ReceiveTimeout => raise TimeoutError
  | Message _ data =>
      let* _ := emit (Dispatched "socket_raw_receive") in
      let* _ := lift (loads data) in
      emit (Logged "debug")
  | ErrorMessage _ =>
      let* _ := emit (Dispatched "socket_raw_receive") in
      raise JSONDecodeError
  end.

(** The Bitmex [WebSocket.__init__(socket, loop=loop)]: the limiter it
    creates is stored as [_rate_limiter], an attribute nothing reads, so
    [rate_limiter] keeps the [None] of the base constructor. *)
Definition bitmex_init (sock : Socket) (loop_futures : gmap nat future_state)
    (loop_next : nat) : WebSocket :=
  init sock loop_futures loop_next.

(** The Bitmex [connect]; [shard_id] and [session_id] are the values of
    the attributes of those names. *)
Definition bitmex_connect (to_json : json -> string) (shard_id session_id : json)
    (now : Z) (ev : received) : M unit :=
  let* _ := Bitmex.subscribe "xbtusdt" in
  let* _ := send_as_json to_json
              (JList [JNum Bitmex.SUBSCRIBE; shard_id; session_id]) now in
  receive_first ev.

(** [from_client] for a gateway class that sets [self.log]: the class is
    given by its constructor and its [connect].  The socket is the one
    [client.http.ws_connect] returned; [client_parsers] and
    [heartbeat_timeout] are [client.connection.parsers] and
    [client.connection.heartbeat_timeout].  Returns the gateway when
    [connect] does. *)
Definition from_client
    (construct : Socket -> gmap nat future_state -> nat -> WebSocket)
    (connect : M unit) (sock : Socket)
    (client_parsers : gmap string (json -> completion unit))
    (heartbeat_timeout : option Z)
    (loop_futures : gmap nat future_state) (loop_next : nat)
  : completion unit * WebSocket :=
  let ws := construct sock loop_futures loop_next in
  let ws :=
    {| socket := socket ws; _keep_alive := _keep_alive ws;
       parsers := client_parsers;
       _dispatch_listeners := _dispatch_listeners ws;
       max_heartbeat_timeout := heartbeat_timeout;
       _close_code := _close_code ws; rate_limiter := rate_limiter ws;
       threads := threads ws; futures := futures ws;
       next_future := next_future ws; trace := trace ws |} in
  (let* _ := emit (Logged "Created websocket") in connect) ws.

(** [send], once for each message, at the given clock readings. *)
Fixpoint send_each (msgs : list (string * Z)) : M unit :=
  match msgs with
  | [] => ret tt
  | (data, now) :: rest =>
      let* _ := send data now in
      send_each rest
  end.

(** The socket writes of a trace, in order. *)
Definition writes (t : list effect) : list effect := List.filter is_write t.

End Setup.

(** ** [client.py]: [dispatch], [wait_for], [close], [is_ws_ratelimited] *)

Module ClientEvents.

(** A check takes the arguments of the event. *)
Definition condition : Type := list json -> completion bool.

(** The attributes of [_BaseClient] that [dispatch] and [wait_for] use:
    the listeners by event name, each a list of pairs of a future (by
    address) and a check; the names of the client's attributes (among
    them the event coroutines [on_...]); the futures of the loop; and
    the tasks created by [_schedule_event], in order. *)
Record Client : Type := {
  _listeners : gmap string (list (nat * condition));
  attributes : gset string;
  futures : gmap nat Gateway.future_state;
  next_future : nat;
  scheduled : list (string * list json)
}.

Definition with_listeners (x : gmap string (list (nat * condition))) (c : Client) :=
  {| _listeners := x; attributes := attributes c; futures := futures c;
     next_future := next_future c; scheduled := scheduled c |}.

Definition with_futures (x : gmap nat Gateway.future_state) (c : Client) :=
  {| _listeners := _listeners c; attributes := attributes c; futures := x;
     next_future := next_future c; scheduled := scheduled c |}.

(** What a future is given: [None] without arguments, the argument when
    there is one, else the tuple of the arguments (kept as a list). *)
Definition pack (args : list json) : json :=
  match args with
  | [] => JNull
  | [a] => a
  | _ => JList args
  end.

(** The body of the loop over the listeners of the event.  The [except]
    clause catches an [Exception]; anything else leaves [dispatch]. *)
Definition visit (args : list json) (entry : nat * condition)
    (futs : gmap nat Gateway.future_state)
  : completion bool * gmap nat Gateway.future_state :=
  if Gateway.cancelled futs entry.1 then (Ok true, futs)
  else
    match entry.2 args with
    | Raise exc =>
        if is_exception exc then
          match Gateway.set_exception entry.1 exc futs with
          | (Ok _, futs') => (Ok true, futs')
          | (Raise e, futs') => (Raise e, futs')
          end
        else (Raise exc, futs)
    | Ok result =>
        if result then
          match Gateway.set_result entry.1 (pack args) futs with
          | (Ok _, futs') => (Ok true, futs')
          | (Raise e, futs') => (Raise e, futs')
          end
        else (Ok false, futs)
    end.

Fixpoint scan (args : list json) (i : nat) (listeners : list (nat * condition))
    (futs : gmap nat Gateway.future_state) (removed : list nat)
  : completion (list nat) * gmap nat Gateway.future_state :=
  match listeners with
  | [] => (Ok removed, futs)
  | entry :: rest =>
      match visit args entry futs with
      | (Ok b, futs') =>
          scan args (S i) rest futs' (if b then removed ++ [i] else removed)
      | (Raise e, futs') => (Raise e, futs')
      end
  end.

(** [del listeners[idx]]. *)
Definition del_index (idx : nat) (l : list (nat * condition))
  : completion (list (nat * condition)) :=
  if bool_decide (idx < length l)%nat then Ok (delete idx l)
  else Raise IndexError.

Fixpoint del_each (indices : list nat) (l : list (nat * condition))
  : completion unit * list (nat * condition) :=
  match indices with
  | [] => (Ok tt, l)
  | idx :: rest =>
      match del_index idx l with
      | Ok l' => del_each rest l'
      | Raise e => (Raise e, l)
      end
  end.

(** The first half of [dispatch]: the listeners of the event. *)
Definition dispatch_listeners (event : string) (args : list json) (c : Client)
  : completion unit * Client :=
  match _listeners c !! event with
  | Some (entry :: rest) =>
      let listeners := entry :: rest in
      match scan args 0 listeners (futures c) [] with
      | (Raise e, futs) => (Raise e, with_futures futs c)
      | (Ok removed, futs) =>
          let c := with_futures futs c in
          if (length removed =? length listeners)%nat
          then (Ok tt, with_listeners (delete event (_listeners c)) c)
          else
            let '(r, l) := del_each (rev removed) listeners in
            (r, with_listeners (<[event := l]> (_listeners c)) c)
      end
  | _ => (Ok tt, c)
  end.

(** [dispatch(event, *args)], called without keyword arguments: the
    listeners, then the event coroutine [on_<event>] if the client has an
    attribute of that name. *)
Definition dispatch (event : string) (args : list json) (c : Client)
  : completion unit * Client :=
  match dispatch_listeners event args c with
  | (Raise e, c') => (Raise e, c')
  | (Ok _, c') =>
      if bool_decide (("on_" ++ event)%string ∈ attributes c')
      then (Ok tt,
            {| _listeners := _listeners c'; attributes := attributes c';
               futures := futures c'; next_future := next_future c';
               scheduled := scheduled c' ++ [(("on_" ++ event)%string, args)] |})
      else (Ok tt, c')
  end.

(** The default check of [wait_for]. *)
Definition _check : condition := fun _ => Ok true.

(** [wait_for(event, check=check)] up to the registration: the future it
    creates is returned wrapped in [asyncio.wait_for(future, timeout)],
    which cancels it when the timeout passes. *)
Definition wait_for (event : string) (check : option condition) (c : Client)
  : nat * Client :=
  let future := next_future c in
  let check := match check with None => _check | Some f => f end in
  let ev := Str.lower event in
  let listeners := match _listeners c !! ev with Some l => l | None => [] end in
  (future,
   {| _listeners := <[ev := listeners ++ [(future, check)]]> (_listeners c);
      attributes := attributes c;
      futures := <[future := Gateway.Pending]> (futures c);
      next_future := S future;
      scheduled := scheduled c |}).

(** The holder of a future cancels it (as the timeout of [wait_for] does). *)
Definition cancel (f : nat) (c : Client) : Client :=
  match futures c !! f with
  | Some Gateway.Pending => with_futures (<[f := Gateway.Cancelled]> (futures c)) c
  | _ => c
  end.

(** A client fresh from [__init__], with the attributes its class gives it. *)
Definition init (attrs : gset string) : Client :=
  {| _listeners := ∅; attributes := attrs; futures := ∅;
     next_future := 0; scheduled := [] |}.

Inductive op : Type :=
| OpWaitFor (event : string) (check : option condition)
| OpDispatch (event : string) (args : list json)
| OpCancel (f : nat).

Definition apply_op (c : Client) (o : op) : Client :=
  match o with
  | OpWaitFor event check => (wait_for event check c).2
  | OpDispatch event args => (dispatch event args c).2
  | OpCancel f => cancel f c
  end.

Definition apply_ops (c : Client) (ops : list op) : Client :=
  fold_left apply_op ops c.

(** The listeners that the loop does not record, in order. *)
Fixpoint sweep (args : list json) (listeners : list (nat * condition))
    (futs : gmap nat Gateway.future_state)
  : completion (list (nat * condition)) * gmap nat Gateway.future_state :=
  match listeners with
  | [] => (Ok [], futs)
  | entry :: rest =>
      match visit args entry futs with
      | (Raise e, futs') => (Raise e, futs')
      | (Ok b, futs') =>
          match sweep args rest futs' with
          | (Ok kept, futs'') => (Ok (if b then kept else entry :: kept), futs'')
          | (Raise e, futs'') => (Raise e, futs'')
          end
      end
  end.

(** A future that a dispatch can still complete or prune: it is pending
    or cancelled. *)
Definition waiting (st : option Gateway.future_state) : Prop :=
  st = Some Gateway.Pending \/ st = Some Gateway.Cancelled.

(** A check that raises nothing but exceptions that [dispatch] catches
    and a future accepts: instances of [Exception] other than
    [StopIteration]. *)
Definition tame (k : condition) : Prop :=
  forall args e, k args = Raise e -> is_exception e = true /\ e <> StopIteration.

(** The operation registers no check that is not tame. *)
Definition tame_op (o : op) : Prop :=
  match o with
  | OpWaitFor _ (Some k) => tame k
  | _ => True
  end.

(** Invariant of the listeners: no event name maps to an empty list,
    every name is in lower case, every registered future was created by
    the loop and is pending or cancelled, no future is registered twice,
    under one name or under two, and every registered check is tame. *)
Definition client_ok (c : Client) : Prop :=
  (forall ev l, _listeners c !! ev = Some l ->
     l <> [] /\ Str.lower ev = ev /\ NoDup l.*1
     /\ (forall k, k ∈ l.*2 -> tame k))
  /\ (forall ev l f, _listeners c !! ev = Some l -> f ∈ l.*1 ->
        (f < next_future c)%nat
        /\ (futures c !! f = Some Gateway.Pending
            \/ futures c !! f = Some Gateway.Cancelled))
  /\ (forall ev ev' l l' f, ev <> ev' ->
        _listeners c !! ev = Some l -> _listeners c !! ev' = Some l' ->
        f ∈ l.*1 -> f ∉ l'.*1).

(** What holds of the listeners whether or not a dispatch has raised:
    every name is in lower case and every registered future was created
    by the loop. *)
Definition registered_ok (c : Client) : Prop :=
  forall ev l, _listeners c !! ev = Some l ->
    Str.lower ev = ev /\ forall f, f ∈ l.*1 -> (f < next_future c)%nat.

End ClientEvents.

Module ClientLifecycle.
Import Gateway.

(** The attributes of [_BaseClient] that [close], [is_closed] and
    [is_ws_ratelimited] use: the gateway, whether an HTTP client exists
    and whether its session was closed, and the two flags. *)
Record Client : Type := {
  ws : option WebSocket;
  http : option bool;
  _closed : bool;
  _ready : bool
}.

Definition is_closed (c : Client) : bool := _closed c.

Definition is_ws_ratelimited (now : Z) (c : Client) : completion bool :=
  match ws c with
  | Some w => Setup.is_ratelimited now w
  | None => Ok false
  end.

Definition close (c : Client) : completion unit * Client :=
  if _closed c then (Ok tt, c)
  else
    match http c with
    | None => (Raise AttributeError, c)
    | Some _ =>
        let c := {| ws := ws c; http := Some true; _closed := true;
                    _ready := _ready c |} in
        match ws c with
        | Some w =>
            if Setup.open w then
              match Gateway.close 1000 w with
              | (Ok _, w') =>
                  (Ok tt, {| ws := Some w'; http := http c; _closed := _closed c;
                             _ready := false |})
              | (Raise e, w') =>
                  (Raise e, {| ws := Some w'; http := http c; _closed := _closed c;
                               _ready := _ready c |})
              end
            else
              (Ok tt, {| ws := ws c; http := http c; _closed := _closed c;
                         _ready := false |})
        | None =>
            (Ok tt, {| ws := ws c; http := http c; _closed := _closed c;
                       _ready := false |})
        end
    end.

End ClientLifecycle.

(** ** Example states *)

Module Examples.
Import Gateway.

Definition open_socket : Socket :=
  {| closed := false; close_code := None;
     close_error := None; close_reply := Some 1000 |}.

(** A Binance gateway with the limiter of [GatewayRatelimiter(5, 1)] and
    the parsers of the connection state, and no keep-alive handler. *)
Definition binance_ws : WebSocket :=
  {| socket := open_socket; _keep_alive := None; parsers := State.parsers;
     _dispatch_listeners := [];
     max_heartbeat_timeout := Some 6;
     _close_code := None;
     rate_limiter := Some (RateLimiter.init 5 1);
     threads := ∅; futures := ∅; next_future := 0; trace := [] |}.


(** A Bitmex gateway: its constructor stores the limiter under another
    name, so [rate_limiter] stays [None], and it creates no keep-alive
    handler. *)
Definition bitmex_ws : WebSocket :=
  {| socket := open_socket; _keep_alive := None; parsers := State.parsers;
     _dispatch_listeners := [];
     max_heartbeat_timeout := Some 6;
     _close_code := None;
     rate_limiter := None;
     threads := ∅; futures := ∅; next_future := 0; trace := [] |}.

Definition kline_entries : list json :=
  [JDict [("E", JNum 1)]; JDict [("E", JNum 2)]; JDict [("E", JNum 3)]]%string.

Definition kline_frame : frame :=
  Encodes (JList [JNum 0; JNull; JStr "xbtusd";
                  JDict [("table", JStr "kline"); ("action", JStr "update");
                         ("data", JList kline_entries)]])%string.

End Examples.

(* ================================================================== *)
(** * Properties *)

Section RateLimiterFacts.
Import RateLimiter.

Ltac crush_delay :=
  unfold get_delay, takes_token, resets in *;
  unfold refill, set_window, set_remaining in *;
  simpl in *;
  repeat (match goal with
          | |- context [Z.eqb ?a ?b] => destruct (Z.eqb_spec a b)
          | |- context [Z.ltb ?a ?b] => destruct (Z.ltb_spec a b)
          | H : context [Z.eqb ?a ?b] |- _ => destruct (Z.eqb_spec a b)
          | H : context [Z.ltb ?a ?b] |- _ => destruct (Z.ltb_spec a b)
          end; simpl in *);
  try lia.

Lemma get_delay_max s t : max (snd (get_delay s t)) = max s.
Proof. crush_delay; reflexivity. Qed.

Lemma get_delay_per s t : per (snd (get_delay s t)) = per s.
Proof. crush_delay; reflexivity. Qed.

Lemma get_delay_bucket_ok s t :
  bucket_ok s -> bucket_ok (snd (get_delay s t)).
Proof. unfold bucket_ok. intros H. crush_delay. Qed.

Lemma block_get_delay s t : snd (block s t) = snd (get_delay s t).
Proof. unfold block. destruct (get_delay s t). reflexivity. Qed.

Lemma step_bucket_ok s o : bucket_ok s -> bucket_ok (step s o).
Proof.
  intros H. destruct o; simpl; [assumption | |].
  - now apply get_delay_bucket_ok.
  - rewrite block_get_delay. now apply get_delay_bucket_ok.
Qed.

Lemma run_bucket_ok ops : forall s, bucket_ok s -> bucket_ok (run s ops).
Proof.
  induction ops as [|o ops IH]; intros s H; simpl; [assumption|].
  apply IH. now apply step_bucket_ok.
Qed.

(** A call that neither refills the bucket nor finds it empty takes one
    token; the window start moves to the call when the bucket was full or
    becomes empty. *)
Lemma get_delay_take s t :
  t <= window s + per s -> remaining s <> 0 ->
  get_delay s t =
    (0, {| max := max s; remaining := remaining s - 1;
           window := if (remaining s =? max s) || (remaining s =? 1)
                     then t else window s;
           per := per s |}).
Proof. intros Ht Hr. destruct s as [m r w p]. crush_delay; reflexivity. Qed.

(** A call that finds the bucket empty inside its window is told to wait
    for the rest of the window and leaves the limiter as it is. *)
Lemma get_delay_exhausted s t :
  t <= window s + per s -> remaining s = 0 -> max s <> 0 ->
  get_delay s t = (window s + per s - t, s).
Proof.
  intros Ht Hr Hm. destruct s as [m r w p]. simpl in *. subst r.
  crush_delay; f_equal; lia.
Qed.

(** Without a refill the calls that take a token are bounded by the
    tokens left. *)
Lemma tokens_taken_le_remaining ts : forall s,
  bucket_ok s -> same_window s ts = true ->
  (Z.of_nat (tokens_taken s ts) <= remaining s)%Z.
Proof.
  induction ts as [|t ts IH]; intros s Hok Hw; simpl in *.
  - unfold bucket_ok in Hok. lia.
  - apply andb_true_iff in Hw as [Hr Hw].
    specialize (IH _ (get_delay_bucket_ok s t Hok) Hw).
    revert IH. generalize (tokens_taken (snd (get_delay s t)) ts). intros n.
    unfold bucket_ok in Hok. clear Hw. crush_delay.
Qed.

(** Within one window (the first call may start it, no later call does)
    at most [max] calls take a token. *)
Lemma tokens_taken_in_window s t ts :
  bucket_ok s -> same_window (snd (get_delay s t)) ts = true ->
  (Z.of_nat (tokens_taken s (t :: ts)) <= max s)%Z.
Proof.
  intros Hok Hw. simpl.
  pose proof (tokens_taken_le_remaining ts _ (get_delay_bucket_ok s t Hok) Hw) as H.
  revert H. generalize (tokens_taken (snd (get_delay s t)) ts). intros n.
  unfold bucket_ok in Hok. clear Hw. crush_delay.
Qed.

(** As long as every call is made strictly before the end of the current
    window (of positive length), a zero delay is only returned together
    with a token. *)
Lemma zero_delays_strictly_inside ts : forall s,
  bucket_ok s -> 0 < per s -> strictly_inside s ts = true ->
  (Z.of_nat (zero_delays s ts) <= remaining s)%Z.
Proof.
  induction ts as [|t ts IH]; intros s Hok Hp Hw; simpl in *.
  - unfold bucket_ok in Hok. lia.
  - apply andb_true_iff in Hw as [Hr Hw].
    pose proof (get_delay_per s t) as Hp'.
    specialize (IH _ (get_delay_bucket_ok s t Hok) ltac:(lia) Hw). clear Hp'.
    revert IH. generalize (zero_delays (snd (get_delay s t)) ts). intros n.
    unfold bucket_ok in Hok. clear Hw. crush_delay.
Qed.

(** Scenario of the specification: capacity 3 and four calls in quick
    succession (all within less than one window length of the first).
    The first three are admitted at once; the fourth is told to wait
    until one window length after the third call, where the bucket ran
    empty and the window start was moved. *)
Lemma four_rapid_calls p t1 t2 t3 t4 :
  t1 <= t2 -> t2 <= t3 -> t3 <= t4 -> t4 < t1 + p ->
  delays (init 3 p) [t1; t2; t3; t4] = [0; 0; 0; t3 + p - t4]
  /\ 0 < t3 + p - t4.
Proof.
  intros H12 H23 H34 H41. split; [|lia].
  unfold delays.
  assert (E1 : get_delay (init 3 p) t1
               = (0, {| max := 3; remaining := 2; window := t1; per := p |})).
  { unfold init. crush_delay; reflexivity. }
  rewrite E1. simpl.
  rewrite get_delay_take by (simpl; lia). simpl.
  rewrite get_delay_take by (simpl; lia). simpl.
  rewrite get_delay_exhausted by (simpl; lia). simpl.
  reflexivity.
Qed.

(** C2, at its failing input: a limiter of capacity 1 and window length 1
    is called at times 5 and 6 (and again at 6).  The second call falls
    on the last instant of the window opened by the first: no refill
    happens, [is_ratelimited] reports the limiter as rate limited, and
    yet [get_delay] returns a zero delay, so that [block] does not sleep.
    Every further call at that instant is let through as well. *)
Theorem exhausted_bucket_zero_delay_at_window_end :
  let s0 := init 1 1 in
  let s1 := snd (get_delay s0 5) in
  fst (get_delay s0 5) = 0
  /\ remaining s1 = 0
  /\ same_window s1 [6; 6; 6] = true
  /\ is_ratelimited s1 6 = true
  /\ get_delay s1 6 = (0, s1)
  /\ fst (block s1 6) = [LockAcquire; LockRelease]
  /\ zero_delays s0 [5; 6; 6; 6] = 4%nat
  /\ max s0 = 1.
Proof. vm_compute. repeat split; reflexivity. Qed.

(** C3: a [get_delay] call made after the window has run out
    ([window + per < now]) first refills the bucket to [max] and moves
    the window start to [now], whatever was left in the bucket; the
    call then proceeds exactly as on that fresh bucket, so it ends with
    the window starting at [now] and, for a positive capacity, is
    admitted with one token taken. *)
Theorem get_delay_refills_after_window (s : GatewayRatelimiter) (now : Z) :
  window s + per s < now ->
  remaining (refill s now) = max s
  /\ window (refill s now) = now
  /\ get_delay s now
     = get_delay (set_window now (set_remaining (max s) s)) now
  /\ window (snd (get_delay s now)) = now
  /\ (0 < max s ->
      get_delay s now
      = (0, set_window now (set_remaining (max s - 1) s))).
Proof.
  intros H. destruct s as [m r w p]. simpl in *.
  repeat split; intros; crush_delay; reflexivity.
Qed.

Lemma get_delay_refills_after_window_witness :
  let s := {| max := 3; remaining := 0; window := 10; per := 1 |} in
  remaining (refill s 12) = 3
  /\ window (refill s 12) = 12
  /\ get_delay s 12 = (0, {| max := 3; remaining := 2; window := 12; per := 1 |}).
Proof.
  pose proof (get_delay_refills_after_window
                {| max := 3; remaining := 0; window := 10; per := 1 |} 12
                ltac:(simpl; lia)) as (H1 & H2 & _ & _ & H5).
  split; [exact H1|]. split; [exact H2|]. apply H5. simpl. lia.
Defined.

(** C9: starting from a limiter built with a non-negative capacity
    ([remaining = max = count]), after every operation of any sequence
    of [is_ratelimited], [get_delay] and [block] calls, at any clock
    readings, [0 <= remaining <= max]. *)
Theorem remaining_never_negative (count p : Z) (ops : list op) (k : nat) :
  0 <= count ->
  bucket_ok (run (init count p) (take k ops)).
Proof.
  intros H. apply run_bucket_ok. unfold bucket_ok, init. simpl. lia.
Qed.

Lemma remaining_never_negative_witness :
  bucket_ok (run (init 2 10)
               (take 4 [OpGetDelay 1; OpBlock 2; OpIsRatelimited 3;
                        OpGetDelay 4; OpBlock 50])).
Proof. apply remaining_never_negative. lia. Defined.

End RateLimiterFacts.

Section CloseClassification.
Import Gateway.

(** C6, as stated, fails in its reading of the terminal set.  The set
    contains 1000, the code of a clean close ([client.py] calls it so
    where it handles [ConnectionClosed]), which is none of policy
    violation, rejected authentication and version mismatch: a gateway
    that has not closed on its own side and whose peer closed cleanly is
    classified "cannot reconnect", and the close message makes
    [poll_event] raise [ConnectionClosed] with code 1000. *)
Lemma clean_close_is_terminal :
  let s := init {| closed := true; close_code := Some 1000;
                   close_error := None; close_reply := None |} ∅ 0 in
  _close_code s = None
  /\ _can_handle_close s = false
  /\ (poll_event (fun _ => ret tt) (Message CLOSED (Malformed "x")) s).1
     = Raise (ConnectionClosed (Some 1000)).
Proof. vm_compute. repeat split. Qed.

(** C6, amended: the classification by the seven codes, and the code it
    is applied to.  When the gateway has a close code of its own
    ([self._close_code], set by [close]) that is not 0, [_can_handle_close]
    answers "cannot reconnect" exactly when that code is one of 1000,
    4004, 4010, 4011, 4012, 4013, 4014, and "can reconnect" for every
    other code, whatever the close code of the socket.  When it has none
    (or 0), the close code of the socket is classified in the same way,
    and without that one either the answer is "can reconnect". *)
Theorem can_handle_close_terminal_codes (s : WebSocket) :
  (forall c, _close_code s = Some c -> c <> 0 ->
     (_can_handle_close s = false <->
        c = 1000 \/ c = 4004 \/ c = 4010 \/ c = 4011
        \/ c = 4012 \/ c = 4013 \/ c = 4014)
     /\ (_can_handle_close s = true <->
          c <> 1000 /\ c <> 4004 /\ c <> 4010 /\ c <> 4011
          /\ c <> 4012 /\ c <> 4013 /\ c <> 4014))
  /\ (_close_code s = None \/ _close_code s = Some 0 ->
      (forall c, close_code (socket s) = Some c ->
         (_can_handle_close s = false <->
            c = 1000 \/ c = 4004 \/ c = 4010 \/ c = 4011
            \/ c = 4012 \/ c = 4013 \/ c = 4014)
         /\ (_can_handle_close s = true <->
              c <> 1000 /\ c <> 4004 /\ c <> 4010 /\ c <> 4011
              /\ c <> 4012 /\ c <> 4013 /\ c <> 4014))
      /\ (close_code (socket s) = None -> _can_handle_close s = true)).
Proof.
  assert (Hterm : forall c, c ∈ terminal_codes <->
            (c = 1000 \/ c = 4004 \/ c = 4010 \/ c = 4011
             \/ c = 4012 \/ c = 4013 \/ c = 4014)).
  { intros c. unfold terminal_codes.
    repeat rewrite elem_of_cons. rewrite elem_of_nil. tauto. }
  assert (Hclass : forall c,
            (negb (bool_decide (c ∈ terminal_codes)) = false <->
               c = 1000 \/ c = 4004 \/ c = 4010 \/ c = 4011
               \/ c = 4012 \/ c = 4013 \/ c = 4014)
            /\ (negb (bool_decide (c ∈ terminal_codes)) = true <->
                 c <> 1000 /\ c <> 4004 /\ c <> 4010 /\ c <> 4011
                 /\ c <> 4012 /\ c <> 4013 /\ c <> 4014)).
  { intros c. split.
    - rewrite negb_false_iff, bool_decide_eq_true. apply Hterm.
    - rewrite negb_true_iff, bool_decide_eq_false, Hterm. lia. }
  unfold _can_handle_close. split.
  - intros c Hs Hc. rewrite Hs. simpl.
    destruct (Z.eqb_spec c 0) as [|_]; [contradiction|]. apply Hclass.
  - intros Hown.
    assert (Hcode : py_or (_close_code s) (close_code (socket s))
                    = close_code (socket s)).
    { destruct Hown as [-> | ->]; reflexivity. }
    rewrite Hcode. split.
    + intros c ->. apply Hclass.
    + intros ->. reflexivity.
Qed.

Lemma can_handle_close_terminal_codes_witness :
  _can_handle_close
    (with_close_code (Some 4004)
       (init {| closed := true; close_code := Some 1006;
                close_error := None; close_reply := None |} ∅ 0)) = false
  /\ _can_handle_close
       (with_close_code (Some 4000)
          (init {| closed := true; close_code := Some 1000;
                   close_error := None; close_reply := None |} ∅ 0)) = true
  /\ _can_handle_close
       (init {| closed := true; close_code := Some 4014;
                close_error := None; close_reply := None |} ∅ 0) = false.
Proof.
  split; [|split].
  - set (s := with_close_code _ _).
    apply (proj2 (proj1 (proj1 (can_handle_close_terminal_codes s) 4004
                           eq_refl ltac:(lia)))).
    lia.
  - set (s := with_close_code _ _).
    apply (proj2 (proj2 (proj1 (can_handle_close_terminal_codes s) 4000
                           eq_refl ltac:(lia)))).
    lia.
  - set (s := init _ _ _).
    apply (proj2 (proj1 (proj1 (proj2 (can_handle_close_terminal_codes s)
                                  (or_introl eq_refl)) 4014 eq_refl))).
    lia.
Defined.

End CloseClassification.

Section KeepAliveFacts.
Import Gateway.

(** What [close] leaves behind, whether or not the transport fails. *)
Lemma close_effects code s :
  exists c s',
    close code s = (c, s')
    /\ _close_code s' = Some code
    /\ _keep_alive s' = None
    /\ trace s' = trace s ++ [SocketClose code]
    /\ threads s' = match _keep_alive s with
                    | Some b => alter KeepAlive.stop b (threads s)
                    | None => threads s
                    end
    /\ (close_error (socket s) = None -> closed (socket s') = true).
Proof.
  unfold close, socket_close, stop_keep_alive, bind, modify, emit. simpl.
  destruct (_keep_alive s) as [b|] eqn:Hk; simpl;
    destruct (close_error (socket s)) as [err|]; simpl;
    destruct (closed (socket s)) eqn:Hc; simpl;
    do 2 eexists; (split; [reflexivity|]); simpl;
    repeat split; try reflexivity; try discriminate; try assumption;
    intros _; exact Hc.
Qed.

Lemma alter_stop_stopped (m : gmap nat KeepAlive.KeepAliveHandler) a self :
  m !! a = Some self ->
  exists self', alter KeepAlive.stop a m !! a = Some self'
                /\ KeepAlive._stop_ev self' = true.
Proof.
  intros H. exists (KeepAlive.stop self). split; [|reflexivity].
  rewrite lookup_alter_eq, H. reflexivity.
Qed.

(** C4: an iteration of the keep-alive loop that finds the last receipt
    older than the heartbeat timeout ends [run] there and then (the
    later ticks are never looked at).  By then the gateway has been
    closed with code 4000 ([close(4000)] has recorded the code and asked
    the transport to close with it; the socket is closed unless the
    transport itself failed), [_can_handle_close] classifies the closure
    as one to reconnect after, the gateway has dropped its keep-alive
    handler and the handler's stop event is set. *)
Theorem stale_tick_closes_resumable
    (s : WebSocket) (a : nat) (self : KeepAlive.KeepAliveHandler)
    (now : Z) (later : list Z) :
  threads s !! a = Some self ->
  KeepAlive._stop_ev self = false ->
  KeepAlive._last_recv self + KeepAlive.heartbeat_timeout self < now ->
  exists s',
    run a (now :: later) s = (Ok tt, s')
    /\ _close_code s' = Some 4000
    /\ _can_handle_close s' = true
    /\ SocketClose 4000 ∈ trace s'
    /\ (close_error (socket s) = None -> closed (socket s') = true)
    /\ _keep_alive s' = None
    /\ (exists self', threads s' !! a = Some self'
                     /\ KeepAlive._stop_ev self' = true).
Proof.
  intros Ha Hstop Hstale.
  assert (Hs : KeepAlive.stale now self = true).
  { unfold KeepAlive.stale. apply Z.ltb_lt. exact Hstale. }
  simpl run. unfold bind, run_iteration. rewrite Ha, Hstop, Hs.
  set (s0 := with_trace _ s).
  destruct (close_effects 4000 s0) as (c & s1 & Hclose & Hcode & Hka & Htr & Hth & Hsock).
  rewrite Hclose.
  assert (Hth1 : exists self1, threads s1 !! a = Some self1).
  { rewrite Hth. subst s0. simpl. destruct (_keep_alive s) as [b|]; [|eauto].
    destruct (decide (b = a)) as [->|Hne].
    - rewrite lookup_alter_eq, Ha. simpl. eauto.
    - rewrite lookup_alter_ne by congruence. eauto. }
  destruct Hth1 as [self1 Hself1].
  destruct c as [[]|e]; eexists; (split; [reflexivity|]); simpl.
  - repeat split; try assumption.
    + unfold _can_handle_close. simpl. rewrite Hcode. reflexivity.
    + rewrite Htr. apply elem_of_app. right. apply list_elem_of_singleton. reflexivity.
    + eapply alter_stop_stopped. exact Hself1.
  - repeat split; try assumption.
    + unfold _can_handle_close. simpl. rewrite Hcode. reflexivity.
    + rewrite Htr. rewrite !elem_of_app, !list_elem_of_singleton. tauto.
    + eapply alter_stop_stopped. exact Hself1.
Qed.

Lemma stale_tick_closes_resumable_witness :
  let self := {| KeepAlive.interval := Some 5; KeepAlive._stop_ev := false;
                 KeepAlive._last_ack := 0; KeepAlive._last_send := 0;
                 KeepAlive._last_recv := 10; KeepAlive.latency := None;
                 KeepAlive.heartbeat_timeout := 6 |} in
  let s := with_keep_alive (Some 0%nat)
             (with_threads {[ 0%nat := self ]}
                (init {| closed := false; close_code := None;
                         close_error := None; close_reply := Some 4000 |} ∅ 0)) in
  exists s', run 0 [17; 22] s = (Ok tt, s') /\ _can_handle_close s' = true.
Proof.
  intros self s.
  destruct (stale_tick_closes_resumable s 0 self 17 [22])
    as (s' & Hrun & _ & Hcan & _); [reflexivity | reflexivity | simpl; lia |].
  exists s'. split; assumption.
Defined.

End KeepAliveFacts.

Section SendPaths.
Import Gateway.

(** [send] passes through the limiter's critical section and only then
    writes. *)
Lemma send_is_gated data now rl s :
  rate_limiter s = Some rl -> closed (socket s) = false ->
  exists s',
    send data now s = (Ok tt, s')
    /\ trace s' = trace s ++ fst (RateLimiter.block rl now)
                    ++ [Dispatched "socket_raw_send"; SocketSendStr data]
    /\ rate_limiter s' = Some (snd (RateLimiter.get_delay rl now))
    /\ writes_gated false
         (fst (RateLimiter.block rl now)
            ++ [Dispatched "socket_raw_send"; SocketSendStr data]) = true.
Proof.
  intros Hrl Hopen.
  unfold send, bind, rate_limiter_block, socket_write, emit, modify.
  rewrite Hrl. unfold RateLimiter.block.
  destruct (RateLimiter.get_delay rl now) as [delta rl'] eqn:Hd. simpl.
  rewrite Hopen. eexists. split; [reflexivity|]. simpl.
  destruct (delta =? 0); simpl; rewrite <- !app_assoc; repeat split.
Qed.

(** C8, at its failing input: on a Binance gateway with an open socket
    and a fresh limiter, [subscribe] and [unsubscribe] write their
    command to the socket at once.  The limiter is not consulted (its
    state is unchanged and no critical section is entered), whereas
    [send] on the same gateway goes through it.  The Bitmex [subscribe]
    writes directly in the same way. *)
Theorem subscribe_bypasses_rate_limiter :
  let s := Examples.binance_ws in
  let payload :=
    JDict [("method", JStr "SUBSCRIBE");
           ("params", JList [JStr "bnbbtc@trade"; JStr "bnbbtc@depth";
                             JStr "bnbbtc@kline_1h"; JStr "bnbbtc@ticker"]);
           ("id", JNum 0)]%string in
  Binance.subscribe 0 "BNBBTC" s
    = (Ok tt, with_trace [SocketSendJson payload] s)
  /\ writes_gated false (trace (snd (Binance.subscribe 0 "BNBBTC" s))) = false
  /\ rate_limiter (snd (Binance.subscribe 0 "BNBBTC" s)) = rate_limiter s
  /\ writes_gated false (trace (snd (Binance.unsubscribe 0 "ticker" "bnbbtc" s))) = false
  /\ writes_gated false (trace (snd (Bitmex.subscribe "xbtusdt" s))) = false
  /\ trace (snd (send "ping" 100 s))
     = [LockAcquire; LockRelease; Dispatched "socket_raw_send"; SocketSendStr "ping"]
  /\ writes_gated false (trace (snd (send "ping" 100 s))) = true.
Proof. vm_compute. repeat split; reflexivity. Qed.

(** The same for every gateway with an open socket: the commands of
    both exchanges reach the socket without touching the limiter. *)
Lemma subscribe_writes_directly counter market s :
  closed (socket s) = false ->
  exists payload,
    Binance.subscribe counter market s
    = (Ok tt, with_trace (trace s ++ [SocketSendJson payload]) s).
Proof.
  intros Hopen. unfold Binance.subscribe, socket_write. rewrite Hopen.
  eexists. reflexivity.
Qed.

End SendPaths.

Section ReceiveLoop.
Import Gateway.

Lemma split_before_sep sep sym rest :
  Str.split sep sym = [sym] ->
  Str.split sep (sym ++ String sep rest) = sym :: Str.split sep rest.
Proof.
  induction sym as [|c sym IH]; simpl; intros H.
  - rewrite Ascii.eqb_refl. reflexivity.
  - destruct (Ascii.eqb c sep); [discriminate|].
    destruct (Str.split sep sym) as [|hd tl] eqn:E.
    + destruct sym; simpl in E; [discriminate|].
      destruct (Ascii.eqb a sep); [discriminate|].
      destruct (Str.split sep sym); discriminate.
    + injection H as -> ->. rewrite IH by reflexivity. reflexivity.
Qed.





End ReceiveLoop.

Section Registry.
Import Gateway.

(** **** Deleting the recorded indices *)

Lemma del_each_app i1 i2 l :
  del_each (i1 ++ i2) l =
    match del_each i1 l with
    | (Ok _, l') => del_each i2 l'
    | (Raise e, l') => (Raise e, l')
    end.
Proof.
  revert l. induction i1 as [|i i1 IH]; intros l; simpl; [reflexivity|].
  destruct (del_index i l); [apply IH | reflexivity].
Qed.

Lemma del_index_middle (pre : list EventListener) e post :
  del_index (length pre) (pre ++ e :: post) = Ok (pre ++ post).
Proof.
  unfold del_index. rewrite bool_decide_eq_true_2.
  - f_equal. induction pre as [|x pre IH]; simpl; [reflexivity|].
    f_equal. exact IH.
  - rewrite length_app. simpl. lia.
Qed.

(** The first loop records, in increasing order, the positions of the
    entries that [sweep] leaves out; deleting them from the back leaves
    what [sweep] keeps. *)
Lemma scan_sweep ev data entries : forall index pre futs removed,
  length pre = index ->
  match sweep ev data entries futs with
  | (Raise e, futs') => scan ev data index entries futs removed = (Raise e, futs')
  | (Ok kept, futs') =>
      exists extra,
        scan ev data index entries futs removed = (Ok (removed ++ extra), futs')
        /\ del_each (rev extra) (pre ++ entries) = (Ok tt, pre ++ kept)
  end.
Proof.
  induction entries as [|entry rest IH]; intros index pre futs removed Hlen; simpl.
  - exists []. rewrite app_nil_r. split; reflexivity.
  - destruct (visit ev data entry futs) as [[b|e] futs1]; [|reflexivity].
    specialize (IH (S index) (pre ++ [entry]) futs1
                  (if b then removed ++ [index] else removed)).
    rewrite length_app in IH. simpl in IH.
    specialize (IH ltac:(lia)).
    destruct (sweep ev data rest futs1) as [[kept|e] futs2]; [|exact IH].
    destruct IH as (extra & Hscan & Hdel).
    rewrite <- !app_assoc in Hdel. simpl in Hdel.
    destruct b.
    + exists (index :: extra). split.
      * rewrite Hscan. rewrite <- app_assoc. reflexivity.
      * simpl. rewrite del_each_app, Hdel. simpl.
        subst index. rewrite del_index_middle. reflexivity.
    + exists extra. split; [exact Hscan | exact Hdel].
Qed.

(** [_remove_dispatched_listeners] is [sweep]: on normal return the
    listeners are those kept, and when a callback or a future raises the
    listeners are as before. *)
Lemma dispatch_is_sweep ev data s :
  _remove_dispatched_listeners ev data s =
    match sweep ev data (_dispatch_listeners s) (futures s) with
    | (Ok kept, futs) => (Ok tt, with_listeners kept (with_futures futs s))
    | (Raise e, futs) => (Raise e, with_futures futs s)
    end.
Proof.
  unfold _remove_dispatched_listeners.
  pose proof (scan_sweep ev data (_dispatch_listeners s) 0%nat [] (futures s) []
                eq_refl) as H.
  destruct (sweep ev data (_dispatch_listeners s) (futures s)) as [[kept|e] futs].
  - destruct H as (extra & -> & Hdel). simpl in *. rewrite Hdel. reflexivity.
  - rewrite H. reflexivity.
Qed.

(** **** One visit *)

Ltac visit_cases :=
  unfold visit, set_result, set_exception, cancelled;
  repeat case_match; simplify_eq/=.

(** A visit touches at most the future of the entry visited... *)
Lemma visit_other ev data entry futs f :
  future entry <> f ->
  (visit ev data entry futs).2 !! f = futs !! f.
Proof.
  intros Hne. visit_cases; try reflexivity; by rewrite lookup_insert_ne.
Qed.

(** ... and only if that future is pending. *)
Lemma visit_settled ev data entry futs f :
  futs !! f <> Some Pending ->
  (visit ev data entry futs).2 !! f = futs !! f.
Proof.
  intros Hs. destruct (decide (future entry = f)) as [<-|Hne];
    [|by apply visit_other].
  visit_cases; try reflexivity; congruence.
Qed.

(** An entry waiting for another event is passed over. *)
Lemma visit_other_event ev data entry futs :
  event entry <> ev -> visit ev data entry futs = (Ok false, futs).
Proof.
  intros Hne. unfold visit.
  destruct (String.eqb_spec (event entry) ev); [contradiction | reflexivity].
Qed.

(** A visit of an entry whose future is untouched by an update of [f]
    commutes with that update. *)
Lemma visit_insert ev data entry futs f st :
  future entry <> f ->
  visit ev data entry (<[f := st]> futs) =
    ((visit ev data entry futs).1, <[f := st]> (visit ev data entry futs).2).
Proof.
  intros Hne. unfold visit, set_result, set_exception, cancelled.
  rewrite lookup_insert_ne by congruence.
  repeat case_match; simplify_eq/=; try reflexivity;
    by rewrite insert_insert_ne by congruence.
Qed.

(** **** The pass *)

Lemma sweep_settled ev data entries : forall futs f,
  futs !! f <> Some Pending ->
  (sweep ev data entries futs).2 !! f = futs !! f.
Proof.
  induction entries as [|entry rest IH]; intros futs f Hs; simpl; [reflexivity|].
  pose proof (visit_settled ev data entry futs f Hs) as Hv.
  destruct (visit ev data entry futs) as [[b|e] futs1]; simpl in *; [|exact Hv].
  specialize (IH futs1 f ltac:(congruence)).
  destruct (sweep ev data rest futs1) as [[kept|e] futs2]; simpl in *; congruence.
Qed.

(** The pass leaves alone every future that no entry waiting for [ev]
    holds. *)
Lemma sweep_other ev data entries : forall futs f,
  (forall e, e ∈ entries -> future e = f -> event e <> ev) ->
  (sweep ev data entries futs).2 !! f = futs !! f.
Proof.
  induction entries as [|entry rest IH]; intros futs f Hf; simpl; [reflexivity|].
  assert (Hv : (visit ev data entry futs).2 !! f = futs !! f).
  { destruct (decide (future entry = f)) as [Heq|Hne]; [|by apply visit_other].
    rewrite visit_other_event; [reflexivity|].
    apply Hf; [left | exact Heq]. }
  destruct (visit ev data entry futs) as [[b|e] futs1]; simpl in *; [|exact Hv].
  specialize (IH futs1 f ltac:(intros e He; apply Hf; by right)).
  destruct (sweep ev data rest futs1) as [[kept|e] futs2]; simpl in *; congruence.
Qed.

Lemma sweep_kept_elem ev data entries : forall futs kept futs' e,
  sweep ev data entries futs = (Ok kept, futs') -> e ∈ kept -> e ∈ entries.
Proof.
  induction entries as [|entry rest IH]; intros futs kept futs' e H He; simpl in H.
  - by simplify_eq.
  - destruct (visit ev data entry futs) as [[b|x] futs1]; [|discriminate].
    destruct (sweep ev data rest futs1) as [[kept1|x] futs2] eqn:E; [|discriminate].
    simplify_eq. destruct b.
    + right. eapply IH; eauto.
    + apply elem_of_cons in He as [->|He]; [left | right; eapply IH; eauto].
Qed.

Lemma sweep_kept_futures ev data entries futs kept futs' f :
  sweep ev data entries futs = (Ok kept, futs') ->
  f ∈ (future <$> kept) -> f ∈ (future <$> entries).
Proof.
  intros H Hf. apply list_elem_of_fmap in Hf as (e & -> & He).
  apply list_elem_of_fmap_2. eapply sweep_kept_elem; eauto.
Qed.

Lemma sweep_kept_NoDup ev data entries : forall futs kept futs',
  sweep ev data entries futs = (Ok kept, futs') ->
  NoDup (future <$> entries) -> NoDup (future <$> kept).
Proof.
  induction entries as [|entry rest IH]; intros futs kept futs' H Hnd; simpl in H.
  - by simplify_eq.
  - destruct (visit ev data entry futs) as [[b|x] futs1]; [|discriminate].
    destruct (sweep ev data rest futs1) as [[kept1|x] futs2] eqn:E; [|discriminate].
    simplify_eq. rewrite fmap_cons in Hnd. apply NoDup_cons in Hnd as [Hnot Hnd].
    specialize (IH _ _ _ E Hnd). destruct b; [exact IH|].
    rewrite fmap_cons. apply NoDup_cons. split; [|exact IH].
    intros Hin. apply Hnot. eapply sweep_kept_futures; eauto.
Qed.

(** An entry waiting for another event stays. *)
Lemma sweep_keeps_other_event ev data entries : forall futs kept futs' e,
  sweep ev data entries futs = (Ok kept, futs') ->
  e ∈ entries -> event e <> ev -> e ∈ kept.
Proof.
  induction entries as [|entry rest IH]; intros futs kept futs' e H He Hev; simpl in H.
  - by apply elem_of_nil in He.
  - destruct (visit ev data entry futs) as [[b|x] futs1] eqn:Ev; [|discriminate].
    destruct (sweep ev data rest futs1) as [[kept1|x] futs2] eqn:E; [|discriminate].
    simplify_eq. apply elem_of_cons in He as [->|He].
    + rewrite visit_other_event in Ev by exact Hev. simplify_eq. left.
    + destruct b; [|right]; eapply IH; eauto.
Qed.

(** The visit of a live waiter whose predicate holds. *)
Lemma visit_fires data w futs :
  futs !! future w = Some Pending ->
  predicate w data = Ok true ->
  visit (event w) data w futs =
    match result_of w data with
    | Ok v => (Ok true, <[future w := Finished v]> futs)
    | Raise e => (Raise e, futs)
    end.
Proof.
  intros Hp Hpred. unfold visit, cancelled, set_result.
  rewrite String.eqb_refl, Hp, Hpred. simpl.
  destruct (result_of w data); reflexivity.
Qed.

(** The visit of a live waiter whose predicate raises. *)
Lemma visit_predicate_raises data w futs exc :
  futs !! future w = Some Pending ->
  predicate w data = Raise exc ->
  is_exception exc = true -> exc <> StopIteration ->
  visit (event w) data w futs = (Ok true, <[future w := Failed exc]> futs).
Proof.
  intros Hp Hpred Hexc Hstop. unfold visit, cancelled, set_exception.
  rewrite String.eqb_refl, Hp, Hpred, Hexc.
  destruct exc; try reflexivity. contradiction.
Qed.

(** A pass that returns has completed every live waiter for the event
    whose predicate holds, and has dropped it. *)
Lemma sweep_completes data w l2 : forall l1 futs kept futs',
  predicate w data = Ok true ->
  futs !! future w = Some Pending ->
  future w ∉ (future <$> l1) -> future w ∉ (future <$> l2) ->
  sweep (event w) data (l1 ++ w :: l2) futs = (Ok kept, futs') ->
  exists v, result_of w data = Ok v
            /\ futs' !! future w = Some (Finished v)
            /\ future w ∉ (future <$> kept).
Proof.
  induction l1 as [|e l1 IH]; intros futs kept futs' Hpred Hp H1 H2 H; simpl in H.
  - rewrite (visit_fires data w futs Hp Hpred) in H.
    destruct (result_of w data) as [v|x]; [|discriminate].
    destruct (sweep (event w) data l2 (<[future w:=Finished v]> futs))
      as [[kept2|x] futs2] eqn:E; [|discriminate].
    injection H as <- <-. exists v. split; [reflexivity|]. split.
    + pose proof (sweep_settled (event w) data l2
                    (<[future w:=Finished v]> futs) (future w)) as Hs.
      rewrite E in Hs. simpl in Hs. rewrite Hs; rewrite lookup_insert_eq; done.
    + intros Hin. apply H2. eapply sweep_kept_futures; eauto.
  - rewrite ?fmap_cons in H1. apply not_elem_of_cons in H1 as [Hne H1].
    pose proof (visit_other (event w) data e futs (future w) ltac:(congruence)) as Hv.
    destruct (visit (event w) data e futs) as [[b|x] futs1]; [|discriminate].
    simpl in Hv.
    destruct (sweep (event w) data (l1 ++ w :: l2) futs1) as [[kept1|x] futs2] eqn:E;
      [|discriminate].
    injection H as <- <-.
    destruct (IH futs1 kept1 futs2 Hpred ltac:(congruence) H1 H2 E)
      as (v & Hv1 & Hv2 & Hv3).
    exists v. split; [exact Hv1|]. split; [exact Hv2|].
    destruct b; [exact Hv3|].
    rewrite fmap_cons. apply not_elem_of_cons. split; [congruence | exact Hv3].
Qed.

(** Updating a future that no entry holds commutes with the pass. *)
Lemma sweep_insert ev data entries : forall futs f st,
  f ∉ (future <$> entries) ->
  sweep ev data entries (<[f := st]> futs) =
    ((sweep ev data entries futs).1, <[f := st]> (sweep ev data entries futs).2).
Proof.
  induction entries as [|e rest IH]; intros futs f st Hf; simpl; [reflexivity|].
  rewrite fmap_cons in Hf. apply not_elem_of_cons in Hf as [Hne Hf].
  rewrite visit_insert by congruence.
  destruct (visit ev data e futs) as [[b|x] futs1]; simpl; [|reflexivity].
  rewrite IH by exact Hf.
  destruct (sweep ev data rest futs1) as [[kept|x] futs2]; reflexivity.
Qed.

(** A live waiter whose predicate raises, added anywhere to the list,
    changes the pass for its event in one way only: its own future fails
    with the exception of the predicate.  The other waiters are kept or
    dropped, and their futures set, as without it. *)
Lemma sweep_with_raising_predicate data w exc l2 : forall l1 futs kept futs',
  predicate w data = Raise exc ->
  is_exception exc = true -> exc <> StopIteration ->
  futs !! future w = Some Pending ->
  future w ∉ (future <$> l1) -> future w ∉ (future <$> l2) ->
  sweep (event w) data (l1 ++ l2) futs = (Ok kept, futs') ->
  sweep (event w) data (l1 ++ w :: l2) futs
    = (Ok kept, <[future w := Failed exc]> futs').
Proof.
  induction l1 as [|e l1 IH];
    intros futs kept futs' Hpred Hexc Hstop Hp H1 H2 H; simpl in *.
  - rewrite (visit_predicate_raises data w futs exc Hp Hpred Hexc Hstop).
    rewrite sweep_insert by exact H2. rewrite H. reflexivity.
  - rewrite ?fmap_cons in H1. apply not_elem_of_cons in H1 as [Hne H1].
    pose proof (visit_other (event w) data e futs (future w) ltac:(congruence)) as Hv.
    destruct (visit (event w) data e futs) as [[b|x] futs1]; [|discriminate].
    simpl in Hv.
    destruct (sweep (event w) data (l1 ++ l2) futs1) as [[kept1|x] futs2] eqn:E;
      [|discriminate].
    injection H as <- <-.
    rewrite (IH futs1 kept1 futs2 Hpred Hexc Hstop ltac:(congruence) H1 H2 E).
    reflexivity.
Qed.

(** When the pass over the others is cut short by an exception, the same
    exception cuts the pass short with the waiter present; the futures of
    the others are the same. *)
Lemma sweep_with_raising_predicate_aborted data w exc l2 :
  forall l1 futs x futs',
  predicate w data = Raise exc ->
  is_exception exc = true -> exc <> StopIteration ->
  futs !! future w = Some Pending ->
  future w ∉ (future <$> l1) -> future w ∉ (future <$> l2) ->
  sweep (event w) data (l1 ++ l2) futs = (Raise x, futs') ->
  exists futs'',
    sweep (event w) data (l1 ++ w :: l2) futs = (Raise x, futs'')
    /\ forall f, f <> future w -> futs'' !! f = futs' !! f.
Proof.
  induction l1 as [|e l1 IH];
    intros futs x futs' Hpred Hexc Hstop Hp H1 H2 H; simpl in *.
  - rewrite (visit_predicate_raises data w futs exc Hp Hpred Hexc Hstop).
    rewrite sweep_insert by exact H2. rewrite H. simpl.
    eexists. split; [reflexivity|]. intros f Hf. by rewrite lookup_insert_ne.
  - rewrite ?fmap_cons in H1. apply not_elem_of_cons in H1 as [Hne H1].
    pose proof (visit_other (event w) data e futs (future w) ltac:(congruence)) as Hv.
    destruct (visit (event w) data e futs) as [[b|y] futs1]; simpl in Hv.
    + destruct (sweep (event w) data (l1 ++ l2) futs1) as [[kept1|y] futs2] eqn:E;
        [discriminate|].
      injection H as <- <-.
      destruct (IH futs1 y futs2 Hpred Hexc Hstop ltac:(congruence) H1 H2 E)
        as (futs'' & -> & Hsame).
      exists futs''. split; [reflexivity | exact Hsame].
    + injection H as <- <-. exists futs1. split; [reflexivity | done].
Qed.

(** **** The registry over its life *)

Lemma wait_for_eq ev pred res s :
  wait_for ev pred res s =
    (Ok (next_future s),
     with_listeners
       (_dispatch_listeners s
          ++ [{| predicate := pred; event := ev; result := res;
                 future := next_future s |}])
       (with_next_future (S (next_future s))
          (with_futures (<[next_future s := Pending]> (futures s)) s))).
Proof. reflexivity. Qed.

Lemma dispatch_futures_settled ev data s f :
  futures s !! f <> Some Pending ->
  futures (_remove_dispatched_listeners ev data s).2 !! f = futures s !! f.
Proof.
  intros H. rewrite dispatch_is_sweep.
  pose proof (sweep_settled ev data (_dispatch_listeners s) (futures s) f H) as Hs.
  destruct (sweep ev data (_dispatch_listeners s) (futures s)) as [[kept|x] futs];
    exact Hs.
Qed.

Lemma dispatch_next_future ev data s :
  next_future (_remove_dispatched_listeners ev data s).2 = next_future s.
Proof.
  rewrite dispatch_is_sweep.
  destruct (sweep ev data (_dispatch_listeners s) (futures s)) as [[kept|x] futs];
    reflexivity.
Qed.

Lemma dispatch_listeners_elem ev data s e :
  e ∈ _dispatch_listeners (_remove_dispatched_listeners ev data s).2 ->
  e ∈ _dispatch_listeners s.
Proof.
  rewrite dispatch_is_sweep.
  destruct (sweep ev data (_dispatch_listeners s) (futures s))
    as [[kept|x] futs] eqn:E; simpl; [|done].
  intros H. eapply sweep_kept_elem; eauto.
Qed.

Lemma cancel_futures_settled f s g :
  futures s !! g <> Some Pending ->
  futures (cancel f s) !! g = futures s !! g.
Proof.
  intros H. unfold cancel. repeat case_match; simpl; try reflexivity.
  destruct (decide (f = g)) as [->|Hne]; [congruence | by rewrite lookup_insert_ne].
Qed.

Lemma registry_ok_apply_op s o : registry_ok s -> registry_ok (apply_op s o).
Proof.
  intros (Hnd & Hlt & Hfresh). destruct o as [ev pred res | ev data | f];
    cbn [apply_op].
  - rewrite wait_for_eq. unfold registry_ok. simpl. repeat split.
    + rewrite fmap_app. apply NoDup_app. split; [exact Hnd|]. split.
      * intros g Hg Hin. apply list_elem_of_singleton in Hin. simpl in Hin.
        apply Hlt in Hg. lia.
      * apply NoDup_singleton.
    + intros g Hg. rewrite fmap_app in Hg. apply elem_of_app in Hg as [Hg|Hg].
      * apply Hlt in Hg. lia.
      * apply list_elem_of_singleton in Hg. simpl in Hg. lia.
    + intros g Hg. rewrite lookup_insert_ne by lia. apply Hfresh. lia.
  - rewrite dispatch_is_sweep.
    destruct (sweep ev data (_dispatch_listeners s) (futures s))
      as [[kept|x] futs] eqn:E; unfold registry_ok; simpl;
      repeat split; try assumption.
    + eapply sweep_kept_NoDup; eauto.
    + intros g Hg. apply Hlt. eapply sweep_kept_futures; eauto.
    + intros g Hg.
      pose proof (sweep_settled ev data (_dispatch_listeners s) (futures s) g) as Hs.
      rewrite E in Hs. simpl in Hs. rewrite Hs; rewrite Hfresh by lia; done.
    + intros g Hg.
      pose proof (sweep_settled ev data (_dispatch_listeners s) (futures s) g) as Hs.
      rewrite E in Hs. simpl in Hs. rewrite Hs; rewrite Hfresh by lia; done.
  - unfold cancel, registry_ok.
    repeat case_match; simpl; repeat split; try assumption.
    intros g Hg. rewrite lookup_insert_ne; [by apply Hfresh|].
    intros ->. rewrite Hfresh in * by lia. discriminate.
Qed.

Lemma registry_ok_apply_ops ops : forall s,
  registry_ok s -> registry_ok (apply_ops s ops).
Proof.
  induction ops as [|o ops IH]; intros s H; simpl; [exact H|].
  apply IH. by apply registry_ok_apply_op.
Qed.

(** A gateway fresh from [__init__] on a fresh loop has a sound registry,
    and so has every state it reaches. *)
Lemma registry_ok_init sock : registry_ok (init sock ∅ 0).
Proof.
  split; [apply NoDup_nil_2|].
  split; [intros f Hf; by apply elem_of_nil in Hf | intros f _; apply lookup_empty].
Qed.

(** A live waiter stays live under operations that neither dispatch its
    event nor cancel its future. *)
Lemma live_apply_op w s o :
  registry_ok s -> live w s ->
  leaves_alone (event w) (future w) o = true ->
  live w (apply_op s o).
Proof.
  intros (Hnd & Hlt & Hfresh) [Hin Hp] Hq.
  destruct o as [ev pred res | ev data | f]; cbn [apply_op leaves_alone] in *.
  - rewrite wait_for_eq. split; simpl.
    + apply elem_of_app. by left.
    + rewrite lookup_insert_ne; [exact Hp|].
      intros Heq. rewrite Hfresh in Hp by lia. discriminate.
  - apply negb_true_iff in Hq.
    assert (Hev : event w <> ev).
    { intros <-. rewrite String.eqb_refl in Hq. discriminate. }
    rewrite dispatch_is_sweep.
    assert (Hf : (sweep ev data (_dispatch_listeners s) (futures s)).2
                   !! future w = Some Pending).
    { rewrite sweep_other; [exact Hp|].
      intros e He Heq.
      apply list_elem_of_split in Hin as (l1 & l2 & Hl).
      rewrite Hl in He, Hnd.
      rewrite fmap_app, fmap_cons in Hnd.
      apply NoDup_app in Hnd as (_ & Hd & Hnd2).
      apply NoDup_cons in Hnd2 as [Hn2 _].
      apply elem_of_app in He as [He|He].
      - exfalso. eapply Hd; [by apply list_elem_of_fmap_2|].
        rewrite Heq. left.
      - apply elem_of_cons in He as [->|He]; [exact Hev|].
        exfalso. apply Hn2. rewrite <- Heq. by apply list_elem_of_fmap_2. }
    destruct (sweep ev data (_dispatch_listeners s) (futures s))
      as [[kept|x] futs] eqn:E; simpl in *; split; try assumption.
    eapply sweep_keeps_other_event; eauto.
  - apply negb_true_iff, Nat.eqb_neq in Hq.
    unfold cancel, live. repeat case_match; simpl; split; try assumption.
    by rewrite lookup_insert_ne.
Qed.

Lemma live_apply_ops w ops : forall s,
  registry_ok s -> live w s ->
  forallb (leaves_alone (event w) (future w)) ops = true ->
  live w (apply_ops s ops).
Proof.
  induction ops as [|o ops IH]; intros s Hok Hl Hq; simpl in *; [exact Hl|].
  apply andb_true_iff in Hq as [Hq1 Hq2].
  apply IH; [by apply registry_ok_apply_op | by apply live_apply_op | exact Hq2].
Qed.

(** Once completed and dropped, a future is never touched again. *)
Lemma completed_apply_op f v s o :
  completed f v s -> completed f v (apply_op s o).
Proof.
  intros (Hf & Hnot & Hlt). destruct o as [ev pred res | ev data | g];
    cbn [apply_op].
  - rewrite wait_for_eq. repeat split; simpl.
    + rewrite lookup_insert_ne by lia. exact Hf.
    + rewrite fmap_app. apply not_elem_of_app. split; [exact Hnot|].
      simpl. intros H. apply list_elem_of_singleton in H. lia.
    + lia.
  - repeat split.
    + rewrite dispatch_futures_settled; rewrite Hf; done.
    + intros H. apply Hnot. apply list_elem_of_fmap in H as (e & -> & He).
      apply list_elem_of_fmap_2. eapply dispatch_listeners_elem; eauto.
    + rewrite dispatch_next_future. exact Hlt.
  - repeat split.
    + rewrite cancel_futures_settled; rewrite Hf; done.
    + unfold cancel. repeat case_match; exact Hnot.
    + unfold cancel. repeat case_match; exact Hlt.
Qed.

Lemma completed_apply_ops f v ops : forall s,
  completed f v s -> completed f v (apply_ops s ops).
Proof.
  induction ops as [|o ops IH]; intros s H; simpl; [exact H|].
  apply IH. by apply completed_apply_op.
Qed.

(** No operation changes a future that is done or cancelled. *)
Lemma settled_apply_op s o f st :
  registry_ok s -> futures s !! f = Some st -> settled st ->
  futures (apply_op s o) !! f = Some st.
Proof.
  intros (_ & _ & Hfresh) Hf Hst. unfold settled in Hst.
  destruct o as [ev pred res | ev data | g]; cbn [apply_op].
  - rewrite wait_for_eq. simpl. rewrite lookup_insert_ne; [exact Hf|].
    intros Heq. rewrite Hfresh in Hf by lia. discriminate.
  - rewrite dispatch_futures_settled; rewrite Hf; congruence.
  - rewrite cancel_futures_settled; rewrite Hf; congruence.
Qed.

(** A pass that returns has dropped every waiter for the event whose
    future was cancelled, and has left that future cancelled. *)
Lemma sweep_prunes data w l2 : forall l1 futs kept futs',
  futs !! future w = Some Cancelled ->
  future w ∉ (future <$> l1) -> future w ∉ (future <$> l2) ->
  sweep (event w) data (l1 ++ w :: l2) futs = (Ok kept, futs') ->
  futs' !! future w = Some Cancelled /\ future w ∉ (future <$> kept).
Proof.
  intros l1 futs kept futs' Hc H1 H2 H. split.
  - pose proof (sweep_settled (event w) data (l1 ++ w :: l2) futs (future w)) as Hs.
    rewrite H in Hs. simpl in Hs. rewrite Hs; rewrite Hc; done.
  - revert futs kept futs' Hc H1 H.
    induction l1 as [|e l1 IH]; intros futs kept futs' Hc H1 H; simpl in H.
    + assert (Hv : visit (event w) data w futs = (Ok true, futs)).
      { unfold visit, cancelled. rewrite String.eqb_refl, Hc. reflexivity. }
      rewrite Hv in H.
      destruct (sweep (event w) data l2 futs) as [[kept2|x] futs2] eqn:E;
        [|discriminate].
      injection H as <- <-. intros Hin. apply H2.
      eapply sweep_kept_futures; eauto.
    + rewrite ?fmap_cons in H1. apply not_elem_of_cons in H1 as [Hne H1].
      pose proof (visit_other (event w) data e futs (future w) ltac:(congruence)) as Hv.
      destruct (visit (event w) data e futs) as [[b|x] futs1]; [|discriminate].
      simpl in Hv.
      destruct (sweep (event w) data (l1 ++ w :: l2) futs1)
        as [[kept1|x] futs2] eqn:E; [|discriminate].
      injection H as <- <-.
      specialize (IH futs1 kept1 futs2 ltac:(congruence) H1 E).
      destruct b; [exact IH|].
      rewrite fmap_cons. apply not_elem_of_cons. split; [congruence | exact IH].
Qed.

(** A registered waiter splits the list around itself, and no other
    waiter holds its future. *)
Lemma registered_split w s :
  NoDup (future <$> _dispatch_listeners s) -> w ∈ _dispatch_listeners s ->
  exists l1 l2,
    _dispatch_listeners s = l1 ++ w :: l2
    /\ (future w ∉ (future <$> l1)) /\ (future w ∉ (future <$> l2)).
Proof.
  intros Hnd Hin. apply list_elem_of_split in Hin as (l1 & l2 & Hl).
  exists l1, l2. split; [exact Hl|].
  rewrite Hl, fmap_app, fmap_cons in Hnd.
  apply NoDup_app in Hnd as (_ & Hd & Hnd2).
  apply NoDup_cons in Hnd2 as [Hn2 _]. split; [|exact Hn2].
  intros H. apply (Hd _ H). left.
Qed.

(** C1, as stated, fails.  (1) A waiter with an always-true predicate is
    registered for TICKER_UPDATE and its caller cancels the future before
    the next TICKER_UPDATE is dispatched: the dispatch returns, drops the
    waiter, and leaves the future cancelled, not completed with the
    payload.  (2) The same waiter registered with a result transform that
    raises: the dispatch raises that exception, the future stays pending
    and the waiter stays registered. *)
Lemma cancelled_waiter_is_not_completed :
  let s0 := init Examples.open_socket ∅ 0 in
  let always := fun _ : json => Ok true in
  let s1 := cancel 0 (wait_for "TICKER_UPDATE" always None s0).2 in
  let r := _remove_dispatched_listeners "TICKER_UPDATE" (JNum 1) s1 in
  let failing := fun _ : json => @Raise json (UserError 0) in
  let s1' := (wait_for "TICKER_UPDATE" always (Some failing) s0).2 in
  let r' := _remove_dispatched_listeners "TICKER_UPDATE" (JNum 1) s1' in
  (wait_for "TICKER_UPDATE" always None s0).1 = Ok 0%nat
  /\ r.1 = Ok tt
  /\ futures r.2 !! 0%nat = Some Cancelled
  /\ _dispatch_listeners r.2 = []
  /\ r'.1 = Raise (UserError 0)
  /\ futures r'.2 !! 0%nat = Some Pending
  /\ length (_dispatch_listeners r'.2) = 1%nat.
Proof. vm_compute. repeat split. Qed.

(** C1, amended.  From any sound registry: a waiter is registered with a
    predicate that always returns true; then anything happens except a
    dispatch of its event and a cancellation of its future; then its
    event is dispatched and the dispatch returns normally (no result
    transform raised, no future was already done).  Then [wait_for] had
    returned the future at once; the dispatch has completed it with
    [result(payload)], or with the payload itself when [result] is
    [None]; the waiter is gone from the list; and whatever happens
    afterwards (further matching dispatches included) the future keeps
    that result and is held by no waiter.  A registered waiter whose
    future was cancelled is dropped by the next dispatch of its event
    that returns, and its future stays cancelled.  Besides, in every
    sound state no operation changes a future that is already done or
    cancelled: a future is set at most once. *)
Theorem waiter_completed_once :
  (forall (s : WebSocket) (ev : string) (pred : json -> completion bool)
          (res : option (json -> completion json))
          (before after : list op) (data : json) (s3 : WebSocket),
      registry_ok s ->
      (forall d, pred d = Ok true) ->
      forallb (leaves_alone ev (next_future s)) before = true ->
      _remove_dispatched_listeners ev data
        (apply_ops (wait_for ev pred res s).2 before) = (Ok tt, s3) ->
      (wait_for ev pred res s).1 = Ok (next_future s)
      /\ exists v,
          match res with None => Ok data | Some f => f data end = Ok v
          /\ futures s3 !! next_future s = Some (Finished v)
          /\ (next_future s ∉ (future <$> _dispatch_listeners s3))
          /\ futures (apply_ops s3 after) !! next_future s = Some (Finished v)
          /\ (next_future s ∉ (future <$> _dispatch_listeners (apply_ops s3 after))))
  /\ (forall (s : WebSocket) (w : EventListener) (data : json) (s' : WebSocket),
        registry_ok s -> w ∈ _dispatch_listeners s ->
        futures s !! future w = Some Cancelled ->
        _remove_dispatched_listeners (event w) data s = (Ok tt, s') ->
        futures s' !! future w = Some Cancelled
        /\ future w ∉ (future <$> _dispatch_listeners s'))
  /\ (forall (s : WebSocket) (o : op) (f : nat) (st : future_state),
        registry_ok s -> futures s !! f = Some st -> settled st ->
        futures (apply_op s o) !! f = Some st).
Proof.
  split; [|split; [|intros s o f st; apply settled_apply_op]]; cycle 1.
  { intros s w data s' (Hnd & _) Hin Hc Hdisp.
    destruct (registered_split w s Hnd Hin) as (l1 & l2 & Hl & Hn1 & Hn2).
    rewrite dispatch_is_sweep, Hl in Hdisp.
    destruct (sweep (event w) data (l1 ++ w :: l2) (futures s))
      as [[kept|x] futs] eqn:E; [|discriminate].
    injection Hdisp as <-. simpl.
    exact (sweep_prunes data w l2 l1 (futures s) kept futs Hc Hn1 Hn2 E). }
  intros s ev pred res before after data s3 Hok Hpred Hquiet Hdisp.
  split; [reflexivity|].
  set (w := {| predicate := pred; event := ev; result := res;
               future := next_future s |}).
  set (s1 := (wait_for ev pred res s).2) in *.
  assert (Hok1 : registry_ok s1)
    by exact (registry_ok_apply_op s (OpWaitFor ev pred res) Hok).
  assert (Hlive1 : live w s1).
  { subst s1. rewrite wait_for_eq. split; simpl.
    - apply elem_of_app. right. by apply list_elem_of_singleton.
    - apply lookup_insert_eq. }
  set (s2 := apply_ops s1 before) in *.
  assert (Hok2 : registry_ok s2) by (by apply registry_ok_apply_ops).
  assert (Hlive2 : live w s2) by (by apply live_apply_ops).
  destruct Hok2 as (Hnd & Hlt & _). destruct Hlive2 as [Hin Hp].
  destruct (registered_split w s2 Hnd Hin) as (l1 & l2 & Hl & Hn1 & Hn2).
  rewrite dispatch_is_sweep, Hl in Hdisp.
  destruct (sweep ev data (l1 ++ w :: l2) (futures s2)) as [[kept|x] futs] eqn:E;
    [|discriminate].
  injection Hdisp as <-.
  destruct (sweep_completes data w l2 l1 (futures s2) kept futs
              (Hpred data) Hp Hn1 Hn2 E) as (v & Hv & Hf & Hgone).
  exists v. split; [exact Hv|].
  assert (Hc : completed (next_future s) v
                 (with_listeners kept (with_futures futs s2))).
  { repeat split; simpl; [exact Hf | exact Hgone |].
    apply Hlt. change (next_future s) with (future w).
    by apply list_elem_of_fmap_2. }
  split; [exact Hf|]. split; [exact Hgone|].
  destruct (completed_apply_ops _ _ after _ Hc) as (Hf' & Hgone' & _).
  split; assumption.
Qed.

Lemma waiter_completed_once_witness :
  let s := init Examples.open_socket ∅ 0 in
  let always := fun _ : json => Ok true in
  let before := [OpDispatch "KLINE_UPDATE" (JNum 5);
                 OpWaitFor "TICKER_UPDATE" (fun _ => Ok false) None;
                 OpCancel 1] in
  let s2 := apply_ops (wait_for "TICKER_UPDATE" always None s).2 before in
  let s3 := (_remove_dispatched_listeners "TICKER_UPDATE" (JNum 7) s2).2 in
  let after := [OpDispatch "TICKER_UPDATE" (JNum 8); OpCancel 0] in
  futures s3 !! 0%nat = Some (Finished (JNum 7))
  /\ futures (apply_ops s3 after) !! 0%nat = Some (Finished (JNum 7)).
Proof.
  intros s always before s2 s3 after.
  destruct (proj1 waiter_completed_once s "TICKER_UPDATE"%string always None
              before after (JNum 7) s3)
    as (_ & v & Hv & Hf & _ & Hf' & _).
  - apply registry_ok_init.
  - reflexivity.
  - vm_compute. reflexivity.
  - vm_compute. reflexivity.
  - injection Hv as <-. split; assumption.
Defined.

(** C7, as stated, fails, in two ways.
    (a) Two waiters for TICKER_UPDATE, the first with a predicate that
    raises [StopIteration], the second with a predicate that holds.  The
    [except] clause catches the exception and hands it to
    [future.set_exception], which refuses a [StopIteration] with
    [TypeError]: that exception leaves the dispatch, the future of the
    first waiter is still pending, the second waiter is never looked at,
    and both stay registered.  (A predicate that raises an exception that
    is no [Exception] is not caught at all.)
    (b) Two waiters, the first with a predicate that raises, the second
    with a predicate that holds and a result transform that raises.  The
    dispatch sets the future of the first to the exception of its
    predicate, then the result transform of the second raises: that
    exception leaves the dispatch, the second loop never runs, and the
    first waiter stays registered. *)
Lemma predicate_exception_not_contained :
  let s0 := init Examples.open_socket ∅ 0 in
  let sa := apply_ops s0
              [OpWaitFor "TICKER_UPDATE" (fun _ => Raise StopIteration) None;
               OpWaitFor "TICKER_UPDATE" (fun _ => Ok true) None] in
  let ra := _remove_dispatched_listeners "TICKER_UPDATE" (JNum 7) sa in
  let sk := apply_ops s0
              [OpWaitFor "TICKER_UPDATE" (fun _ => Raise KeyboardInterrupt) None] in
  let rk := _remove_dispatched_listeners "TICKER_UPDATE" (JNum 7) sk in
  let sb := apply_ops s0
              [OpWaitFor "TICKER_UPDATE" (fun _ => Raise (UserError 1)) None;
               OpWaitFor "TICKER_UPDATE" (fun _ => Ok true)
                 (Some (fun _ => Raise (UserError 2)))] in
  let rb := _remove_dispatched_listeners "TICKER_UPDATE" (JNum 7) sb in
  (ra.1 = Raise TypeError
   /\ futures ra.2 !! 0%nat = Some Pending
   /\ futures ra.2 !! 1%nat = Some Pending
   /\ future <$> _dispatch_listeners ra.2 = [0%nat; 1%nat])
  /\ (rk.1 = Raise KeyboardInterrupt
      /\ futures rk.2 !! 0%nat = Some Pending
      /\ future <$> _dispatch_listeners rk.2 = [0%nat])
  /\ (rb.1 = Raise (UserError 2)
      /\ futures rb.2 !! 0%nat = Some (Failed (UserError 1))
      /\ future <$> _dispatch_listeners rb.2 = [0%nat; 1%nat]).
Proof. vm_compute. repeat split. Qed.

(** C7, amended: a registered waiter whose future is pending and whose
    predicate raises [exc] on the payload of a dispatch of its event,
    where [exc] is an instance of [Exception] other than
    [StopIteration], compared with the same dispatch on the registry
    without that waiter.  When that one returns, the dispatch with the
    waiter returns as well (the exception of the predicate is not
    propagated); it leaves the same waiters registered, so the waiter
    itself is gone from the list, and the same gateway; and it leaves
    every future as it would be, except that the future of the waiter is
    done with [exc]. *)
Theorem raising_predicate_fails_only_its_waiter
    (s : WebSocket) (l1 l2 : list EventListener) (w : EventListener)
    (data : json) (exc : exn) (s' : WebSocket) :
  registry_ok s ->
  _dispatch_listeners s = l1 ++ w :: l2 ->
  futures s !! future w = Some Pending ->
  predicate w data = Raise exc ->
  is_exception exc = true ->
  exc <> StopIteration ->
  _remove_dispatched_listeners (event w) data (with_listeners (l1 ++ l2) s)
    = (Ok tt, s') ->
  _remove_dispatched_listeners (event w) data s
    = (Ok tt, with_futures (<[future w := Failed exc]> (futures s')) s')
  /\ (future w ∉ (future <$> _dispatch_listeners s'))
  /\ (forall e, e ∈ _dispatch_listeners s' -> e ∈ l1 ++ l2)
  /\ (forall f, f <> future w ->
        futures (_remove_dispatched_listeners (event w) data s).2 !! f
        = futures s' !! f).
Proof.
  intros (Hnd & _) Hl Hp Hpred Hexc Hstop Hbase.
  rewrite Hl, fmap_app, fmap_cons in Hnd.
  apply NoDup_app in Hnd as (_ & Hd & Hnd2).
  apply NoDup_cons in Hnd2 as [Hn2 _].
  assert (Hn1 : future w ∉ (future <$> l1)).
  { intros H. apply (Hd _ H). left. }
  rewrite dispatch_is_sweep in Hbase. simpl in Hbase.
  destruct (sweep (event w) data (l1 ++ l2) (futures s))
    as [[kept|x] futs] eqn:E; [|discriminate].
  injection Hbase as <-. simpl.
  assert (Hrun : _remove_dispatched_listeners (event w) data s
                 = (Ok tt, with_futures (<[future w := Failed exc]> futs)
                             (with_listeners kept (with_futures futs
                                (with_listeners (l1 ++ l2) s))))).
  { rewrite dispatch_is_sweep, Hl.
    rewrite (sweep_with_raising_predicate data w exc l2 l1 (futures s) kept futs
               Hpred Hexc Hstop Hp Hn1 Hn2 E).
    reflexivity. }
  split; [exact Hrun|]. split; [|split].
  - intros H. eapply sweep_kept_futures in H; [|exact E].
    rewrite fmap_app in H. apply elem_of_app in H as [H|H]; contradiction.
  - intros e He. eapply sweep_kept_elem; eauto.
  - intros f Hf. rewrite Hrun. simpl. apply lookup_insert_ne. congruence.
Qed.

Lemma raising_predicate_fails_only_its_waiter_witness :
  let w0 := {| predicate := fun _ => Ok true; event := "TICKER_UPDATE";
               result := None; future := 0 |} in
  let w1 := {| predicate := fun _ => Raise (UserError 1); event := "TICKER_UPDATE";
               result := None; future := 1 |} in
  let w2 := {| predicate := fun _ => Ok false; event := "TICKER_UPDATE";
               result := None; future := 2 |} in
  let s := apply_ops (init Examples.open_socket ∅ 0)
             [OpWaitFor (event w0) (predicate w0) None;
              OpWaitFor (event w1) (predicate w1) None;
              OpWaitFor (event w2) (predicate w2) None] in
  let r := _remove_dispatched_listeners "TICKER_UPDATE" (JNum 7) s in
  r.1 = Ok tt
  /\ futures r.2 !! 1%nat = Some (Failed (UserError 1))
  /\ futures r.2 !! 0%nat = Some (Finished (JNum 7))
  /\ futures r.2 !! 2%nat = Some Pending.
Proof.
  intros w0 w1 w2 s r.
  destruct (raising_predicate_fails_only_its_waiter s [w0] [w2] w1 (JNum 7)
              (UserError 1)
              (_remove_dispatched_listeners "TICKER_UPDATE" (JNum 7)
                 (with_listeners [w0; w2] s)).2) as (Hr & _).
  - apply registry_ok_apply_ops, registry_ok_init.
  - reflexivity.
  - reflexivity.
  - reflexivity.
  - reflexivity.
  - discriminate.
  - vm_compute. reflexivity.
  - subst r. simpl event in Hr. rewrite Hr. vm_compute. repeat split.
Defined.

End Registry.

Section BitmexFacts.
Import Gateway.

(** With a handler that returns on every entry, the loop calls it on the
    entries from the top of the stack down and leaves the stack empty. *)
Lemma drain_all ev func stack : forall s,
  (forall entry, entry ∈ stack -> func entry = Ok tt) ->
  Bitmex.drain ev func stack s
    = (Ok tt, [], with_trace (trace s ++ (Called ev <$> stack)) s).
Proof.
  induction stack as [|entry rest IH]; intros s Hok; simpl.
  - rewrite app_nil_r. destruct s; reflexivity.
  - unfold call_parser, bind, emit, modify, lift. simpl.
    rewrite (Hok entry) by left.
    rewrite IH by (intros e He; apply Hok; by right). simpl.
    rewrite <- app_assoc. reflexivity.
Qed.

(** A handler that raises stops the loop: the entries above the one it
    was given have been handled, that entry has been popped, the entries
    below it stay in the object, and the exception leaves the loop. *)
Lemma drain_raises ev func above entry below x : forall s,
  (forall e, e ∈ above -> func e = Ok tt) ->
  func entry = Raise x ->
  Bitmex.drain ev func (above ++ entry :: below) s
    = (Raise x, below,
       with_trace (trace s ++ (Called ev <$> above) ++ [Called ev entry]) s).
Proof.
  induction above as [|e above IH]; intros s Hok H; simpl.
  - unfold call_parser, bind, emit, modify, lift. simpl. rewrite H. reflexivity.
  - unfold call_parser, bind, emit, modify, lift. simpl.
    rewrite (Hok e) by left.
    rewrite IH by (try (intros e' He'; apply Hok; by right); exact H). simpl.
    rewrite <- app_assoc. reflexivity.
Qed.

(** C10, as stated, fails: a Bitmex frame for the event KLINE_UPDATE whose
    data array has two entries, the last of them without the field [E],
    on a gateway with the parsers of the connection state and one waiter
    for KLINE_UPDATE whose predicate always holds.  The parser is called
    on the last entry and raises [KeyError]: the exception leaves
    [received_message], the first entry is never handed to the parser,
    and no dispatch takes place (the waiter's future stays pending). *)
Lemma raising_handler_stops_the_drain :
  let s := (wait_for "KLINE_UPDATE" (fun _ => Ok true) None Examples.bitmex_ws).2 in
  let frame :=
    Encodes (JList [JNum 0; JNull; JStr "xbtusd";
                    JDict [("table", JStr "kline"); ("action", JStr "update");
                           ("data", JList [JDict [("E", JNum 1)]; JDict []])]])%string in
  let r := Bitmex.received_message 9 frame s in
  (exists h, parsers s !! "KLINE_UPDATE"%string = Some h)
  /\ r.1 = Raise (KeyError "E")
  /\ trace r.2 = [Called "KLINE_UPDATE" (JDict [])]
  /\ futures r.2 !! 0%nat = Some Pending.
Proof.
  split; [eexists; reflexivity|]. vm_compute. repeat split.
Qed.

(** C10, amended: a Bitmex frame [[op, _, _, payload, ...]] that is
    neither an unsubscribe notice nor a subscription acknowledgement,
    whose payload names a table and an action and carries a list as
    [data], and for whose event a parser is registered.
    (1) If the parser returns on every entry, [received_message] ticks
    the keep-alive handler, calls the parser once per entry, last entry
    first, which empties the list object, and hands that object, now the
    empty list, to the dispatch of the waiters: the frame is processed
    exactly as a dispatch of the event with payload [[]] after the calls.
    (2) If the parser raises on an entry, having returned on those after
    it, [received_message] ends with that exception once the parser was
    called on these entries: the entries before stay unhandled and the
    waiters are not dispatched to. *)
Theorem bitmex_handler_drains_data
    (now : Z) (op a b : json) (more : list json)
    (fields : list (string * json)) (table action : string)
    (items : list json) (func : json -> completion unit) (s : WebSocket) :
  Bitmex.eq_int op Bitmex.UNSUBSCRIBE = false ->
  assoc "success" fields = None ->
  assoc "table" fields = Some (JStr table) ->
  assoc "action" fields = Some (JStr action) ->
  assoc "data" fields = Some (JList items) ->
  parsers s !! (Str.upper table ++ "_" ++ Str.upper action)%string = Some func ->
  let ev := (Str.upper table ++ "_" ++ Str.upper action)%string in
  let s1 := (keep_alive_tick now s).2 in
  let frame := Encodes (JList (op :: a :: b :: JDict fields :: more)) in
  ((forall entry, entry ∈ items -> func entry = Ok tt) ->
   Bitmex.received_message now frame s
   = _remove_dispatched_listeners ev (JList [])
       (with_trace (trace s1 ++ (Called ev <$> rev items)) s1))
  /\ (forall before entry after x,
        items = before ++ entry :: after ->
        (forall e, e ∈ after -> func e = Ok tt) ->
        func entry = Raise x ->
        Bitmex.received_message now frame s
        = (Raise x,
           with_trace
             (trace s1 ++ (Called ev <$> rev after) ++ [Called ev entry]) s1)).
Proof.
  intros Hop Hsucc Htable Haction Hdata Hfunc ev s1 frame.
  assert (Hparsers : parsers s1 !! ev = Some func).
  { subst s1. unfold keep_alive_tick, modify. simpl.
    destruct (_keep_alive s); exact Hfunc. }
  assert (Htick : keep_alive_tick now s = (Ok tt, s1)) by reflexivity.
  assert (Hstep : Bitmex.received_message now frame s
                  = match Bitmex.handle_entries ev func (JList items) s1 with
                    | (Ok data, s2) => _remove_dispatched_listeners ev data s2
                    | (Raise e, s2) => (Raise e, s2)
                    end).
  { subst frame. unfold Bitmex.received_message, bind, lift.
    cbn [loads Bitmex.index lookup list_lookup].
    rewrite Htick, Hop.
    destruct (Bitmex.eq_int op Bitmex.MESSAGE);
      [unfold Bitmex.contains; rewrite Hsucc | unfold ret];
      cbn [getitem]; rewrite Htable, Haction, Hdata;
      cbn [Bitmex.upper]; fold ev;
      rewrite Hparsers; reflexivity. }
  rewrite Hstep. unfold Bitmex.handle_entries. split.
  - intros Hok. rewrite drain_all; [reflexivity|].
    intros e He. apply Hok.
    apply list_elem_of_In. apply in_rev. by apply list_elem_of_In.
  - intros before entry after x -> Hok Hx.
    rewrite rev_app_distr. simpl rev. rewrite <- app_assoc. simpl.
    rewrite (drain_raises ev func (rev after) entry (rev before) x s1);
      [reflexivity | | exact Hx].
    intros e He. apply Hok.
    apply list_elem_of_In. apply in_rev. by apply list_elem_of_In.
Qed.

Lemma bitmex_handler_drains_data_witness :
  let s := (wait_for "KLINE_UPDATE" (fun _ => Ok true) None Examples.bitmex_ws).2 in
  let r := Bitmex.received_message 9 Examples.kline_frame s in
  r.1 = Ok tt
  /\ trace r.2 = Called "KLINE_UPDATE" <$> rev Examples.kline_entries
  /\ futures r.2 !! 0%nat = Some (Finished (JList [])).
Proof.
  intros s r. subst r. unfold Examples.kline_frame.
  destruct (bitmex_handler_drains_data 9 (JNum 0) JNull (JStr "xbtusd") []
              [("table", JStr "kline"); ("action", JStr "update");
               ("data", JList Examples.kline_entries)]%string
              "kline" "update" Examples.kline_entries State.parse_kline_update s)
    as [Hall _]; try reflexivity.
  rewrite Hall.
  - vm_compute. repeat split.
  - intros entry He. unfold Examples.kline_entries in He.
    repeat (apply elem_of_cons in He as [->|He]; [reflexivity|]).
    by apply elem_of_nil in He.
Defined.

End BitmexFacts.

(* ================================================================== *)
(** * Further properties of the rate limiter *)

Section RateLimiterMore.
Import RateLimiter.

Ltac crush_limiter :=
  unfold get_delay, is_ratelimited, takes_token, resets in *;
  unfold refill, set_window, set_remaining in *;
  simpl in *;
  repeat (match goal with
          | |- context [Z.eqb ?a ?b] => destruct (Z.eqb_spec a b)
          | |- context [Z.ltb ?a ?b] => destruct (Z.ltb_spec a b)
          | H : context [Z.eqb ?a ?b] |- _ => destruct (Z.eqb_spec a b)
          | H : context [Z.ltb ?a ?b] |- _ => destruct (Z.ltb_spec a b)
          end; simpl in *);
  try lia; try discriminate.

(** X1: between two refills the bucket hands out at most [max] tokens:
    for a limiter whose count is within bounds, of a run of [get_delay]
    calls of which only the first may start a new window, at most [max]
    take a token. *)
Theorem window_hands_out_at_most_max (s : GatewayRatelimiter) (t : Z) (ts : list Z) :
  bucket_ok s ->
  same_window (snd (get_delay s t)) ts = true ->
  (Z.of_nat (tokens_taken s (t :: ts)) <= max s)%Z.
Proof. apply tokens_taken_in_window. Qed.

Lemma window_hands_out_at_most_max_witness :
  (Z.of_nat (tokens_taken (init 2 10) [100; 101; 102; 110]) <= 2)%Z.
Proof.
  apply (window_hands_out_at_most_max (init 2 10) 100 [101; 102; 110]).
  - unfold bucket_ok. simpl. lia.
  - reflexivity.
Defined.

(** X2: [is_ratelimited] and [get_delay] agree away from the last instant
    of the window.  For a limiter of positive capacity with its count
    within bounds: when [is_ratelimited] answers False, [get_delay] at the
    same clock reading returns a zero delay; when it answers True strictly
    before the end of the window, [get_delay] returns a positive delay,
    namely the time left in the window, and changes nothing. *)
Theorem is_ratelimited_agrees_with_get_delay (s : GatewayRatelimiter) (t : Z) :
  bucket_ok s -> 0 < max s ->
  (is_ratelimited s t = false -> fst (get_delay s t) = 0)
  /\ (is_ratelimited s t = true -> t < window s + per s ->
      get_delay s t = (window s + per s - t, s) /\ 0 < window s + per s - t).
Proof.
  intros Hok Hmax. unfold bucket_ok in Hok. destruct s as [m r w p].
  split.
  - intros H. crush_limiter.
  - intros H Ht. split; [|simpl in *; lia]. crush_limiter; f_equal; lia.
Qed.

Lemma is_ratelimited_agrees_with_get_delay_witness :
  let s := {| max := 2; remaining := 0; window := 100; per := 10 |} in
  get_delay s 104 = (6, s) /\ fst (get_delay s 111) = 0.
Proof.
  intros s.
  destruct (is_ratelimited_agrees_with_get_delay s 104) as [_ H1];
    [unfold bucket_ok; simpl; lia | simpl; lia |].
  destruct (is_ratelimited_agrees_with_get_delay s 111) as [H2 _];
    [unfold bucket_ok; simpl; lia | simpl; lia |].
  split.
  - apply H1; [reflexivity | simpl; lia].
  - apply H2. reflexivity.
Defined.

(** X3: away from the last instant of the window, the delay [get_delay]
    returns is never negative and never longer than the window: for a
    limiter with its count within bounds and a window of non-negative
    length, at a clock reading that is not behind the window start and
    is not the instant [window + per] itself.  (At that instant the
    answer is [per - (current - window)] for [current = window + per],
    which is 0 here, where clock readings are exact.) *)
Theorem delay_within_window (s : GatewayRatelimiter) (t : Z) :
  bucket_ok s -> 0 <= per s -> window s <= t ->
  t <> window s + per s ->
  0 <= fst (get_delay s t) <= per s.
Proof.
  intros Hok Hp Ht Hne. unfold bucket_ok in Hok. destruct s as [m r w p].
  crush_limiter.
Qed.

Lemma delay_within_window_witness :
  0 <= fst (get_delay {| max := 2; remaining := 0; window := 100; per := 10 |} 104)
    <= 10.
Proof.
  apply (delay_within_window {| max := 2; remaining := 0; window := 100; per := 10 |} 104).
  - unfold bucket_ok. simpl. lia.
  - simpl. lia.
  - simpl. lia.
  - simpl. lia.
Defined.

(** Calls that find tokens left, none of them the last one, inside the
    window: each is admitted at once and the window does not move. *)
Lemma burst_tail ts : forall s,
  remaining s = Z.of_nat (length ts) -> remaining s < max s ->
  (forall t, t ∈ ts -> t <= window s + per s) ->
  delays s ts = repeat 0 (length ts)
  /\ remaining (run s (OpGetDelay <$> ts)) = 0
  /\ max (run s (OpGetDelay <$> ts)) = max s
  /\ per (run s (OpGetDelay <$> ts)) = per s
  /\ window (run s (OpGetDelay <$> ts)) = List.last ts (window s).
Proof.
  induction ts as [|t ts IH]; intros s Hr Hm Hin.
  - simpl in *. repeat split; assumption.
  - assert (Ht : t <= window s + per s) by (apply Hin; left).
    assert (Hne : remaining s <> 0) by (simpl length in Hr; lia).
    cbn [delays fmap list_fmap run fold_left step].
    rewrite (get_delay_take s t Ht Hne). cbn [fst snd].
    destruct ts as [|t' ts].
    + simpl in *. replace (remaining s =? 1) with true by (symmetry; apply Z.eqb_eq; lia).
      rewrite orb_true_r. repeat split; try reflexivity. lia.
    + assert (Hw : (remaining s =? max s) || (remaining s =? 1) = false).
      { apply orb_false_iff. split; apply Z.eqb_neq; [lia|].
        simpl length in Hr. lia. }
      rewrite Hw.
      set (s1 := {| max := max s; remaining := remaining s - 1;
                    window := window s; per := per s |}).
      destruct (IH s1) as (Hd & H0 & Hmx & Hpr & Hwd).
      * subst s1. simpl in *. lia.
      * subst s1. simpl. lia.
      * intros u Hu. subst s1. simpl. apply Hin. by right.
      * change (run s1 (OpGetDelay <$> t' :: ts))
          with (fold_left step (OpGetDelay <$> t' :: ts) s1) in *.
        change (delays s1 (t' :: ts)) with (delays s1 (t' :: ts)) in Hd.
        repeat split.
        -- simpl length. simpl repeat. f_equal. exact Hd.
        -- exact H0.
        -- exact Hmx.
        -- exact Hpr.
        -- exact Hwd.
Qed.

(** X4: a burst that uses up a fresh limiter.  A limiter of capacity [n]
    (at least 1) is called [n] times, every call after the first no later
    than one window length after the first.  All [n] calls are admitted
    with a zero delay; the bucket is then empty and the window restarts at
    the last of them, so that a further call made less than one window
    length after the last is told to wait until exactly one window length
    after it. *)
Theorem burst_empties_fresh_limiter (p t1 : Z) (ts : list Z) (t : Z) :
  (forall u, u ∈ ts -> u <= t1 + p) ->
  let n := Z.of_nat (S (length ts)) in
  let s := run (init n p) (OpGetDelay <$> t1 :: ts) in
  let last_call := List.last ts t1 in
  delays (init n p) (t1 :: ts) = repeat 0 (S (length ts))
  /\ remaining s = 0
  /\ window s = last_call
  /\ (t < last_call + p ->
      get_delay s t = (last_call + p - t, s) /\ 0 < last_call + p - t).
Proof.
  intros Hin n s last_call.
  assert (E1 : get_delay (init n p) t1
               = (0, {| max := n; remaining := n - 1; window := t1; per := p |})).
  { subst n. unfold init. crush_limiter; try reflexivity; f_equal; f_equal; lia. }
  set (s1 := {| max := n; remaining := n - 1; window := t1; per := p |}) in *.
  destruct (burst_tail ts s1) as (Hd & H0 & Hmx & Hpr & Hwd).
  - subst s1 n. simpl. lia.
  - subst s1. simpl. lia.
  - intros u Hu. subst s1. simpl. by apply Hin.
  - assert (Hs : s = run s1 (OpGetDelay <$> ts)).
    { subst s. cbn [fmap list_fmap run fold_left step]. rewrite E1. reflexivity. }
    split; [|split; [|split]].
    + cbn [delays]. rewrite E1. cbn [fst snd]. simpl repeat. f_equal. exact Hd.
    + rewrite Hs. exact H0.
    + rewrite Hs. exact Hwd.
    + intros Ht. split; [|lia].
      assert (Hw : window s = last_call) by (rewrite Hs; exact Hwd).
      assert (Hp : per s = p) by (rewrite Hs; exact Hpr).
      assert (Hr : remaining s = 0) by (rewrite Hs; exact H0).
      assert (Hm : max s = n) by (rewrite Hs; exact Hmx).
      rewrite (get_delay_exhausted s t); [| lia | exact Hr | subst n; lia].
      rewrite Hw, Hp. reflexivity.
Qed.

Lemma burst_empties_fresh_limiter_witness :
  delays (init 3 1000) [5000; 5100; 5400] = [0; 0; 0]
  /\ fst (get_delay (run (init 3 1000) (OpGetDelay <$> [5000; 5100; 5400])) 5500) = 900.
Proof.
  destruct (burst_empties_fresh_limiter 1000 5000 [5100; 5400] 5500)
    as (Hd & _ & _ & Hnext).
  - intros u Hu. repeat (apply elem_of_cons in Hu as [->|Hu]; [lia|]).
    by apply elem_of_nil in Hu.
  - split; [exact Hd|].
    destruct Hnext as [Hg _]; [simpl; lia|].
    exact (f_equal fst Hg).
Defined.

End RateLimiterMore.

(** * Further properties of the registry of waiters *)

Section RegistryMore.
Import Py Gateway.

Lemma with_futures_same s : with_futures (futures s) s = s.
Proof. destruct s; reflexivity. Qed.

Lemma with_listeners_same s : with_listeners (_dispatch_listeners s) s = s.
Proof. destruct s; reflexivity. Qed.

Lemma sweep_app ev data l1 : forall l2 futs,
  sweep ev data (l1 ++ l2) futs =
    match sweep ev data l1 futs with
    | (Ok k1, futs1) =>
        match sweep ev data l2 futs1 with
        | (Ok k2, futs2) => (Ok (k1 ++ k2), futs2)
        | (Raise e, futs2) => (Raise e, futs2)
        end
    | (Raise e, futs1) => (Raise e, futs1)
    end.
Proof.
  induction l1 as [|a l1 IH]; intros l2 futs; simpl.
  - destruct (sweep ev data l2 futs) as [[k|e] f]; reflexivity.
  - destruct (visit ev data a futs) as [[b|e] f1]; [|reflexivity].
    rewrite IH.
    destruct (sweep ev data l1 f1) as [[k1|e] f2]; [|reflexivity].
    destruct (sweep ev data l2 f2) as [[k2|e] f3]; [|reflexivity].
    destruct b; reflexivity.
Qed.

Lemma sweep_sublist ev data entries : forall futs kept futs',
  sweep ev data entries futs = (Ok kept, futs') -> sublist kept entries.
Proof.
  induction entries as [|a l IH]; intros futs kept futs' H; simpl in H.
  - injection H as <- <-. constructor.
  - destruct (visit ev data a futs) as [[b|e] f1]; [|discriminate].
    destruct (sweep ev data l f1) as [[k|e] f2] eqn:Hs; [|discriminate].
    injection H as <- <-.
    destruct b; [apply sublist_cons|apply sublist_skip]; eauto.
Qed.

Lemma sweep_none ev data entries : forall futs,
  (forall w, w ∈ entries -> event w <> ev) ->
  sweep ev data entries futs = (Ok entries, futs).
Proof.
  induction entries as [|a l IH]; intros futs H; simpl; [reflexivity|].
  rewrite visit_other_event by (apply H; left).
  rewrite IH by (intros w Hw; apply H; right; exact Hw).
  reflexivity.
Qed.

(** X5: the two loops of [_remove_dispatched_listeners] (record the
    indices in one pass, then delete them from the highest down) leave
    exactly the entries whose index was not recorded, in their order; the
    deletions never run out of range, so the method raises only what a
    [result] callable or a future raises while the entries are visited,
    and then the list is as it was. *)
Theorem remove_dispatched_listeners_deletes_recorded (ev : string)
    (data : json) (s : WebSocket) :
  match sweep ev data (_dispatch_listeners s) (futures s) with
  | (Ok kept, futs) =>
      _remove_dispatched_listeners ev data s
        = (Ok tt, with_listeners kept (with_futures futs s))
      /\ sublist kept (_dispatch_listeners s)
  | (Raise e, futs) =>
      _remove_dispatched_listeners ev data s = (Raise e, with_futures futs s)
      /\ _dispatch_listeners (_remove_dispatched_listeners ev data s).2
           = _dispatch_listeners s
  end.
Proof.
  rewrite dispatch_is_sweep.
  destruct (sweep ev data (_dispatch_listeners s) (futures s))
    as [[kept|e] futs] eqn:Hs.
  - split; [reflexivity|]. eapply sweep_sublist; eassumption.
  - split; reflexivity.
Qed.

(** X6: an event for which no waiter is registered changes nothing:
    dispatching it returns normally with the gateway, its listeners and
    its futures exactly as they were. *)
Theorem dispatch_without_waiter_changes_nothing (ev : string) (data : json)
    (s : WebSocket) :
  (forall w, w ∈ _dispatch_listeners s -> event w <> ev) ->
  _remove_dispatched_listeners ev data s = (Ok tt, s).
Proof.
  intros H. rewrite dispatch_is_sweep, sweep_none by exact H.
  rewrite with_futures_same, with_listeners_same. reflexivity.
Qed.

Lemma dispatch_without_waiter_changes_nothing_witness :
  let s := (wait_for "KLINE_UPDATE" (fun _ => Ok true) None
              (init Examples.open_socket ∅ 0)).2 in
  _remove_dispatched_listeners "TICKER_UPDATE" (JNum 1) s = (Ok tt, s).
Proof.
  intros s.
  apply (dispatch_without_waiter_changes_nothing "TICKER_UPDATE" (JNum 1) s).
  intros w Hw. vm_compute in Hw.
  apply list_elem_of_singleton in Hw. subst w. simpl. discriminate.
Defined.

(** X7: a waiter whose predicate answers false for the data of its event
    is passed over: whatever the other waiters do (and even when the
    dispatch raises), it is still registered afterwards and its future is
    still pending. *)
Theorem unmet_waiter_stays_registered (s : WebSocket) (w : EventListener)
    (data : json) :
  registry_ok s ->
  live w s ->
  predicate w data = Ok false ->
  live w (_remove_dispatched_listeners (event w) data s).2.
Proof.
  intros (Hnd & _ & _) [Hin Hp] Hpred.
  destruct (registered_split w s Hnd Hin) as (l1 & l2 & Hl & H1 & H2).
  assert (Hv : forall futs, futs !! future w = Some Pending ->
            visit (event w) data w futs = (Ok false, futs)).
  { intros futs Hf. unfold visit, cancelled.
    rewrite String.eqb_refl, Hf, Hpred. reflexivity. }
  assert (Hpre : (sweep (event w) data l1 (futures s)).2 !! future w
                 = Some Pending).
  { rewrite sweep_other; [exact Hp|].
    intros e He Hf. exfalso. apply H1. rewrite <- Hf.
    apply list_elem_of_fmap_2. exact He. }
  rewrite dispatch_is_sweep, Hl.
  change (l1 ++ w :: l2) with (l1 ++ [w] ++ l2).
  rewrite sweep_app.
  destruct (sweep (event w) data l1 (futures s)) as [[k1|e] f1] eqn:Hs1;
    simpl in Hpre.
  - simpl. rewrite (Hv f1 Hpre).
    assert (Hpost : (sweep (event w) data l2 f1).2 !! future w = Some Pending).
    { rewrite sweep_other; [exact Hpre|].
      intros e He Hf. exfalso. apply H2. rewrite <- Hf.
      apply list_elem_of_fmap_2. exact He. }
    destruct (sweep (event w) data l2 f1) as [[k2|e] f2]; simpl in Hpost |- *.
    + split; simpl; [|exact Hpost].
      apply elem_of_app. right. left.
    + split; simpl; [|exact Hpost]. rewrite Hl.
      apply elem_of_app. right. left.
  - split; simpl; [|exact Hpre]. rewrite Hl.
    apply elem_of_app. right. left.
Qed.

Lemma unmet_waiter_stays_registered_witness :
  let w := {| predicate := fun d => match d with JNum 2 => Ok true | _ => Ok false end;
              event := "TICKER_UPDATE"; result := None; future := 0 |} in
  let s := (wait_for (event w) (predicate w) None
              (init Examples.open_socket ∅ 0)).2 in
  live w (_remove_dispatched_listeners (event w) (JNum 1) s).2.
Proof.
  intros w s.
  apply (unmet_waiter_stays_registered s w (JNum 1)).
  - apply (registry_ok_apply_op _ (OpWaitFor (event w) (predicate w) None)).
    apply registry_ok_init.
  - split; [|vm_compute; reflexivity].
    apply list_elem_of_singleton. reflexivity.
  - reflexivity.
Defined.

(** X8: the invariant of the registry holds in every state a gateway
    can reach: from a new gateway on a loop whose future addresses from
    [loop_next] on are unused, whatever waiters are registered, events
    dispatched and futures cancelled, in any order and whether or not a
    dispatch raises, no two registered waiters hold the same future and
    every registered future is one the loop has created. *)
Theorem registry_ok_in_reachable_states (sock : Socket)
    (loop_futures : gmap nat future_state) (loop_next : nat)
    (ops : list op) :
  (forall f, (loop_next <= f)%nat -> loop_futures !! f = None) ->
  registry_ok (apply_ops (init sock loop_futures loop_next) ops).
Proof.
  intros Hfresh. apply registry_ok_apply_ops.
  unfold registry_ok; simpl. split; [constructor|]. split.
  - intros f Hf. inversion Hf.
  - exact Hfresh.
Qed.

Lemma registry_ok_in_reachable_states_witness :
  registry_ok
    (apply_ops (init Examples.open_socket {[ 0%nat := Finished JNull ]} 1)
       [OpWaitFor "TICKER_UPDATE" (fun _ => Ok true) None;
        OpCancel 1; OpDispatch "TICKER_UPDATE" (JNum 3)]).
Proof.
  apply (registry_ok_in_reachable_states Examples.open_socket
           {[ 0%nat := Finished JNull ]} 1).
  intros f Hf. apply lookup_singleton_ne. lia.
Defined.

End RegistryMore.

(** * Further properties of sending, closing and polling *)

Section SendMore.
Import Py Gateway Setup.

Lemma send_open data now rl s :
  rate_limiter s = Some rl -> closed (socket s) = false ->
  send data now s =
    (Ok tt,
     with_trace
       (trace s ++ (RateLimiter.block rl now).1
          ++ [Dispatched "socket_raw_send"; SocketSendStr data])
       (with_rate_limiter (Some (RateLimiter.block rl now).2) s)).
Proof.
  intros Hrl Hopen.
  unfold send, bind, rate_limiter_block, emit, modify, socket_write.
  rewrite Hrl. destruct (RateLimiter.block rl now) as [effects rl'].
  simpl. rewrite Hopen. unfold emit, modify, with_trace; simpl.
  rewrite <- !app_assoc. reflexivity.
Qed.

Lemma send_closed data now rl s :
  rate_limiter s = Some rl -> closed (socket s) = true ->
  send data now s =
    (Raise OSError,
     with_trace
       (trace s ++ (RateLimiter.block rl now).1
          ++ [Dispatched "socket_raw_send"])
       (with_rate_limiter (Some (RateLimiter.block rl now).2) s)).
Proof.
  intros Hrl Hclosed.
  unfold send, bind, rate_limiter_block, emit, modify, socket_write.
  rewrite Hrl. destruct (RateLimiter.block rl now) as [effects rl'].
  simpl. rewrite Hclosed. unfold with_trace; simpl.
  rewrite <- !app_assoc. reflexivity.
Qed.

Lemma block_effects rl now :
  exists mid,
    (RateLimiter.block rl now).1 = LockAcquire :: mid ++ [LockRelease]
    /\ writes mid = []
    /\ forall passed t, writes_gated passed (mid ++ t) = writes_gated passed t.
Proof.
  unfold RateLimiter.block.
  destruct (RateLimiter.get_delay rl now) as [delta rl']. simpl.
  destruct (delta =? 0).
  - exists []. repeat split.
  - eexists [_; _]. repeat split.
Qed.

Lemma writes_app t1 t2 : writes (t1 ++ t2) = writes t1 ++ writes t2.
Proof. unfold writes. apply List.filter_app. Qed.

Lemma writes_gated_send rl now data passed t :
  writes_gated passed
    ((RateLimiter.block rl now).1
       ++ [Dispatched "socket_raw_send"; SocketSendStr data] ++ t)
  = writes_gated false t.
Proof.
  destruct (block_effects rl now) as (mid & -> & _ & Hmid).
  simpl. rewrite <- app_assoc, Hmid. reflexivity.
Qed.

Lemma writes_send rl now data t :
  writes
    ((RateLimiter.block rl now).1
       ++ [Dispatched "socket_raw_send"; SocketSendStr data] ++ t)
  = SocketSendStr data :: writes t.
Proof.
  destruct (block_effects rl now) as (mid & -> & Hmid & _).
  change (LockAcquire :: mid ++ [LockRelease])
    with ([LockAcquire] ++ mid ++ [LockRelease]).
  rewrite !writes_app, Hmid. reflexivity.
Qed.

(** X9: on an open socket, a gateway that has a rate limiter sends any
    sequence of messages with [send] without raising; the socket is
    written once per message, in the order given, every write behind a
    critical section of the limiter of its own, and the limiter ends in
    the state that one [block] per message, at the times of the sends,
    leaves it in. *)
Theorem sends_written_in_order_behind_limiter (msgs : list (string * Z))
    (s : WebSocket) (rl : RateLimiter.GatewayRatelimiter) :
  rate_limiter s = Some rl ->
  closed (socket s) = false ->
  exists s' t,
    send_each msgs s = (Ok tt, s')
    /\ trace s' = trace s ++ t
    /\ writes_gated false t = true
    /\ writes t = (fun m => SocketSendStr m.1) <$> msgs
    /\ rate_limiter s'
       = Some (RateLimiter.run rl (RateLimiter.OpBlock <$> msgs.*2))
    /\ socket s' = socket s.
Proof.
  revert s rl. induction msgs as [|[data now] msgs IH]; intros s rl Hrl Hopen.
  - exists s, []. simpl. rewrite app_nil_r. repeat split. exact Hrl.
  - cbn [send_each]. unfold bind at 1.
    rewrite (send_open data now rl s Hrl Hopen).
    set (s1 := with_trace _ _).
    destruct (IH s1 (RateLimiter.block rl now).2 eq_refl Hopen)
      as (s' & t & Hrun & Htr & Hg & Hw & Hl & Hsock).
    exists s', ((RateLimiter.block rl now).1
                 ++ [Dispatched "socket_raw_send"; SocketSendStr data] ++ t).
    split; [exact Hrun|]. split.
    { rewrite Htr. subst s1. simpl. rewrite <- !app_assoc. reflexivity. }
    split; [rewrite writes_gated_send; exact Hg|].
    split; [rewrite writes_send, Hw; reflexivity|].
    split; [exact Hl|exact Hsock].
Qed.

Lemma sends_written_in_order_behind_limiter_witness :
  exists s' t,
    send_each [("a", 10); ("b", 10); ("c", 11)]%string Examples.binance_ws
      = (Ok tt, s')
    /\ trace s' = trace Examples.binance_ws ++ t
    /\ writes_gated false t = true
    /\ writes t = [SocketSendStr "a"; SocketSendStr "b"; SocketSendStr "c"]
    /\ rate_limiter s'
       = Some (RateLimiter.run (RateLimiter.init 5 1)
                 [RateLimiter.OpBlock 10; RateLimiter.OpBlock 10;
                  RateLimiter.OpBlock 11])
    /\ socket s' = socket Examples.binance_ws.
Proof.
  exact (sends_written_in_order_behind_limiter
           [("a", 10); ("b", 10); ("c", 11)]%string Examples.binance_ws
           (RateLimiter.init 5 1) eq_refl eq_refl).
Defined.

(** X10: [from_client] never returns a Bitmex gateway.  The Bitmex
    constructor keeps its limiter in [_rate_limiter], so the
    [send_as_json] of [connect] fails on [self.rate_limiter.block()] with
    [AttributeError]; by then [connect] has written the subscription to
    the socket, past the limiter, and it has not read from the socket. *)
Theorem bitmex_from_client_fails (to_json : json -> string) (now : Z)
    (ev : received) (sock : Socket)
    (client_parsers : gmap string (json -> completion unit))
    (heartbeat_timeout : option Z)
    (loop_futures : gmap nat future_state) (loop_next : nat) :
  closed sock = false ->
  let r := from_client bitmex_init
             (bitmex_connect to_json JNull (JNum 0) now ev)
             sock client_parsers heartbeat_timeout loop_futures loop_next in
  r.1 = Raise AttributeError
  /\ trace r.2
     = [Logged "Created websocket";
        SocketSendJson
          (JList [JNum 0; JNull; JStr "xbtusdt";
                  JDict [("op", JStr "subscribe");
                         ("args", JList [JStr ":XBTUSDT"])]])]%string.
Proof.
  intros Hopen r. subst r.
  unfold from_client, bitmex_connect, bitmex_init, init, bind, emit, modify,
    Bitmex.subscribe, socket_write, send_as_json, send, rate_limiter_block.
  simpl. rewrite Hopen. simpl. repeat split.
Qed.

Lemma bitmex_from_client_fails_witness :
  (from_client bitmex_init
     (bitmex_connect (fun _ => "[1,null,0]"%string) JNull (JNum 0) 5
        (Message TEXT (Encodes (JDict []))))
     Examples.open_socket State.parsers (Some 6) ∅ 0).1
  = Raise AttributeError.
Proof.
  exact (proj1 (bitmex_from_client_fails (fun _ => "[1,null,0]"%string) 5
                  (Message TEXT (Encodes (JDict [])))
                  Examples.open_socket State.parsers (Some 6) ∅ 0 eq_refl)).
Defined.

(** X11: [send_as_json] on a socket that is already closed.  The write
    raises [ConnectionResetError], which is no [RuntimeError]: the
    [except] clause of [send_as_json] does not catch it, so whatever the
    close code the message is neither dropped silently nor turned into
    [ConnectionClosed]; the exception leaves [send_as_json] as it is, an
    [OSError] that the [connect] loop of the client handles.  By then the
    token of the rate limiter is taken and [socket_raw_send] is
    dispatched; nothing is written. *)
Theorem send_as_json_on_closed_socket (to_json : json -> string)
    (data : json) (now : Z) (s : WebSocket)
    (rl : RateLimiter.GatewayRatelimiter) :
  rate_limiter s = Some rl ->
  closed (socket s) = true ->
  exists s',
    send_as_json to_json data now s = (Raise OSError, s')
    /\ writes (trace s') = writes (trace s)
    /\ Dispatched "socket_raw_send" ∈ trace s'
    /\ rate_limiter s' = Some (RateLimiter.get_delay rl now).2
    /\ Client.connect_catches OSError = true.
Proof.
  intros Hrl Hclosed. unfold send_as_json.
  rewrite (send_closed _ now rl s Hrl Hclosed).
  set (s1 := with_trace _ _).
  exists s1. split; [reflexivity|].
  subst s1. simpl. split.
  { destruct (block_effects rl now) as (mid & -> & Hmid & _).
    change (LockAcquire :: mid ++ [LockRelease])
      with ([LockAcquire] ++ mid ++ [LockRelease]).
    rewrite !writes_app, Hmid. simpl. rewrite app_nil_r. reflexivity. }
  split.
  { apply elem_of_app. right. apply elem_of_app. right. left. }
  split; [|reflexivity].
  f_equal. unfold RateLimiter.block.
  destruct (RateLimiter.get_delay rl now). reflexivity.
Qed.

Lemma send_as_json_on_closed_socket_witness :
  let s := with_socket {| closed := true; close_code := Some 1000;
                          close_error := None; close_reply := None |}
             Examples.binance_ws in
  exists s',
    send_as_json (fun _ => "{}"%string) (JDict []) 3 s = (Raise OSError, s')
    /\ writes (trace s') = [].
Proof.
  intros s.
  destruct (send_as_json_on_closed_socket (fun _ => "{}"%string) (JDict []) 3
              s (RateLimiter.init 5 1) eq_refl eq_refl)
    as (s' & Hr & Hw & _).
  exists s'. split; [exact Hr|exact Hw].
Defined.

Lemma block_when_not_limited rl now :
  RateLimiter.bucket_ok rl -> 0 < RateLimiter.max rl ->
  RateLimiter.is_ratelimited rl now = false ->
  (RateLimiter.block rl now).1 = [LockAcquire; LockRelease].
Proof.
  unfold RateLimiter.bucket_ok, RateLimiter.is_ratelimited, RateLimiter.block,
    RateLimiter.get_delay, RateLimiter.refill, RateLimiter.set_remaining,
    RateLimiter.set_window.
  intros Hb Hmax Hl. destruct rl as [m r w p]. simpl in *.
  destruct (Z.ltb_spec (w + p) now); simpl in *.
  - destruct (Z.eqb_spec m m); [|contradiction]. simpl.
    destruct (Z.eqb_spec m 0); [lia|]. reflexivity.
  - destruct (Z.eqb_spec r 0); [discriminate|].
    destruct (Z.eqb_spec r m); simpl;
      (destruct (Z.eqb_spec r 0); [contradiction|reflexivity]).
Qed.

Lemma block_when_limited rl now :
  RateLimiter.bucket_ok rl -> 0 < RateLimiter.max rl ->
  RateLimiter.is_ratelimited rl now = true ->
  now < RateLimiter.window rl + RateLimiter.per rl ->
  (RateLimiter.block rl now).1
  = [LockAcquire; Logged "WebSocket is ratelimited";
     Sleep (RateLimiter.window rl + RateLimiter.per rl - now); LockRelease]
  /\ (RateLimiter.block rl now).2 = rl.
Proof.
  unfold RateLimiter.bucket_ok, RateLimiter.is_ratelimited, RateLimiter.block,
    RateLimiter.get_delay, RateLimiter.refill, RateLimiter.set_remaining,
    RateLimiter.set_window.
  intros Hb Hmax Hl Hin. destruct rl as [m r w p]. simpl in *.
  destruct (Z.ltb_spec (w + p) now); [discriminate|]. simpl in *.
  apply Z.eqb_eq in Hl. subst r.
  destruct (Z.eqb_spec 0 m); [lia|]. simpl.
  destruct (Z.eqb_spec (p - (now - w)) 0); [lia|].
  replace (p - (now - w)) with (w + p - now) by lia.
  split; reflexivity.
Qed.

(** X26: what [is_ws_ratelimited] tells about the next [send].  For a
    client whose gateway has a limiter with a positive capacity and a
    token count within it, on an open socket: if [is_ws_ratelimited]
    answers false, a [send] at that instant passes the limiter without
    sleeping and writes the message; if it answers true strictly before
    the end of the window, the [send] sleeps for exactly the rest of the
    window, takes no token, and then writes the message all the same. *)
Theorem is_ws_ratelimited_predicts_send (c : ClientLifecycle.Client)
    (w : WebSocket) (rl : RateLimiter.GatewayRatelimiter) (now : Z)
    (data : string) :
  ClientLifecycle.ws c = Some w ->
  rate_limiter w = Some rl ->
  RateLimiter.bucket_ok rl ->
  0 < RateLimiter.max rl ->
  closed (socket w) = false ->
  (ClientLifecycle.is_ws_ratelimited now c = Ok false ->
   exists w',
     send data now w = (Ok tt, w')
     /\ trace w' = trace w ++ [LockAcquire; LockRelease;
                               Dispatched "socket_raw_send"; SocketSendStr data])
  /\ (ClientLifecycle.is_ws_ratelimited now c = Ok true ->
      now < RateLimiter.window rl + RateLimiter.per rl ->
      exists w',
        send data now w = (Ok tt, w')
        /\ trace w'
           = trace w ++ [LockAcquire; Logged "WebSocket is ratelimited";
                         Sleep (RateLimiter.window rl + RateLimiter.per rl - now);
                         LockRelease;
                         Dispatched "socket_raw_send"; SocketSendStr data]
        /\ rate_limiter w' = Some rl).
Proof.
  intros Hws Hrl Hb Hmax Hopen.
  unfold ClientLifecycle.is_ws_ratelimited, is_ratelimited.
  rewrite Hws, Hrl. rewrite (send_open data now rl w Hrl Hopen).
  split.
  - intros H. injection H as H.
    eexists. split; [reflexivity|]. simpl.
    rewrite (block_when_not_limited rl now Hb Hmax H). reflexivity.
  - intros H Hin. injection H as H.
    destruct (block_when_limited rl now Hb Hmax H Hin) as [He Hs].
    eexists. split; [reflexivity|]. simpl. rewrite He, Hs.
    split; reflexivity.
Qed.

Lemma is_ws_ratelimited_predicts_send_witness :
  let rl := {| RateLimiter.max := 5; RateLimiter.remaining := 0;
               RateLimiter.window := 10; RateLimiter.per := 1 |} in
  let w := with_rate_limiter (Some rl) Examples.binance_ws in
  let c := {| ClientLifecycle.ws := Some w; ClientLifecycle.http := None;
              ClientLifecycle._closed := false;
              ClientLifecycle._ready := false |} in
  ClientLifecycle.is_ws_ratelimited 9 c = Ok true
  /\ trace (send "ping" 9 w).2
     = [LockAcquire; Logged "WebSocket is ratelimited"; Sleep 2; LockRelease;
        Dispatched "socket_raw_send"; SocketSendStr "ping"].
Proof.
  intros rl w c. split; [reflexivity|].
  destruct (proj2 (is_ws_ratelimited_predicts_send c w rl 9 "ping"
                     eq_refl eq_refl ltac:(unfold RateLimiter.bucket_ok; simpl; lia)
                     ltac:(simpl; lia) eq_refl) eq_refl ltac:(simpl; lia))
    as (w' & Hsend & Htr & _).
  rewrite Hsend. exact Htr.
Defined.

End SendMore.

Section PollMore.
Import Py Gateway.

Lemma py_or_idem a b : py_or (py_or a b) b = py_or a b.
Proof.
  destruct a as [c|]; simpl; [|destruct b as [d|]; simpl].
  - destruct (Z.eqb_spec c 0) as [->|Hc]; simpl.
    + destruct b as [d|]; simpl; [|reflexivity].
      destruct (d =? 0); reflexivity.
    + destruct (Z.eqb_spec c 0); [contradiction|reflexivity].
  - destruct (d =? 0); reflexivity.
  - reflexivity.
Qed.

Lemma stop_keep_alive_eq s :
  stop_keep_alive s =
    (Ok tt,
     match _keep_alive s with
     | Some a => with_keep_alive None
                   (with_threads (alter KeepAlive.stop a (threads s)) s)
     | None => s
     end).
Proof. reflexivity. Qed.

Lemma poll_event_closure received_message ty data s :
  ty ∈ [CLOSED; CLOSING; CLOSE] ->
  poll_event received_message (Message ty data) s =
    (let s1 := with_trace (trace s ++ [Logged "Received"]) s in
     let s2 := (stop_keep_alive s1).2 in
     if _can_handle_close s then
       (Raise ReconnectWebSocket,
        with_trace
          (trace s2 ++ [Logged "Websocket closed, attempting a reconnect."]) s2)
     else
       (Raise (ConnectionClosed (py_or (_close_code s) (close_code (socket s)))),
        with_trace
          (trace s2 ++ [Logged "Websocket closed, cannot reconnect."]) s2)).
Proof.
  intros Hty.
  assert (Hb : poll_event received_message (Message ty data) s
               = poll_event received_message (Message CLOSED data) s).
  { rewrite !elem_of_cons in Hty.
    destruct Hty as [->|[->|[->|Hty]]]; [reflexivity..|inversion Hty]. }
  rewrite Hb. clear Hb Hty.
  unfold poll_event. cbn [bind emit modify raise]. cbv zeta.
  unfold bind at 1. rewrite stop_keep_alive_eq. cbn [snd].
  set (s1 := with_trace _ s).
  set (s2 := match _keep_alive s1 with Some _ => _ | None => _ end).
  assert (Hsame : _can_handle_close s2 = _can_handle_close s
                  /\ _close_code s2 = _close_code s
                  /\ socket s2 = socket s).
  { subst s2 s1. simpl. destruct (_keep_alive s); repeat split. }
  destruct Hsame as (Hc & Hcode & Hsock).
  rewrite Hc, Hcode, Hsock, py_or_idem.
  destruct (_can_handle_close s); reflexivity.
Qed.

(** X12: when the socket delivers a close message ([CLOSE], [CLOSING] or
    [CLOSED]) or times out, [poll_event] never hands anything to
    [received_message] and never returns normally.  It stops the
    keep-alive handler and forgets it, leaves waiters and futures alone,
    and raises [ReconnectWebSocket], except for a close whose code
    ([_close_code], or else the close code of the socket) is a terminal
    one: then it raises [ConnectionClosed] with that code. *)
Theorem poll_event_closure_or_timeout
    (received_message : frame -> M unit) (ev : received) (s : WebSocket) :
  ev = ReceiveTimeout
  \/ (exists ty data, ev = Message ty data /\ ty ∈ [CLOSED; CLOSING; CLOSE]) ->
  exists s',
    poll_event received_message ev s
      = (Raise (match ev with
                | ReceiveTimeout => ReconnectWebSocket
                | _ => if _can_handle_close s then ReconnectWebSocket
                       else ConnectionClosed
                              (py_or (_close_code s) (close_code (socket s)))
                end), s')
    /\ _keep_alive s' = None
    /\ threads s' = match _keep_alive s with
                    | Some a => alter KeepAlive.stop a (threads s)
                    | None => threads s
                    end
    /\ _dispatch_listeners s' = _dispatch_listeners s
    /\ futures s' = futures s
    /\ socket s' = socket s.
Proof.
  intros [->|(ty & data & -> & Hty)].
  - unfold poll_event. cbn [raise]. unfold bind at 1.
    rewrite stop_keep_alive_eq. unfold bind, emit, modify, raise.
    eexists. split; [reflexivity|].
    destruct s as [sock ka ps ls hb cc rl th fu nf tr]; simpl.
    destruct ka; repeat split.
  - rewrite (poll_event_closure received_message ty data s Hty).
    cbv zeta. rewrite stop_keep_alive_eq.
    destruct s as [sock ka ps ls hb cc rl th fu nf tr].
    destruct (_can_handle_close _); eexists; (split; [reflexivity|]);
      simpl; destruct ka; repeat split.
Qed.

Lemma poll_event_closure_or_timeout_witness :
  exists s',
    poll_event (Binance.received_message 4)
      (Message CLOSED (Malformed "x")) (with_close_code (Some 4004) Examples.binance_ws)
      = (Raise (ConnectionClosed (Some 4004)), s').
Proof.
  destruct (poll_event_closure_or_timeout (Binance.received_message 4)
              (Message CLOSED (Malformed "x"))
              (with_close_code (Some 4004) Examples.binance_ws))
    as (s' & Hr & _).
  { right. exists CLOSED, (Malformed "x"). split; [reflexivity|]. left. }
  exists s'. exact Hr.
Defined.

(** X13: what [close(code)] leads to.  Once [close] has returned for a
    non-zero code, the close message that the socket delivers next makes
    [poll_event] raise [ConnectionClosed] carrying that code when the code
    is terminal (as the 1000 of the client's [close]), and
    [ReconnectWebSocket] when it is not (as the 4000 of the keep-alive
    handler and of the default), whatever close code the socket itself
    reports. *)
Theorem close_decides_the_closure (code : Z)
    (received_message : frame -> M unit) (ty : WSMsgType) (data : frame)
    (s s1 : WebSocket) :
  close code s = (Ok tt, s1) ->
  code <> 0 ->
  ty ∈ [CLOSED; CLOSING; CLOSE] ->
  (poll_event received_message (Message ty data) s1).1
    = Raise (if bool_decide (code ∈ terminal_codes)
             then ConnectionClosed (Some code)
             else ReconnectWebSocket).
Proof.
  intros Hclose Hcode Hty.
  destruct (close_effects code s) as (c & s' & Heq & Hcc & _).
  rewrite Hclose in Heq. injection Heq as <- <-.
  rewrite (poll_event_closure received_message ty data s1 Hty).
  cbv zeta. unfold _can_handle_close. rewrite Hcc. simpl.
  destruct (Z.eqb_spec code 0) as [?|_]; [contradiction|].
  destruct (bool_decide (code ∈ terminal_codes)); reflexivity.
Qed.

Lemma close_decides_the_closure_witness :
  (poll_event (Binance.received_message 9) (Message CLOSE (Malformed "x"))
     (close 1000 Examples.binance_ws).2).1
  = Raise (ConnectionClosed (Some 1000)).
Proof.
  apply (close_decides_the_closure 1000 (Binance.received_message 9) CLOSE
           (Malformed "x") Examples.binance_ws
           (close 1000 Examples.binance_ws).2).
  - reflexivity.
  - lia.
  - right. right. left.
Defined.

End PollMore.

(** * Further properties of the keep-alive thread *)

Section KeepAliveMore.
Import Py Gateway Setup.

Lemma close_writes code s :
  writes (trace (close code s).2) = writes (trace s).
Proof.
  destruct (close_effects code s) as (c & s' & Heq & _ & _ & Htr & _).
  rewrite Heq. simpl. rewrite Htr. unfold writes.
  rewrite List.filter_app. simpl. apply app_nil_r.
Qed.

Lemma run_iteration_stops a now s :
  exists c s', run_iteration a now s = (c, s')
    /\ c <> Ok true
    /\ writes (trace s') = writes (trace s).
Proof.
  unfold run_iteration.
  destruct (threads s !! a) as [self|]; [|eexists _, _; repeat split; discriminate].
  destruct (KeepAlive._stop_ev self); [eexists _, _; repeat split; discriminate|].
  destruct (KeepAlive.stale now self); [|eexists _, _; repeat split; discriminate].
  eexists _, _. split; [reflexivity|]. split; [discriminate|].
  set (s1 := with_trace _ s).
  assert (H1 : writes (trace s1) = writes (trace s)).
  { subst s1. simpl. unfold writes. rewrite List.filter_app. simpl.
    apply app_nil_r. }
  pose proof (close_writes 4000 s1) as Hc.
  destruct (close 4000 s1) as [[u|e] s2]; simpl in *.
  - rewrite Hc. exact H1.
  - unfold writes in *. rewrite List.filter_app. simpl.
    rewrite app_nil_r, Hc. exact H1.
Qed.

(** X14: the keep-alive thread never sends a heartbeat.  Whatever the
    state of the gateway and the times at which the loop of [run] wakes
    up, the body of the loop is entered at most once (what [run] does
    depends on the first wake-up only), and [run] sends nothing on the
    socket: the trace gains no [send_str] and no [send_json]. *)
Theorem keep_alive_never_writes (a : nat) (s : WebSocket) :
  (forall now later, run a (now :: later) s = run a [now] s)
  /\ (forall ticks, writes (trace (run a ticks s).2) = writes (trace s)).
Proof.
  assert (Hone : forall now later, run a (now :: later) s = run a [now] s).
  { intros now later. cbn [run]. unfold bind.
    destruct (run_iteration_stops a now s) as (c & s' & Heq & Hc & _).
    rewrite Heq. destruct c as [[|]|e]; [contradiction|reflexivity..]. }
  split; [exact Hone|].
  intros [|now later]; [reflexivity|].
  rewrite Hone. cbn [run]. unfold bind.
  destruct (run_iteration_stops a now s) as (c & s' & Heq & Hc & Hw).
  rewrite Heq. destruct c as [[|]|e]; [contradiction|exact Hw..].
Qed.

(** X15: closing the gateway ends its keep-alive thread.  Once [close]
    has run, whether the socket closed or raised, the [run] loop of the
    handler the gateway had returns at its next wake-up without doing
    anything. *)
Theorem close_ends_keep_alive_thread (code : Z) (a : nat)
    (self : KeepAlive.KeepAliveHandler) (ticks : list Z) (s : WebSocket) :
  _keep_alive s = Some a ->
  threads s !! a = Some self ->
  run a ticks (close code s).2 = (Ok tt, (close code s).2).
Proof.
  intros Hka Hth.
  destruct (close_effects code s) as (c & s' & Heq & _ & _ & _ & Hthreads & _).
  rewrite Heq. simpl. rewrite Hka in Hthreads.
  destruct (alter_stop_stopped (threads s) a self Hth) as (self' & Hs' & Hstop).
  rewrite <- Hthreads in Hs'.
  destruct ticks as [|now later]; [reflexivity|].
  cbn [run]. unfold bind, run_iteration. rewrite Hs', Hstop. reflexivity.
Qed.

Lemma close_ends_keep_alive_thread_witness :
  let self := {| KeepAlive.interval := Some 5; KeepAlive._stop_ev := false;
                 KeepAlive._last_ack := 0; KeepAlive._last_send := 0;
                 KeepAlive._last_recv := 10; KeepAlive.latency := None;
                 KeepAlive.heartbeat_timeout := 6 |} in
  let s := with_keep_alive (Some 0%nat)
             (with_threads {[ 0%nat := self ]} Examples.binance_ws) in
  run 0 [12; 40] (close 1000 s).2 = (Ok tt, (close 1000 s).2).
Proof.
  intros self s.
  apply (close_ends_keep_alive_thread 1000 0 self [12; 40] s).
  - reflexivity.
  - apply lookup_singleton_eq.
Defined.

End KeepAliveMore.

(** * Further properties of the message handlers *)

Section MessagesMore.
Import Py Gateway.

Lemma split_kline suffix :
  Str.split "@" suffix = [suffix] ->
  Str.split "@" ("kline" ++ suffix) = ["kline" ++ suffix]%string.
Proof.
  intros H.
  change ("kline" ++ suffix)%string
    with (String "k" (String "l" (String "i" (String "n" (String "e" suffix))))).
  simpl. rewrite H. reflexivity.
Qed.

Lemma keep_alive_tick_eq now s :
  keep_alive_tick now s = (Ok tt, (keep_alive_tick now s).2).
Proof. reflexivity. Qed.

Lemma keep_alive_tick_parsers now s :
  parsers (keep_alive_tick now s).2 = parsers s.
Proof. unfold keep_alive_tick, modify. simpl. destruct (_keep_alive s); reflexivity. Qed.

(** The [try] around the parser lookup of the Binance handler. *)
Lemma binance_stream_steps now symbol topic data s :
  Str.split "@" symbol = [symbol] ->
  Str.split "@" topic = [topic] ->
  Binance.received_message now
    (Encodes (JDict [("stream", JStr (symbol ++ "@" ++ topic));
                     ("data", data)]))%string s
  = (let* ev := lift (Binance.event_type_name
                        (if negb (Str.contains "kline" topic) then topic
                         else Str.drop_last 3 topic)) in
     let* _ :=
       (fun s => match parsers s !! ev with
                 | None => emit (Logged "Unknown event") s
                 | Some func => call_parser ev func data s
                 end) in
     _remove_dispatched_listeners ev data) (keep_alive_tick now s).2.
Proof.
  intros Hsym Htopic.
  unfold Binance.received_message, bind at 1 2, lift at 1 2.
  cbn [loads get assoc String.eqb Ascii.eqb Bool.eqb truthy].
  unfold bind at 1. rewrite keep_alive_tick_eq.
  unfold bind at 1, lift at 1. cbn [getitem assoc String.eqb Ascii.eqb Bool.eqb].
  unfold bind at 1, lift at 1, Binance.split_stream.
  change (symbol ++ "@" ++ topic)%string
    with (symbol ++ String "@" topic)%string.
  rewrite (split_before_sep "@" symbol topic Hsym), Htopic.
  cbn [snd]. unfold bind at 1, lift at 1.
  cbn [getitem assoc String.eqb Ascii.eqb Bool.eqb].
  reflexivity.
Qed.

(** X16: a Binance kline stream is recognised by the length of its
    interval suffix.  For a frame of the stream [<symbol>@kline<suffix>]:
    with a suffix of three characters (as [_1m], [_4h]) the frame is
    handled as the event [KLINE_UPDATE]: the keep-alive handler is
    ticked, the parser of the event, if there is one, is called on the
    data, and the waiters are dispatched to; with a suffix of any other
    length (as [_15m], [_12h]) the handler raises [ValueError] once the
    keep-alive handler is ticked, calling no parser and serving no
    waiter. *)
Theorem binance_kline_suffix_length (now : Z) (symbol suffix : string)
    (data : json) (s : WebSocket) :
  Str.split "@" symbol = [symbol] ->
  Str.split "@" suffix = [suffix] ->
  let frame :=
    Encodes (JDict [("stream", JStr (symbol ++ "@" ++ "kline" ++ suffix));
                    ("data", data)])%string in
  let s1 := (keep_alive_tick now s).2 in
  (String.length suffix = 3%nat ->
   Binance.received_message now frame s
   = (let* _ :=
        (fun s => match parsers s !! "KLINE_UPDATE"%string with
                  | None => emit (Logged "Unknown event") s
                  | Some func => call_parser "KLINE_UPDATE" func data s
                  end) in
      _remove_dispatched_listeners "KLINE_UPDATE" data) s1)
  /\ (String.length suffix <> 3%nat ->
      Binance.received_message now frame s = (Raise ValueError, s1)).
Proof.
  intros Hsym Hsuf frame s1. subst frame s1.
  rewrite (binance_stream_steps now symbol _ data s Hsym (split_kline _ Hsuf)).
  set (s1 := (keep_alive_tick now s).2).
  change ("kline" ++ suffix)%string
    with (String "k" (String "l" (String "i" (String "n" (String "e" suffix))))).
  assert (Hk : Str.contains "kline"
                 (String "k" (String "l" (String "i" (String "n" (String "e" suffix)))))
               = true) by (destruct suffix; reflexivity).
  rewrite Hk. cbn [negb]. split.
  - intros Hlen.
    destruct suffix as [|a [|b [|c [|d rest]]]]; try discriminate.
    reflexivity.
  - intros Hlen.
    destruct suffix as [|a [|b [|c [|d rest]]]];
      [reflexivity| reflexivity | reflexivity | contradiction |].
    unfold Str.drop_last. simpl String.length. simpl Nat.sub.
    simpl String.substring.
    unfold bind, lift, Binance.event_type_name. simpl. reflexivity.
Qed.

Lemma binance_kline_suffix_length_witness :
  Binance.received_message 3
    (Encodes (JDict [("stream", JStr "bnbbtc@kline_15m");
                     ("data", JDict [("E", JNum 1)])]))%string
    Examples.binance_ws
  = (Raise ValueError, Examples.binance_ws).
Proof.
  refine (eq_trans
            (proj2 (binance_kline_suffix_length 3 "bnbbtc" "_15m"
                      (JDict [("E", JNum 1)])%string Examples.binance_ws
                      eq_refl eq_refl) _) _).
  - simpl. lia.
  - reflexivity.
Defined.

Lemma parser_step_registry ev data s c s' :
  match parsers s !! ev with
  | None => emit (Logged "Unknown event") s
  | Some func => call_parser ev func data s
  end = (c, s') ->
  _dispatch_listeners s' = _dispatch_listeners s /\ futures s' = futures s.
Proof.
  unfold call_parser, bind, emit, modify, lift.
  destruct (parsers s !! ev) as [func|]; simpl.
  - destruct (func data); intros H; injection H as <- <-; split; reflexivity.
  - intros H; injection H as <- <-; split; reflexivity.
Qed.

(** X17: from registration to completion on the Binance gateway.  A
    caller registers a waiter for the event of a depth, ticker or trade
    stream; when a frame of such a stream arrives whose data the
    predicate accepts and [received_message] returns, the future that
    [wait_for] returned is done with the data of the frame as its result,
    and the waiter is no longer registered: whether or not the
    connection state has a parser for the event. *)
Theorem binance_frame_completes_waiter (s : WebSocket) (now : Z)
    (symbol topic ev : string) (data : json)
    (pred : json -> completion bool) (s3 : WebSocket) :
  registry_ok s ->
  Str.split "@" symbol = [symbol] ->
  Str.contains "kline" topic = false ->
  Binance.event_type_name topic = Ok ev ->
  pred data = Ok true ->
  Binance.received_message now
    (Encodes (JDict [("stream", JStr (symbol ++ "@" ++ topic));
                     ("data", data)]))%string
    (wait_for ev pred None s).2 = (Ok tt, s3) ->
  (wait_for ev pred None s).1 = Ok (next_future s)
  /\ futures s3 !! next_future s = Some (Finished data)
  /\ (next_future s ∉ (future <$> _dispatch_listeners s3)).
Proof.
  intros (Hnd & Hlt & Hfresh) Hsym Hkline Hev Hpred Hrun.
  split; [rewrite wait_for_eq; reflexivity|].
  assert (Htopic : Str.split "@" topic = [topic]).
  { unfold Binance.event_type_name in Hev.
    repeat match type of Hev with
           | context [String.eqb topic ?k] =>
               destruct (String.eqb_spec topic k) as [->|_]; [reflexivity|]
           end.
    discriminate. }
  rewrite (binance_stream_steps now symbol topic data _ Hsym Htopic) in Hrun.
  rewrite Hkline in Hrun. cbn [negb] in Hrun.
  unfold bind at 1, lift at 1 in Hrun. rewrite Hev in Hrun.
  set (s1 := (keep_alive_tick now (wait_for ev pred None s).2).2) in Hrun.
  set (w := {| predicate := pred; event := ev; result := None;
               future := next_future s |}).
  assert (Hs1 : _dispatch_listeners s1 = _dispatch_listeners s ++ [w]
                /\ futures s1 = <[next_future s := Pending]> (futures s)).
  { subst s1. rewrite wait_for_eq. unfold keep_alive_tick, modify. simpl.
    destruct (_keep_alive s); split; reflexivity. }
  destruct Hs1 as [Hl1 Hf1].
  unfold bind at 1 in Hrun.
  destruct (match parsers s1 !! ev with
            | None => emit (Logged "Unknown event") s1
            | Some func => call_parser ev func data s1
            end) as [[u|e] s2] eqn:Hstep; [|discriminate].
  apply parser_step_registry in Hstep as [Hl2 Hf2].
  rewrite dispatch_is_sweep, Hl2, Hf2, Hl1, Hf1 in Hrun.
  destruct (sweep ev data (_dispatch_listeners s ++ [w])
              (<[next_future s := Pending]> (futures s)))
    as [[kept|e] futs'] eqn:Hsweep; [|discriminate].
  injection Hrun as <-. simpl.
  assert (Hnew : next_future s ∉ (future <$> _dispatch_listeners s)).
  { intros Hin. apply Hlt in Hin. lia. }
  destruct (sweep_completes data w [] (_dispatch_listeners s)
              (<[next_future s := Pending]> (futures s)) kept futs')
    as (v & Hv & Hdone & Hgone).
  - exact Hpred.
  - apply lookup_insert_eq.
  - exact Hnew.
  - simpl. apply not_elem_of_nil.
  - exact Hsweep.
  - injection Hv as <-. split; [exact Hdone|exact Hgone].
Qed.

Lemma binance_frame_completes_waiter_witness :
  let s := Examples.binance_ws in
  let r := Binance.received_message 2
             (Encodes (JDict [("stream", JStr "bnbbtc@trade");
                              ("data", JNum 7)]))%string
             (wait_for "TRADE_UPDATE" (fun _ => Ok true) None s).2 in
  parsers s !! "TRADE_UPDATE"%string = None
  /\ futures r.2 !! 0%nat = Some (Finished (JNum 7))
  /\ (0%nat ∉ (future <$> _dispatch_listeners r.2)).
Proof.
  intros s r. split; [reflexivity|].
  refine (proj2 (binance_frame_completes_waiter s 2 "bnbbtc" "trade"
                   "TRADE_UPDATE" (JNum 7) (fun _ => Ok true) r.2
                   _ eq_refl eq_refl eq_refl eq_refl _)).
  - unfold registry_ok; simpl. split; [constructor|].
    split; [intros f Hf; inversion Hf|reflexivity].
  - vm_compute. reflexivity.
Defined.

Lemma bitmex_frame_steps now op a b more fields table action data s :
  Bitmex.eq_int op Bitmex.UNSUBSCRIBE = false ->
  assoc "success" fields = None ->
  assoc "table" fields = Some (JStr table) ->
  assoc "action" fields = Some (JStr action) ->
  assoc "data" fields = Some data ->
  Bitmex.received_message now
    (Encodes (JList (op :: a :: b :: JDict fields :: more))) s
  = (let ev := (Str.upper table ++ "_" ++ Str.upper action)%string in
     let* data :=
       (fun s =>
          match parsers s !! ev with
          | None => (let* _ := emit (Logged "Unknown event") in ret data) s
          | Some func => Bitmex.handle_entries ev func data s
          end) in
     _remove_dispatched_listeners ev data) (keep_alive_tick now s).2.
Proof.
  intros Hop Hsucc Htable Haction Hdata.
  unfold Bitmex.received_message, bind at 1 2 3 4, lift at 1 2 3.
  cbn [loads Bitmex.index lookup list_lookup].
  rewrite keep_alive_tick_eq, Hop.
  destruct (Bitmex.eq_int op Bitmex.MESSAGE);
    [unfold Bitmex.contains; rewrite Hsucc | unfold ret];
    unfold bind, lift; cbn [getitem]; rewrite Htable, Haction, Hdata;
    cbn [Bitmex.upper]; reflexivity.
Qed.

(** X18: a Bitmex frame for whose event no parser is registered reaches
    the waiters with the data as received: [received_message] ticks the
    keep-alive handler, logs the unknown event and dispatches the event
    with the [data] of the payload, whatever kind of value that is.  (With
    a parser, the same frame is dispatched with the emptied list.) *)
Theorem bitmex_frame_without_parser (now : Z) (op a b : json)
    (more : list json) (fields : list (string * json))
    (table action : string) (data : json) (s : WebSocket) :
  Bitmex.eq_int op Bitmex.UNSUBSCRIBE = false ->
  assoc "success" fields = None ->
  assoc "table" fields = Some (JStr table) ->
  assoc "action" fields = Some (JStr action) ->
  assoc "data" fields = Some data ->
  parsers s !! (Str.upper table ++ "_" ++ Str.upper action)%string = None ->
  let ev := (Str.upper table ++ "_" ++ Str.upper action)%string in
  let s1 := (keep_alive_tick now s).2 in
  Bitmex.received_message now
    (Encodes (JList (op :: a :: b :: JDict fields :: more))) s
  = _remove_dispatched_listeners ev data
      (with_trace (trace s1 ++ [Logged "Unknown event"]) s1).
Proof.
  intros Hop Hsucc Htable Haction Hdata Hnone ev s1.
  rewrite (bitmex_frame_steps now op a b more fields table action data s)
    by assumption.
  cbv zeta. fold ev. fold s1. unfold bind at 1.
  assert (Hp : parsers s1 !! ev = None).
  { subst s1. rewrite keep_alive_tick_parsers. exact Hnone. }
  rewrite Hp. reflexivity.
Qed.

Lemma bitmex_frame_without_parser_witness :
  let s := (wait_for "TRADE_INSERT" (fun _ => Ok true) None Examples.bitmex_ws).2 in
  let r := Bitmex.received_message 9
             (Encodes (JList [JNum 0; JNull; JStr "xbtusd";
                              JDict [("table", JStr "trade");
                                     ("action", JStr "insert");
                                     ("data", JList [JNum 1; JNum 2])]]))%string s in
  r.1 = Ok tt /\ futures r.2 !! 0%nat = Some (Finished (JList [JNum 1; JNum 2])).
Proof.
  intros s r. subst r.
  rewrite (bitmex_frame_without_parser 9 (JNum 0) JNull (JStr "xbtusd") []
             [("table", JStr "trade"); ("action", JStr "insert");
              ("data", JList [JNum 1; JNum 2])]%string
             "trade" "insert" (JList [JNum 1; JNum 2]) s
             eq_refl eq_refl eq_refl eq_refl eq_refl eq_refl).
  vm_compute. split; reflexivity.
Defined.

(** X19: the Bitmex frames that end [received_message] early.  A frame
    that decodes to a list of fewer than four elements raises
    [IndexError], and one that decodes to an object raises [KeyError],
    both before the keep-alive handler is ticked, with the gateway
    untouched.  An unsubscribe notice (first element 2), and a message
    (first element 0) whose payload has the key [success], tick the
    keep-alive handler and log, and nothing more: no parser is called and
    no waiter is dispatched to. *)
Theorem bitmex_frames_that_end_early (now : Z) (s : WebSocket) :
  (forall items, (length items < 4)%nat ->
     Bitmex.received_message now (Encodes (JList items)) s
     = (Raise IndexError, s))
  /\ (forall fields,
        Bitmex.received_message now (Encodes (JDict fields)) s
        = (Raise (KeyErrorIndex 0), s))
  /\ (forall a b payload more,
        Bitmex.received_message now
          (Encodes (JList (JNum 2 :: a :: b :: payload :: more))) s
        = (Ok tt, with_trace
                    (trace (keep_alive_tick now s).2
                       ++ [Logged "topic unsubscribed"])
                    (keep_alive_tick now s).2))
  /\ (forall a b fields more v,
        assoc "success" fields = Some v ->
        Bitmex.received_message now
          (Encodes (JList (JNum 0 :: a :: b :: JDict fields :: more))) s
        = (Ok tt, with_trace
                    (trace (keep_alive_tick now s).2
                       ++ [Logged "topic subscribed"])
                    (keep_alive_tick now s).2)).
Proof.
  repeat split.
  - intros items Hlen.
    destruct items as [|x0 [|x1 [|x2 [|x3 rest]]]]; try reflexivity.
    simpl in Hlen. lia.
  - intros a b fields more v Hv.
    unfold Bitmex.received_message, bind, lift.
    cbn [loads Bitmex.index lookup list_lookup].
    rewrite keep_alive_tick_eq.
    cbn [Bitmex.eq_int Bitmex.UNSUBSCRIBE Bitmex.MESSAGE Z.eqb].
    unfold Bitmex.contains. rewrite Hv. reflexivity.
Qed.

Lemma bitmex_frames_that_end_early_witness :
  Bitmex.received_message 4 (Encodes (JList [JNum 0; JNull])) Examples.bitmex_ws
  = (Raise IndexError, Examples.bitmex_ws).
Proof.
  apply (proj1 (bitmex_frames_that_end_early 4 Examples.bitmex_ws)
           [JNum 0; JNull]).
  simpl. lia.
Defined.

End MessagesMore.

(** * The listeners of the client *)

Section ClientEventsFacts.
Import Py ClientEvents.

Lemma client_del_each_app i1 i2 l :
  del_each (i1 ++ i2) l =
    match del_each i1 l with
    | (Ok _, l') => del_each i2 l'
    | (Raise e, l') => (Raise e, l')
    end.
Proof.
  revert l. induction i1 as [|i i1 IH]; intros l; simpl; [reflexivity|].
  destruct (del_index i l); [apply IH | reflexivity].
Qed.

Lemma client_del_index_middle (pre : list (nat * condition)) e post :
  del_index (length pre) (pre ++ e :: post) = Ok (pre ++ post).
Proof.
  unfold del_index. rewrite bool_decide_eq_true_2.
  - f_equal. induction pre as [|x pre IH]; simpl; [reflexivity|].
    f_equal. exact IH.
  - rewrite length_app. simpl. lia.
Qed.

(** The loop over the listeners records, in increasing order, the
    positions of the listeners that [sweep] leaves out. *)
Lemma client_scan_sweep args entries : forall index pre futs removed,
  length pre = index ->
  match sweep args entries futs with
  | (Raise e, futs') => scan args index entries futs removed = (Raise e, futs')
  | (Ok kept, futs') =>
      exists extra,
        scan args index entries futs removed = (Ok (removed ++ extra), futs')
        /\ del_each (rev extra) (pre ++ entries) = (Ok tt, pre ++ kept)
        /\ (length extra + length kept = length entries)%nat
  end.
Proof.
  induction entries as [|entry rest IH]; intros index pre futs removed Hlen; simpl.
  - exists []. rewrite app_nil_r. repeat split.
  - destruct (visit args entry futs) as [[b|e] futs1]; [|reflexivity].
    specialize (IH (S index) (pre ++ [entry]) futs1
                  (if b then removed ++ [index] else removed)).
    rewrite length_app in IH. simpl in IH.
    specialize (IH ltac:(lia)).
    destruct (sweep args rest futs1) as [[kept|e] futs2]; [|exact IH].
    destruct IH as (extra & Hscan & Hdel & Hcount).
    rewrite <- !app_assoc in Hdel. simpl in Hdel.
    destruct b.
    + exists (index :: extra). split; [|split].
      * rewrite Hscan. rewrite <- app_assoc. reflexivity.
      * simpl. rewrite client_del_each_app, Hdel. simpl.
        subst index. rewrite client_del_index_middle. reflexivity.
      * simpl. lia.
    + exists extra. split; [exact Hscan|]. split; [exact Hdel|]. simpl. lia.
Qed.

Lemma client_dispatch_sweep ev args c :
  dispatch_listeners ev args c =
    match _listeners c !! ev with
    | Some (entry :: rest) =>
        match sweep args (entry :: rest) (futures c) with
        | (Ok kept, futs) =>
            (Ok tt,
             with_listeners
               (match kept with
                | [] => delete ev (_listeners c)
                | _ => <[ev := kept]> (_listeners c)
                end) (with_futures futs c))
        | (Raise e, futs) => (Raise e, with_futures futs c)
        end
    | _ => (Ok tt, c)
    end.
Proof.
  unfold dispatch_listeners.
  destruct (_listeners c !! ev) as [[|entry rest]|]; try reflexivity.
  pose proof (client_scan_sweep args (entry :: rest) 0%nat [] (futures c) []
                eq_refl) as H.
  destruct (sweep args (entry :: rest) (futures c)) as [[kept|e] futs].
  - destruct H as (extra & -> & Hdel & Hcount).
    cbn [app] in *. cbv zeta.
    destruct (Nat.eqb_spec (length extra) (length (entry :: rest))) as [Heq|Hne].
    + destruct kept; [reflexivity|]. simpl in *. lia.
    + rewrite Hdel. destruct kept; [simpl in *; lia|reflexivity].
  - rewrite H. reflexivity.
Qed.

Lemma client_sweep_sublist args entries : forall futs kept futs',
  sweep args entries futs = (Ok kept, futs') -> sublist kept entries.
Proof.
  induction entries as [|a l IH]; intros futs kept futs' H; simpl in H.
  - injection H as <- <-. constructor.
  - destruct (visit args a futs) as [[b|e] f1]; [|discriminate].
    destruct (sweep args l f1) as [[k|e] f2] eqn:Hs; [|discriminate].
    injection H as <- <-.
    destruct b; [apply sublist_cons|apply sublist_skip]; eauto.
Qed.


(** X20: the listener loop of the client's [dispatch] against its
    one-pass reading.  The listeners of the event are visited in order;
    the ones recorded in [removed] are taken out by deleting their
    indices from the highest down, which never runs out of range and
    leaves the others in their order; the event name is popped from
    [_listeners] exactly when no listener is left, so that no name ever
    maps to a list the loop has emptied.  When a future raises, the
    listeners are as they were. *)
Theorem client_dispatch_visits_then_deletes (ev : string) (args : list json)
    (c : Client) (entry : nat * condition) (rest : list (nat * condition)) :
  _listeners c !! ev = Some (entry :: rest) ->
  match sweep args (entry :: rest) (futures c) with
  | (Ok kept, futs) =>
      dispatch_listeners ev args c
        = (Ok tt,
           with_listeners
             (match kept with
              | [] => delete ev (_listeners c)
              | _ => <[ev := kept]> (_listeners c)
              end) (with_futures futs c))
      /\ sublist kept (entry :: rest)
  | (Raise e, futs) =>
      dispatch_listeners ev args c = (Raise e, with_futures futs c)
  end.
Proof.
  intros Hl. rewrite client_dispatch_sweep, Hl.
  destruct (sweep args (entry :: rest) (futures c)) as [[kept|e] futs] eqn:Hs.
  - split; [reflexivity|]. eapply client_sweep_sublist; eassumption.
  - reflexivity.
Qed.

Lemma client_dispatch_visits_then_deletes_witness :
  let c := (wait_for "ready" (Some (fun _ => Ok false))
              (wait_for "ready" None (init ∅)).2).2 in
  dispatch_listeners "ready" [] c
  = (Ok tt,
     with_listeners {[ "ready"%string := [(1%nat, fun _ => Ok false)] ]}
       (with_futures (<[0%nat := Gateway.Finished JNull]> (futures c)) c)).
Proof.
  intros c.
  pose proof (client_dispatch_visits_then_deletes "ready" [] c
                (0%nat, _check) [(1%nat, fun _ => Ok false)] eq_refl) as H.
  vm_compute sweep in H. destruct H as [H _].
  rewrite H. reflexivity.
Defined.

Lemma lower_char_idem ch : Str.lower_char (Str.lower_char ch) = Str.lower_char ch.
Proof.
  destruct ch as [[] [] [] [] [] [] [] []]; reflexivity.
Qed.

Lemma lower_idem ev : Str.lower (Str.lower ev) = Str.lower ev.
Proof.
  induction ev as [|ch ev IH]; simpl; [reflexivity|].
  rewrite lower_char_idem, IH. reflexivity.
Qed.

(** A visit touches no future but that of the listener visited. *)
Lemma client_visit_other args entry futs g :
  g <> entry.1 -> (visit args entry futs).2 !! g = futs !! g.
Proof.
  intros Hg. unfold visit, Gateway.cancelled, Gateway.set_result,
    Gateway.set_exception.
  repeat case_match; simplify_eq/=; try reflexivity;
    apply lookup_insert_ne; congruence.
Qed.


(** A visit of a listener whose future is pending or cancelled and whose
    check is tame returns, and touches no future at all when the listener
    is not recorded. *)
Lemma client_visit_ok args entry futs :
  waiting (futs !! entry.1) ->
  tame entry.2 ->
  exists b futs',
    visit args entry futs = (Ok b, futs')
    /\ (forall g, g <> entry.1 -> futs' !! g = futs !! g)
    /\ (b = false -> futs' = futs).
Proof.
  intros Hw Htame.
  pose proof (fun g Hg => client_visit_other args entry futs g Hg) as Hother.
  destruct Hw as [Hp|Hc]; unfold visit, Gateway.cancelled, Gateway.set_result,
    Gateway.set_exception in *.
  - rewrite Hp in *. destruct (entry.2 args) as [[|]|exc] eqn:Hk.
    + eexists _, _. split; [reflexivity|]. split; [exact Hother|discriminate].
    + eexists _, _. repeat split.
    + destruct (Htame args exc Hk) as [Hexc Hstop].
      rewrite Hexc in *.
      destruct exc; try contradiction;
        (eexists _, _; split; [reflexivity|]; split; [exact Hother|discriminate]).
  - rewrite Hc in *. eexists _, _. split; [reflexivity|].
    split; [exact Hother|reflexivity].
Qed.

Lemma client_sweep_ok args l : forall futs,
  NoDup l.*1 ->
  (forall f, f ∈ l.*1 -> waiting (futs !! f)) ->
  (forall k, k ∈ l.*2 -> tame k) ->
  exists kept futs',
    sweep args l futs = (Ok kept, futs')
    /\ sublist kept l
    /\ (forall g, g ∉ l.*1 -> futs' !! g = futs !! g)
    /\ (forall f, f ∈ kept.*1 -> futs' !! f = futs !! f).
Proof.
  induction l as [|a l IH]; intros futs Hnd Hw Htame.
  - exists [], futs. split; [reflexivity|]. split; [constructor|].
    split; [reflexivity|]. intros f Hf. inversion Hf.
  - rewrite ?fmap_cons in Hnd. apply NoDup_cons in Hnd as [Ha Hnd].
    destruct (client_visit_ok args a futs) as (b & futs1 & Hv & Hother & Hsame).
    { apply Hw. rewrite ?fmap_cons. left. }
    { apply Htame. rewrite ?fmap_cons. left. }
    destruct (IH futs1 Hnd) as (kept & futs' & Hs & Hsub & Hout & Hkept).
    { intros f Hf. rewrite Hother; [apply Hw; rewrite ?fmap_cons; by right|].
      intros ->. contradiction. }
    { intros k Hk. apply Htame. rewrite ?fmap_cons. by right. }
    simpl. rewrite Hv, Hs.
    eexists _, futs'. split; [reflexivity|]. split; [|split].
    + destruct b; [apply sublist_cons|apply sublist_skip]; exact Hsub.
    + intros g Hg. rewrite ?fmap_cons in Hg.
      apply not_elem_of_cons in Hg as [Hga Hgl].
      rewrite Hout by exact Hgl. apply Hother. exact Hga.
    + intros f Hf.
      assert (Hin : f ∈ kept.*1 -> f ∈ l.*1).
      { intros H. eapply elem_of_sublist; [exact H|].
        apply fmap_sublist. exact Hsub. }
      destruct b.
      * rewrite Hkept by exact Hf. apply Hother.
        intros ->. apply Ha. apply Hin. exact Hf.
      * rewrite (Hsame eq_refl) in *.
        rewrite ?fmap_cons in Hf. apply elem_of_cons in Hf as [->|Hf].
        -- apply Hout. exact Ha.
        -- apply Hkept. exact Hf.
Qed.

Lemma client_ok_init attrs : client_ok (init attrs).
Proof.
  unfold client_ok, init; simpl. repeat split; intros; simplify_map_eq.
Qed.

Lemma check_default_tame : tame _check.
Proof. intros args e H. discriminate. Qed.

Lemma client_ok_wait_for ev check c :
  tame_op (OpWaitFor ev check) ->
  client_ok c -> client_ok (wait_for ev check c).2.
Proof.
  intros Htame (H1 & H2 & H3). unfold client_ok, wait_for.
  cbn [snd _listeners futures next_future].
  set (f := next_future c).
  set (chk := match check with None => _check | Some k => k end).
  assert (Hchk : tame chk).
  { subst chk. destruct check; [exact Htame|exact check_default_tame]. }
  set (old := match _listeners c !! Str.lower ev with Some l => l | None => [] end).
  assert (Hold : forall g, g ∈ old.*1 -> (g < f)%nat).
  { intros g Hg. subst old.
    destruct (_listeners c !! Str.lower ev) as [l|] eqn:El; [|inversion Hg].
    apply (H2 _ _ _ El Hg). }
  assert (Hnd : NoDup old.*1).
  { subst old. destruct (_listeners c !! Str.lower ev) as [l|] eqn:El;
      [apply (H1 _ _ El)|constructor]. }
  assert (Holdtame : forall k, k ∈ old.*2 -> tame k).
  { intros k Hk. subst old.
    destruct (_listeners c !! Str.lower ev) as [l|] eqn:El; [|inversion Hk].
    apply (H1 _ _ El). exact Hk. }
  split; [|split].
  - intros ev' l Hl.
    destruct (decide (ev' = Str.lower ev)) as [->|Hne].
    + rewrite lookup_insert_eq in Hl. injection Hl as <-.
      split; [destruct old; discriminate|]. split; [apply lower_idem|].
      split.
      * rewrite fmap_app. apply NoDup_app. split; [exact Hnd|]. split.
        -- intros g Hg Hg'. simpl in Hg'. apply list_elem_of_singleton in Hg'.
           subst g. apply Hold in Hg. lia.
        -- simpl. apply NoDup_singleton.
      * intros k Hk. rewrite fmap_app in Hk. apply elem_of_app in Hk as [Hk|Hk].
        -- apply Holdtame. exact Hk.
        -- simpl in Hk. apply list_elem_of_singleton in Hk. subst k. exact Hchk.
    + rewrite lookup_insert_ne in Hl by congruence. apply (H1 _ _ Hl).
  - intros ev' l g Hl Hg.
    assert (Hcase : (g < f)%nat /\ waiting (futures c !! g) \/ g = f).
    { destruct (decide (ev' = Str.lower ev)) as [->|Hne].
      - rewrite lookup_insert_eq in Hl. injection Hl as <-.
        rewrite fmap_app in Hg. apply elem_of_app in Hg as [Hg|Hg].
        + left. subst old.
          destruct (_listeners c !! Str.lower ev) as [l|] eqn:El; [|inversion Hg].
          apply (H2 _ _ _ El Hg).
        + right. simpl in Hg. apply list_elem_of_singleton in Hg. exact Hg.
      - rewrite lookup_insert_ne in Hl by congruence. left.
        apply (H2 _ _ _ Hl Hg). }
    destruct Hcase as [[Hlt Hw]| ->].
    + split; [lia|]. rewrite lookup_insert_ne by lia. exact Hw.
    + split; [lia|]. left. apply lookup_insert_eq.
  - intros ev1 ev2 l1 l2 g Hne Hl1 Hl2 Hg1 Hg2.
    assert (Hreg : forall ev' l, ev' <> Str.lower ev ->
              _listeners c !! ev' = Some l -> f ∉ l.*1).
    { intros ev' l _ Hl Hin. apply (H2 _ _ _ Hl) in Hin as [Hlt _]. lia. }
    destruct (decide (ev1 = Str.lower ev)) as [->|Hne1].
    + rewrite lookup_insert_eq in Hl1. injection Hl1 as <-.
      rewrite lookup_insert_ne in Hl2 by congruence.
      rewrite fmap_app in Hg1. apply elem_of_app in Hg1 as [Hg1|Hg1].
      * subst old.
        destruct (_listeners c !! Str.lower ev) as [l|] eqn:El; [|inversion Hg1].
        exact (H3 _ _ _ _ _ Hne El Hl2 Hg1 Hg2).
      * simpl in Hg1. apply list_elem_of_singleton in Hg1. subst g.
        eapply Hreg; [|exact Hl2|exact Hg2]. congruence.
    + rewrite lookup_insert_ne in Hl1 by congruence.
      destruct (decide (ev2 = Str.lower ev)) as [->|Hne2].
      * rewrite lookup_insert_eq in Hl2. injection Hl2 as <-.
        rewrite fmap_app in Hg2. apply elem_of_app in Hg2 as [Hg2|Hg2].
        -- subst old.
           destruct (_listeners c !! Str.lower ev) as [l|] eqn:El; [|inversion Hg2].
           exact (H3 _ _ _ _ _ Hne Hl1 El Hg1 Hg2).
        -- simpl in Hg2. apply list_elem_of_singleton in Hg2. subst g.
           eapply Hreg; [|exact Hl1|exact Hg1]. exact Hne1.
      * rewrite lookup_insert_ne in Hl2 by congruence.
        exact (H3 _ _ _ _ _ Hne Hl1 Hl2 Hg1 Hg2).
Qed.

Lemma client_ok_cancel g c : client_ok c -> client_ok (cancel g c).
Proof.
  intros (H1 & H2 & H3). unfold cancel.
  destruct (futures c !! g) as [[| | |]|] eqn:Eg; try (split; [|split]; assumption).
  split; [exact H1|]. split; [|exact H3].
  intros ev l f Hl Hf. simpl in *.
  destruct (H2 _ _ _ Hl Hf) as [Hlt Hw]. split; [exact Hlt|].
  destruct (decide (f = g)) as [->|Hne].
  - right. apply lookup_insert_eq.
  - rewrite lookup_insert_ne by congruence. exact Hw.
Qed.

(** The listeners after the loop: the kept ones under the event, the
    others as they were. *)
Lemma client_listeners_after (m : gmap string (list (nat * condition)))
    ev kept ev' l :
  (match kept with
   | [] => delete ev m
   | _ => <[ev := kept]> m
   end) !! ev' = Some l ->
  (ev' = ev /\ l = kept /\ kept <> []) \/ (ev' <> ev /\ m !! ev' = Some l).
Proof.
  intros Hl. destruct (decide (ev' = ev)) as [->|Hne].
  - left. destruct kept as [|k kept'].
    + rewrite lookup_delete_eq in Hl. discriminate.
    + rewrite lookup_insert_eq in Hl. injection Hl as <-.
      repeat split. discriminate.
  - right. split; [exact Hne|]. destruct kept.
    + rewrite lookup_delete_ne in Hl by congruence. exact Hl.
    + rewrite lookup_insert_ne in Hl by congruence. exact Hl.
Qed.

Lemma client_ok_dispatch_listeners ev args c :
  client_ok c ->
  exists c',
    dispatch_listeners ev args c = (Ok tt, c')
    /\ client_ok c'
    /\ attributes c' = attributes c
    /\ scheduled c' = scheduled c.
Proof.
  intros Hok. pose proof Hok as (H1 & H2 & H3).
  rewrite client_dispatch_sweep.
  destruct (_listeners c !! ev) as [[|entry rest]|] eqn:El;
    try (exists c; split; [reflexivity|]; split; [exact Hok|];
         split; reflexivity).
  destruct (client_sweep_ok args (entry :: rest) (futures c))
    as (kept & futs' & Hs & Hsub & Hout & Hkept).
  { apply (H1 _ _ El). }
  { intros f Hf. apply (H2 _ _ _ El Hf). }
  { apply (H1 _ _ El). }
  rewrite Hs. eexists. split; [reflexivity|]. split; [|split; reflexivity].
  assert (Hin : forall f, f ∈ kept.*1 -> f ∈ (entry :: rest).*1).
  { intros f H. eapply elem_of_sublist; [exact H|].
    apply fmap_sublist. exact Hsub. }
  unfold client_ok. cbn [with_listeners with_futures _listeners futures next_future].
  split; [|split].
  - intros ev' l Hl.
    apply client_listeners_after in Hl as [(-> & -> & Hne)|(Hne & Hl)].
    + split; [exact Hne|]. split; [apply (H1 _ _ El)|]. split.
      * eapply sublist_NoDup; [apply (H1 _ _ El)|apply fmap_sublist; exact Hsub].
      * intros k Hk. apply (H1 _ _ El).
        eapply elem_of_sublist; [exact Hk|]. apply fmap_sublist. exact Hsub.
    + apply (H1 _ _ Hl).
  - intros ev' l f Hl Hf.
    apply client_listeners_after in Hl as [(-> & -> & Hne)|(Hne & Hl)].
    + rewrite Hkept by exact Hf. apply (H2 _ _ _ El). apply Hin. exact Hf.
    + rewrite Hout; [apply (H2 _ _ _ Hl Hf)|].
      intros Hf'. exact (H3 _ _ _ _ _ Hne Hl El Hf Hf').
  - intros ev1 ev2 l1 l2 f Hne Hl1 Hl2 Hf1 Hf2.
    apply client_listeners_after in Hl1 as [(-> & -> & _)|(Hne1 & Hl1)];
      apply client_listeners_after in Hl2 as [(-> & -> & _)|(Hne2 & Hl2)].
    + congruence.
    + apply Hin in Hf1. exact (H3 _ _ _ _ _ Hne El Hl2 Hf1 Hf2).
    + apply Hin in Hf2. exact (H3 _ _ _ _ _ Hne Hl1 El Hf1 Hf2).
    + exact (H3 _ _ _ _ _ Hne Hl1 Hl2 Hf1 Hf2).
Qed.

Lemma client_ok_dispatch ev args c :
  client_ok c ->
  exists c',
    dispatch ev args c = (Ok tt, c')
    /\ client_ok c'
    /\ scheduled c'
       = scheduled c
           ++ (if bool_decide (("on_" ++ ev)%string ∈ attributes c)
               then [(("on_" ++ ev)%string, args)] else []).
Proof.
  intros Hok. unfold dispatch.
  destruct (client_ok_dispatch_listeners ev args c Hok)
    as (c' & -> & Hok' & Hattr & Hsched).
  rewrite Hattr.
  destruct (bool_decide (("on_" ++ ev)%string ∈ attributes c)).
  - eexists. split; [reflexivity|]. split; [exact Hok'|].
    simpl. rewrite Hsched. reflexivity.
  - exists c'. split; [reflexivity|]. split; [exact Hok'|].
    rewrite Hsched, app_nil_r. reflexivity.
Qed.

Lemma client_ok_apply_op c o :
  tame_op o -> client_ok c -> client_ok (apply_op c o).
Proof.
  intros Htame Hok. destruct o as [ev check|ev args|g]; simpl.
  - apply client_ok_wait_for; assumption.
  - destruct (client_ok_dispatch ev args c Hok) as (c' & -> & Hok' & _).
    exact Hok'.
  - apply client_ok_cancel. exact Hok.
Qed.

Lemma client_ok_apply_ops ops : forall c,
  Forall tame_op ops -> client_ok c -> client_ok (apply_ops c ops).
Proof.
  induction ops as [|o ops IH]; intros c Htame Hok; simpl; [exact Hok|].
  apply Forall_cons in Htame as [Ho Hops].
  apply IH; [exact Hops|]. apply client_ok_apply_op; assumption.
Qed.

Lemma client_attributes_dispatch ev args c :
  attributes (dispatch ev args c).2 = attributes c.
Proof.
  assert (H : attributes (dispatch_listeners ev args c).2 = attributes c).
  { rewrite client_dispatch_sweep.
    destruct (_listeners c !! ev) as [[|entry rest]|]; try reflexivity.
    destruct (sweep args (entry :: rest) (futures c)) as [[kept|e] futs];
      reflexivity. }
  unfold dispatch.
  destruct (dispatch_listeners ev args c) as [[u|e] c']; simpl in *;
    [|exact H].
  destruct (bool_decide (("on_" ++ ev)%string ∈ attributes c')); exact H.
Qed.

Lemma client_attributes_apply_ops ops : forall c,
  attributes (apply_ops c ops) = attributes c.
Proof.
  induction ops as [|o ops IH]; intros c; simpl; [reflexivity|].
  rewrite IH. destruct o as [e k|e a|g]; simpl.
  - reflexivity.
  - apply client_attributes_dispatch.
  - unfold cancel. destruct (futures c !! g) as [[| | |]|]; reflexivity.
Qed.

(** X21: the client's [dispatch] returns as long as the checks are tame.
    From a new client on, whatever waiters are registered with
    [wait_for], with no check or with a check that raises nothing but
    instances of [Exception] other than [StopIteration], whatever events
    are dispatched and futures cancelled by their holders: the listeners
    keep their invariant (no name maps to an empty list, names are in
    lower case, every registered future is pending or cancelled and is
    registered once); so a dispatch of any event with any arguments
    returns normally, whether the checks return or raise, and schedules
    the coroutine [on_<event>] once if the client has one and nothing
    otherwise. *)
Theorem client_dispatch_returns_with_tame_checks (attrs : gset string)
    (ops : list op) (ev : string) (args : list json) :
  Forall tame_op ops ->
  let c := apply_ops (init attrs) ops in
  client_ok c
  /\ exists c',
       dispatch ev args c = (Ok tt, c')
       /\ scheduled c'
          = scheduled c
              ++ (if bool_decide (("on_" ++ ev)%string ∈ attrs)
                  then [(("on_" ++ ev)%string, args)] else []).
Proof.
  intros Htame c.
  assert (Hok : client_ok c).
  { apply client_ok_apply_ops; [exact Htame|apply client_ok_init]. }
  split; [exact Hok|].
  destruct (client_ok_dispatch ev args c Hok) as (c' & Hd & _ & Hs).
  exists c'. split; [exact Hd|]. rewrite Hs.
  subst c. rewrite client_attributes_apply_ops. reflexivity.
Qed.

Lemma client_dispatch_returns_with_tame_checks_witness :
  let ops := [OpWaitFor "ready" (Some (fun _ => Raise ValueError));
              OpWaitFor "ready" None; OpCancel 1] in
  exists c',
    dispatch "ready" [JNum 1] (apply_ops (init {[ "on_ready"%string ]}) ops)
      = (Ok tt, c')
    /\ scheduled c' = [("on_ready"%string, [JNum 1])].
Proof.
  intros ops.
  destruct (client_dispatch_returns_with_tame_checks {[ "on_ready"%string ]}
              ops "ready" [JNum 1]) as (_ & c' & Hd & Hs).
  - subst ops. apply Forall_cons. split; [|repeat constructor].
    intros a e H. injection H as <-. split; [reflexivity|discriminate].
  - exists c'. split; [exact Hd|]. rewrite Hs. vm_compute. reflexivity.
Defined.

Lemma client_dispatch_futures ev args c :
  futures (dispatch ev args c).2 = futures (dispatch_listeners ev args c).2
  /\ _listeners (dispatch ev args c).2 = _listeners (dispatch_listeners ev args c).2
  /\ next_future (dispatch ev args c).2 = next_future (dispatch_listeners ev args c).2
  /\ ((dispatch ev args c).1 = Ok tt -> (dispatch_listeners ev args c).1 = Ok tt).
Proof.
  unfold dispatch.
  destruct (dispatch_listeners ev args c) as [[u|e] c']; simpl;
    [|repeat split; discriminate].
  destruct (bool_decide (("on_" ++ ev)%string ∈ attributes c'));
    repeat split; destruct u; reflexivity.
Qed.

(** What holds whether or not a dispatch has raised. *)
Lemma registered_ok_dispatch ev args c :
  registered_ok c -> registered_ok (dispatch ev args c).2.
Proof.
  intros Hreg.
  destruct (client_dispatch_futures ev args c) as (_ & Hl & Hn & _).
  unfold registered_ok. rewrite Hl, Hn. clear Hl Hn.
  rewrite client_dispatch_sweep.
  destruct (_listeners c !! ev) as [[|entry rest]|] eqn:El; try exact Hreg.
  destruct (sweep args (entry :: rest) (futures c)) as [[kept|e] futs] eqn:Hs;
    [|exact Hreg].
  pose proof (client_sweep_sublist _ _ _ _ _ Hs) as Hsub.
  cbn [snd with_listeners with_futures _listeners next_future].
  intros ev' l Hl.
  apply client_listeners_after in Hl as [(-> & -> & Hne)|(Hne & Hl)].
  - destruct (Hreg _ _ El) as [Hlow Hlt]. split; [exact Hlow|].
    intros f Hf. apply Hlt.
    eapply elem_of_sublist; [exact Hf|]. apply fmap_sublist. exact Hsub.
  - apply (Hreg _ _ Hl).
Qed.

Lemma registered_ok_wait_for ev check c :
  registered_ok c -> registered_ok (wait_for ev check c).2.
Proof.
  intros Hreg ev' l Hl. unfold wait_for in *.
  cbn [snd _listeners next_future] in *.
  destruct (decide (ev' = Str.lower ev)) as [->|Hne].
  - rewrite lookup_insert_eq in Hl. injection Hl as <-.
    split; [apply lower_idem|].
    intros f Hf. rewrite fmap_app in Hf. apply elem_of_app in Hf as [Hf|Hf].
    + destruct (_listeners c !! Str.lower ev) as [l|] eqn:El; [|inversion Hf].
      destruct (Hreg _ _ El) as [_ Hlt]. specialize (Hlt f Hf). lia.
    + simpl in Hf. apply list_elem_of_singleton in Hf. subst f. lia.
  - rewrite lookup_insert_ne in Hl by congruence.
    destruct (Hreg _ _ Hl) as [Hlow Hlt]. split; [exact Hlow|].
    intros f Hf. specialize (Hlt f Hf). lia.
Qed.

Lemma registered_ok_apply_ops ops : forall c,
  registered_ok c -> registered_ok (apply_ops c ops).
Proof.
  induction ops as [|o ops IH]; intros c Hreg; simpl; [exact Hreg|].
  apply IH. destruct o as [ev check|ev args|g]; simpl.
  - apply registered_ok_wait_for. exact Hreg.
  - apply registered_ok_dispatch. exact Hreg.
  - unfold cancel. destruct (futures c !! g) as [[| | |]|]; exact Hreg.
Qed.

Lemma registered_ok_init attrs : registered_ok (init attrs).
Proof. intros ev l Hl. simpl in Hl. simplify_map_eq. Qed.

(** X22: [wait_for] files a waiter under the lower-cased event name, and
    [dispatch] looks the name up as it is given.  So a dispatch of a name
    that has an upper-case letter serves no waiter: the waiter registered
    for that very name stays where it is, its future pending, and the
    listeners and the futures of the client are as they were. *)
Theorem client_upper_case_event_serves_no_waiter (attrs : gset string)
    (ops : list op) (ev : string) (check : option condition)
    (args : list json) :
  Str.lower ev <> ev ->
  let c := apply_ops (init attrs) ops in
  let f := (wait_for ev check c).1 in
  let c1 := (wait_for ev check c).2 in
  let c2 := (dispatch ev args c1).2 in
  (dispatch ev args c1).1 = Ok tt
  /\ futures c2 = futures c1
  /\ _listeners c2 = _listeners c1
  /\ futures c2 !! f = Some Gateway.Pending
  /\ exists l, _listeners c2 !! Str.lower ev = Some l /\ f ∈ l.*1.
Proof.
  intros Hcase c f c1 c2.
  assert (Hok : registered_ok c1).
  { apply registered_ok_wait_for, registered_ok_apply_ops, registered_ok_init. }
  assert (Hnone : _listeners c1 !! ev = None).
  { destruct (_listeners c1 !! ev) as [l|] eqn:El; [|reflexivity].
    destruct (Hok _ _ El) as [Hlow _]. contradiction. }
  assert (Hd : dispatch_listeners ev args c1 = (Ok tt, c1)).
  { unfold dispatch_listeners. rewrite Hnone. reflexivity. }
  destruct (client_dispatch_futures ev args c1) as (Hf & Hl & _).
  rewrite Hd in Hf, Hl. simpl in Hf, Hl. fold c2 in Hf, Hl.
  split.
  { unfold dispatch. rewrite Hd.
    destruct (bool_decide _); reflexivity. }
  split; [exact Hf|]. split; [exact Hl|].
  rewrite Hf, Hl. split.
  - apply lookup_insert_eq.
  - eexists. split; [apply lookup_insert_eq|].
    rewrite fmap_app. apply elem_of_app. right. left.
Qed.

Lemma client_upper_case_event_serves_no_waiter_witness :
  let c1 := (wait_for "Ready" None (init ∅)).2 in
  futures (dispatch "Ready" [] c1).2 !! 0%nat = Some Gateway.Pending.
Proof.
  intros c1.
  refine (proj1 (proj2 (proj2 (proj2
            (client_upper_case_event_serves_no_waiter ∅ [] "Ready" None [] _))))).
  discriminate.
Defined.



End ClientEventsFacts.

(** * Closing the client *)

Section ClientLifecycleFacts.
Import Py Gateway ClientLifecycle.

(** X24: the client's [close] works once.  A call that returns leaves
    the client closed, and a further call returns at once without
    touching anything.  With an HTTP client the flag [_closed] is set
    even when closing the gateway raises.  A client that never got its
    HTTP client (one that was never connected) cannot be closed: the call
    raises [AttributeError] and leaves it open. *)
Theorem client_close_works_once (c : Client) :
  (forall c1, close c = (Ok tt, c1) ->
     is_closed c1 = true /\ close c1 = (Ok tt, c1))
  /\ (http c <> None -> is_closed (close c).2 = true)
  /\ (http c = None -> is_closed c = false ->
      close c = (Raise AttributeError, c)).
Proof.
  unfold close, is_closed. split; [|split].
  - intros c1 H.
    destruct (_closed c) eqn:Hc.
    { injection H as <-. rewrite Hc. split; reflexivity. }
    destruct (http c) as [h|]; [|discriminate].
    cbn [ws http _closed _ready] in H.
    destruct (ws c) as [w|].
    + destruct (Setup.open w).
      * destruct (Gateway.close 1000 w) as [[u|e] w']; [|discriminate].
        injection H as <-. split; reflexivity.
      * injection H as <-. split; reflexivity.
    + injection H as <-. split; reflexivity.
  - intros Hhttp. destruct (_closed c) eqn:Hc; [exact Hc|].
    destruct (http c) as [h|]; [|contradiction].
    cbn [ws http _closed _ready].
    destruct (ws c) as [w|]; [|reflexivity].
    destruct (Setup.open w); [|reflexivity].
    destruct (Gateway.close 1000 w) as [[u|e] w']; reflexivity.
  - intros -> ->. reflexivity.
Qed.

Lemma client_close_works_once_witness :
  let c := {| ws := Some Examples.binance_ws; http := Some false;
              _closed := false; _ready := true |} in
  is_closed (close c).2 = true
  /\ close (close c).2 = (Ok tt, (close c).2).
Proof.
  intros c.
  exact (proj1 (client_close_works_once c) (close c).2 eq_refl).
Defined.

(** X25: what the client's [close] does to an open gateway.  With an HTTP
    client, a gateway whose socket is open and closes without raising:
    [close] returns, the socket is closed with code 1000, the keep-alive
    handler is forgotten, the client is closed and no longer ready; and
    the close message that the socket delivers next makes [poll_event]
    raise [ConnectionClosed] with code 1000, not a request to
    reconnect. *)
Theorem client_close_ends_the_connection (c : Client) (w : WebSocket)
    (h : bool) (received_message : frame -> M unit) (ty : WSMsgType)
    (data : frame) :
  _closed c = false ->
  http c = Some h ->
  ws c = Some w ->
  Setup.open w = true ->
  close_error (socket w) = None ->
  ty ∈ [CLOSED; CLOSING; CLOSE] ->
  exists w',
    close c = (Ok tt, {| ws := Some w'; http := Some true; _closed := true;
                         _ready := false |})
    /\ Setup.open w' = false
    /\ _keep_alive w' = None
    /\ trace w' = trace w ++ [SocketClose 1000]
    /\ (poll_event received_message (Message ty data) w').1
       = Raise (ConnectionClosed (Some 1000)).
Proof.
  intros Hc Hh Hw Hopen Herr Hty.
  destruct (close_effects 1000 w)
    as (r & w' & Heq & Hcode & Hka & Htr & _ & Hclosed).
  assert (Hr : r = Ok tt).
  { clear - Heq Herr.
    unfold Gateway.close, stop_keep_alive, socket_close, emit, modify in Heq.
    unfold bind in Heq.
    destruct w as [sock ka ps ls hb cc rl th fu nf tr]. simpl in Herr.
    destruct ka; simpl in Heq; rewrite Herr in Heq;
      injection Heq as <- _; reflexivity. }
  subst r. exists w'. split; [|split; [|split; [|split]]].
  - unfold close. rewrite Hc, Hh. cbn [ws http _closed _ready].
    rewrite Hw, Hopen, Heq. reflexivity.
  - unfold Setup.open. rewrite (Hclosed Herr). reflexivity.
  - exact Hka.
  - exact Htr.
  - rewrite (poll_event_closure received_message ty data w' Hty).
    cbv zeta. unfold _can_handle_close. rewrite Hcode. reflexivity.
Qed.

Lemma client_close_ends_the_connection_witness :
  let c := {| ws := Some Examples.binance_ws; http := Some false;
              _closed := false; _ready := true |} in
  exists w',
    close c = (Ok tt, {| ws := Some w'; http := Some true; _closed := true;
                         _ready := false |})
    /\ (poll_event (Binance.received_message 3)
          (Message CLOSED (Malformed "x")) w').1
       = Raise (ConnectionClosed (Some 1000)).
Proof.
  intros c.
  destruct (client_close_ends_the_connection c Examples.binance_ws false
              (Binance.received_message 3) CLOSED (Malformed "x")
              eq_refl eq_refl eq_refl eq_refl eq_refl)
    as (w' & H1 & _ & _ & _ & H2).
  { left. }
  exists w'. split; [exact H1|exact H2].
Defined.

End ClientLifecycleFacts.
